(* ===== verification/_CoqProject ===== *)
-Q . S2P
Prelude.v
Operand.v
Graph.v
ForwardEval.v
Contributor.v
PathGen.v
XvaEngineCG.v
CrossAssetModelData.v
CrossAssetModelXml.v
IterativeBootstrap.v
NormalSabr.v
SensitivityScenarioData.v
Scenarios.v
CamScenarios.v
