(* ===== verification/Prelude.v ===== *)
(** * A Rocq model of the computation-graph XVA engine of ORE

    The program (src/) computes exposure profiles by building one shared
    computation graph for a whole portfolio and evaluating it forward over
    Monte Carlo paths.  Its parts and how they interact:

    - [XvaEngineCG]'s constructor (OREAnalytics/orea/engine/xvaenginecg.cpp)
      is the orchestrator: it duplicates the portfolio (a test hack reading
      the environment variable [N]), checks that the cross asset model is
      discretised with Euler, lets every trade's pricing engine append its
      subgraph to the model's graph under the prefix [id + "_"], binds the
      random variates, constants and model parameters, marks the NPV and
      AMC NPV nodes to keep and runs the forward evaluation with the
      deleter.
    - The computation graph, the forward evaluation, the path-vectorised
      operands, the generators and the two graph contributors (the model
      and the scripted pricing engines) are not under src/: they are
      modelled from the spec and stated as interfaces.
    - [CrossAssetModelData] (OREData/ored/model/crossassetmodeldata.cpp)
      configures the model: component configurations aligned with the
      currencies, equities, inflation indices and credit names.
    - [IterativeBootstrap] (QuantExt/qle/termstructures/iterativebootstrap.hpp)
      fits curves pillar by pillar; [normalsabr.cpp] (QuantExt/qle/models)
      computes normal SABR volatilities.

    Files, in the order of _CoqProject:

    - [Prelude] (this file): the error monad [res] for [QL_REQUIRE]/[QL_FAIL]
      with its notation [let!], loops ([res_foldl], [res_mapM]) and their
      rule-induction lemmas, [size_sub] for [Size] arithmetic that wraps
      at 2^64, the tactic [res_inv] and the hint database [engine].
    - [Operand]: [real] (a double with NaN and the infinities as
      constructors), [RandomVariable] as a list of [real]s, the operator
      codes and the class [OperatorRegistry] (spec §4.4).
    - [Graph], Module [ComputationGraph]: the graph record (nodes,
      last-use table, constants, labels, prefix), its API ([insert],
      [constant], [setVariable], [variable], [setPrefix]), the step
      relation [api_step], the invariant [wf] and its preservation by every
      step (spec §4.1).
    - [ForwardEval]: [forwardEvaluation] with reclamation, parametric in the
      operator registry; [forwardEvaluation_refines] proves it equal on every
      kept node to the evaluation without reclamation, and
      [forwardEvaluation_releases] that every non-kept read node is
      released (spec §4.2).
    - [Contributor]: the record [contributor], what a graph contributor
      promises (only [api_step]s), and an implementation compiling a small
      payoff-script language.
    - [PathGen]: a generator as a state with [next].
    - [XvaEngineCG], Module [XvaEngineCG]: each stage of the constructor as
      a function ([duplicate_portfolio], [build_trades],
      [populate_random_variates], [bound_values], [keep_nodes]) and [run],
      the whole constructor; its theorems are proved against the
      contributor law and the evaluator's theorems.
    - [CrossAssetModelData], Module [CamData]: the data members as a record,
      each builder as a function of the members it reads returning the
      members it writes, [fromXML] on the parsed document, [validate],
      [clear] and the equality operators.
    - [CrossAssetModelXml], Module [CamXmlIO]: [toXML] of the data and of
      the correlations, the reading calls of [fromXML] ([parse_cam],
      [fromNode]) and the reload of every builder on the configurations it
      built.
    - [IterativeBootstrap], Module and Section [Bootstrap]: [setup],
      [initialize], [calculate] with the traits, interpolator and solvers as
      parameters.
    - [NormalSabr], Module [NormalSabr]: the volatility, the alpha inversion
      and the free-boundary helpers over the reals.
    - [SensitivityScenarioData], Module [SensitivityScenarioData]
      (OREAnalytics/orea/scenario/sensitivityscenariodata.hpp): the
      members as a dependent function over the type [Member], the shift
      data structs, the default constructor, and the inspectors and setters
      as the tables of the member each returns; the accessors only read and
      write members, so this file carries no claim, only the get/set laws.
    - [Scenarios]: concrete configurations (one trade priced with
      [max(x - 100, 0)] on four paths, alone and as two copies, a
      two-factor variate table, a three-helper bootstrap, a EUR/USD
      model configuration, SABR parameters), the spec's scenarios as
      theorems and the witnesses of the theorems with hypotheses.
    - [CamScenarios]: text conversions and a EUR/USD configuration with
      correlations, written and reloaded.

    Groups of theorems (each claim's doc comment carries its id):
    - refinement and safety of the engine: [run_outputs_reference] (kept
      outputs equal the evaluation without reclamation), [run_releases]
      (every other read node is released), [run_no_unbound_input];
    - the trade loop and the portfolio duplication: [build_trades_chain]
      (each trade's contributor runs on the graph the previous one left,
      and its range is the interval of nodes it appended),
      [duplicate_portfolio_copies] (the priced portfolio holds exactly the
      [N] renamed copies of every trade, [N] converted to [Size]);
    - types: [bound_values_sized] (every bound value is a path vector of
      the model's size);
    - invariants: [calculate_inv], [initialize_dates_increasing];
    - error behaviour: [run_guards], [calculate_total_solver] (with a
      solver that always finds a root the bootstrap fails only by
      non-convergence), [buildCrConfigs_lgm_and_cir],
      [buildIrConfigs_Ok_iff], [toXML_inflation_unreadable];
    - functional behaviour of the binding stages
      ([bound_values_parameter], [bound_values_unbound_zero],
      [populate_random_variates_binds]), of the configuration builders
      ([fromXML_alignment], [buildCrConfigs_partition],
      [buildInfConfigs_default], [cam_eqb_ignores_credit_names]), of the
      bootstrap's retry after a solver failure ([calculate_retry_fresh]:
      it restarts from the initial guess with the first solver) and of the
      SABR formulas ([atm_negative_factor_floor]);
    - round trips: [toXML_roundtrip] (write then reload a configuration),
      [toXML_reload_equal] (the reloaded configuration is equal to the
      original under [operator==], [cam_eqb], and not under [operator!=]),
      [atm_roundtrip] (alpha from the ATM volatility and back);
    - termination and bounds: [calculate_genuine] (the fuel is enough),
      [normalSabrVolatility_total], [adjust_guess_bracket],
      [max_iterations_wraps] (wrap-around of [Size] arithmetic),
      [iterate_stops].
    Other theorems support these or check the spec's scenarios
    ([scenario_call_payoff], [example_add_mult_all_paths]) and the
    findings ([deltaR_misparenthesized]).

    Fuel and bounds: the loops of the evaluator and the engine are
    structural.  In [IterativeBootstrap] the search for the first alive
    helper gets [n + 1] steps, the passes [maxIterations - 1 + 1] (the
    code's own bound) and [calculate] two attempts; [calculate_genuine] proves each is
    enough, i.e. [OutOfFuel] is never returned.  [Size] is 64 bits wide:
    [size_sub] and [copy_count] reduce modulo 2^64.  Doubles are exact
    rationals ([Q]) in the engine, the configuration and the bootstrap, and
    reals in [NormalSabr]: rounding and overflow are not modelled.

    Not modelled: market and model building, the engine factory, the
    parsing of XML text (XMLUtils) and the text conversions ([to_string],
    [parseReal], which are parameters of [CrossAssetModelXml]), logging,
    timers and output (I/O and external collaborators); the market data
    utilities (marketdata.hpp declares functions whose definitions are not
    in the repository); cancellation of the evaluation (spec §5, §7), which
    the code does not have: the constructor's only outcomes are a result or
    an exception; [fromXML], [toXML] and [getIndexCurrency] of
    [SensitivityScenarioData] (declared only); the function [G] of
    normalsabr.cpp, which has no [return] statement. *)

From stdpp Require Export base list gmap strings pretty sorting.
From Stdlib Require Export ZArith.

(** * Prelude: the error monad, loops, shared tactics and hints

    The C++ code signals failures with [QL_REQUIRE]/[QL_FAIL], which throw a
    [QuantLib::Error].  Every fallible operation of the model returns a value of
    [res E A]: [Ok a] for a normal return, [Err e] for a thrown error whose
    payload [e] names the failed check.  Loops that may throw are
    [res_foldl]. *)

Inductive res (E A : Type) : Type :=
  | Ok (a : A)
  | Err (e : E).
Arguments Ok {E A} a.
Arguments Err {E A} e.

Definition res_bind {E A B} (m : res E A) (f : A -> res E B) : res E B :=
  match m with
  | Ok a => f a
  | Err e => Err e
  end.

Definition res_map {E A B} (f : A -> B) (m : res E A) : res E B :=
  match m with
  | Ok a => Ok (f a)
  | Err e => Err e
  end.

(** Rewrap the error of a callee, as a caller that adds context to it. *)
Definition res_map_err {E E' A} (f : E -> E') (m : res E A) : res E' A :=
  match m with
  | Ok a => Ok a
  | Err e => Err (f e)
  end.

(** [QL_REQUIRE(b, e)]. *)
Definition ql_require {E} (b : bool) (e : E) : res E unit :=
  if b then Ok tt else Err e.

(** [Some x] or throw. *)
Definition of_option {E A} (o : option A) (e : E) : res E A :=
  match o with
  | Some a => Ok a
  | None => Err e
  end.

Declare Scope res_scope.
Delimit Scope res_scope with res.
Notation "'let!' x ':=' m 'in' k" := (res_bind m (fun x => k))
  (at level 10, x name, m at level 100, k at level 200) : res_scope.
Notation "'let!' ' pat ':=' m 'in' k" := (res_bind m (fun pat => k))
  (at level 10, pat pattern, m at level 100, k at level 200) : res_scope.
Open Scope res_scope.

(** A [for] loop whose body may throw. *)
Fixpoint res_foldl {E S A} (f : S -> A -> res E S) (s : S) (l : list A) : res E S :=
  match l with
  | [] => Ok s
  | a :: l' => let! s' := f s a in res_foldl f s' l'
  end.

(** Map a fallible function over a list, stopping at the first error. *)
Fixpoint res_mapM {E A B} (f : A -> res E B) (l : list A) : res E (list B) :=
  match l with
  | [] => Ok []
  | a :: l' => let! b := f a in let! bs := res_mapM f l' in Ok (b :: bs)
  end.

(** The decimal rendering of a [Size], as [std::to_string]. *)
Definition to_string (n : nat) : string := pretty n.

(** [a - b] on [Size] (64-bit unsigned): wraps below zero. *)
Definition size_sub (a b : nat) : Z := ((Z.of_nat a - Z.of_nat b) mod 2 ^ 64)%Z.

(** ** Lemmas on the error monad *)

Lemma res_bind_Ok {E A B} (m : res E A) (f : A -> res E B) b :
  res_bind m f = Ok b <-> exists a, m = Ok a /\ f a = Ok b.
Proof.
  destruct m as [a|e]; simpl; split; [eauto|intros (? & [=->] & ?)|done|].
  - done.
  - by intros (? & ? & ?).
Qed.

Lemma res_bind_Err {E A B} (m : res E A) (f : A -> res E B) e :
  res_bind m f = Err e <-> m = Err e \/ exists a, m = Ok a /\ f a = Err e.
Proof.
  destruct m as [a|e']; simpl; split.
  - eauto.
  - by intros [?|(? & [=->] & ?)].
  - intros [=->]; by left.
  - by intros [[=->]|(? & ? & ?)].
Qed.

Lemma ql_require_Ok {E} b (e : E) u : ql_require b e = Ok u <-> b = true.
Proof. destruct b, u; simpl; split; congruence. Qed.

Lemma of_option_Ok {E A} (o : option A) (e : E) a : of_option o e = Ok a <-> o = Some a.
Proof. destruct o; simpl; split; congruence. Qed.

Lemma res_map_err_Ok {E E' A} (f : E -> E') (m : res E A) a :
  res_map_err f m = Ok a <-> m = Ok a.
Proof. destruct m; simpl; split; congruence. Qed.

Lemma res_mapM_Ok {E A B} (f : A -> res E B) l bs :
  res_mapM f l = Ok bs -> Forall2 (fun a b => f a = Ok b) l bs.
Proof.
  revert bs. induction l as [|a l IH]; intros bs H; simpl in H.
  - injection H as <-. constructor.
  - apply res_bind_Ok in H as (b & Hb & H). apply res_bind_Ok in H as (bs' & Hbs & [= <-]).
    constructor; auto.
Qed.

Lemma res_foldl_app {E S A} (f : S -> A -> res E S) s l1 l2 :
  res_foldl f s (l1 ++ l2) = let! s' := res_foldl f s l1 in res_foldl f s' l2.
Proof.
  revert s. induction l1 as [|a l1 IH]; intros s; simpl; [done|].
  destruct (f s a); simpl; [apply IH|done].
Qed.

(** Rule induction for a [for] loop: an invariant kept by every iteration
    holds at the end. *)
Lemma res_foldl_invariant {E S A} (P : S -> Prop) (f : S -> A -> res E S) l :
  (forall s a s', a ∈ l -> P s -> f s a = Ok s' -> P s') ->
  forall s s', P s -> res_foldl f s l = Ok s' -> P s'.
Proof.
  induction l as [|a l IH]; intros Hstep s s' Hs Hrun; simpl in Hrun.
  - by injection Hrun as <-.
  - apply res_bind_Ok in Hrun as (s1 & Hf & Hrest).
    eapply IH; [|eapply Hstep; [left|..]|]; eauto.
    intros; eapply Hstep; eauto. by right.
Qed.

(** Plain [foldl] with an invariant. *)
Lemma foldl_invariant {S A} (P : S -> Prop) (f : S -> A -> S) l :
  (forall s a, a ∈ l -> P s -> P (f s a)) ->
  forall s, P s -> P (foldl f s l).
Proof.
  induction l as [|a l IH]; intros Hstep s Hs; simpl; [done|].
  apply IH; [|apply Hstep; [left|]]; auto.
  intros; apply Hstep; [by right|done].
Qed.

(** A loop fails when one of its elements fails from every state. *)
Lemma res_foldl_fail {E S A} (f : S -> A -> res E S) l a :
  a ∈ l -> (forall s, exists e, f s a = Err e) -> forall s, exists e, res_foldl f s l = Err e.
Proof.
  intros Ha Hf. induction l as [|b l IH]; intros s; [by apply elem_of_nil in Ha|]. simpl.
  apply elem_of_cons in Ha as [->|Ha].
  - destruct (Hf s) as [e ->]. by exists e.
  - destruct (f s b) as [s'|e]; simpl; [by apply IH|by exists e].
Qed.

(** ** Tactics *)

(** Split every successful bind, [ql_require] and [of_option] in the
    hypotheses into its parts. *)
Ltac res_inv :=
  repeat match goal with
  | H : res_bind _ _ = Ok _ |- _ =>
      apply res_bind_Ok in H as (? & ? & ?)
  | H : ql_require _ _ = Ok _ |- _ => apply ql_require_Ok in H
  | H : of_option _ _ = Ok _ |- _ => apply of_option_Ok in H
  | H : res_map_err _ _ = Ok _ |- _ => apply res_map_err_Ok in H
  | H : Ok _ = Ok _ |- _ => injection H as H
  | H : Ok _ = Err _ |- _ => discriminate H
  | H : Err _ = Ok _ |- _ => discriminate H
  end; subst.

Create HintDb engine discriminated.
#[export] Hint Resolve res_bind_Ok ql_require_Ok of_option_Ok : engine.

(** ** Generic list lemmas shared by the components *)

Lemma lookup_foldl_insert_other {A B} (h : B -> nat) (x : B -> A) (l : list B) (vs : list A) i :
  (forall b, b ∈ l -> h b <> i) ->
  foldl (fun acc b => <[h b := x b]> acc) vs l !! i = vs !! i.
Proof.
  revert vs. induction l as [|b l IH]; intros vs Hne; simpl; [done|].
  rewrite IH by (intros; apply Hne; by right).
  apply list_lookup_insert_ne. apply Hne. by left.
Qed.

Lemma lookup_foldl_insert_notin {A} (x : A) (l : list nat) (vs : list A) i :
  i ∉ l -> foldl (fun acc q => <[q := x]> acc) vs l !! i = vs !! i.
Proof.
  intros Hi. apply (lookup_foldl_insert_other id (fun _ => x)).
  intros b Hb Heq. unfold id in Heq. subst. done.
Qed.

Lemma length_foldl_insert {A B} (f : B -> nat * A) (l : list B) (vs : list A) :
  length (foldl (fun acc b => <[(f b).1 := (f b).2]> acc) vs l) = length vs.
Proof.
  revert vs. induction l as [|b l IH]; intros vs; simpl; [done|].
  by rewrite IH, length_insert.
Qed.

(** Setting flags to [true] along a list. *)
Lemma lookup_foldl_set_true (kn : list bool) (ns : list nat) m :
  foldl (fun kn' n => <[n := true]> kn') kn ns !! m = Some true <->
  kn !! m = Some true \/ (m ∈ ns /\ m < length kn).
Proof.
  revert kn. induction ns as [|n ns IH]; intros kn; simpl.
  - split; [by left|]. intros [?|[Hin _]]; [done|by apply elem_of_nil in Hin].
  - rewrite IH, length_insert, elem_of_cons. destruct (decide (n = m)) as [->|Hne].
    + destruct (decide (m < length kn)).
      * rewrite list_lookup_insert_eq by done. naive_solver.
      * rewrite list_insert_ge by lia. naive_solver.
    + rewrite list_lookup_insert_ne by done. naive_solver.
Qed.

Lemma length_foldl_set_true (kn : list bool) (ns : list nat) :
  length (foldl (fun kn' n => <[n := true]> kn') kn ns) = length kn.
Proof. exact (length_foldl_insert (fun n => (n, true)) ns kn). Qed.

(** Every error a loop raises is an error one of its iterations raises. *)
Lemma res_foldl_err {E S A} (P : E -> Prop) (f : S -> A -> res E S) l :
  (forall s a e, f s a = Err e -> P e) -> forall s e, res_foldl f s l = Err e -> P e.
Proof.
  intros Hf. induction l as [|a l IH]; intros s e H; simpl in H; [done|].
  destruct (f s a) eqn:Hf1; simpl in H; [by eapply IH|]. injection H as <-. eauto.
Qed.

(** With distinct keys, the slot of a key holds the value written for it. *)
Lemma lookup_foldl_insert_NoDup {A B} (h : B -> nat) (x : B -> A) (l : list B) (vs : list A) b :
  NoDup (h <$> l) -> b ∈ l -> h b < length vs ->
  foldl (fun acc b => <[h b := x b]> acc) vs l !! h b = Some (x b).
Proof.
  revert vs. induction l as [|b' l IH]; intros vs Hnd Hb Hlt; [by apply elem_of_nil in Hb|].
  simpl in *. apply NoDup_cons in Hnd as [Hnotin Hnd]. apply elem_of_cons in Hb as [->|Hb].
  - rewrite lookup_foldl_insert_other.
    + by apply list_lookup_insert_eq.
    + intros b'' Hb'' Heq. apply Hnotin. rewrite <- Heq. by apply list_elem_of_fmap_2.
  - apply IH; [done|done|by rewrite length_insert].
Qed.

Lemma zip_with_replicate {A B C} (f : A -> B -> C) n a b :
  zip_with f (replicate n a) (replicate n b) = replicate n (f a b).
Proof. induction n as [|n IH]; simpl; [done|]. by rewrite IH. Qed.


(** A loop that appends what each element yields is a [res_mapM] followed
    by one append. *)
Lemma res_foldl_append_mapM {E A B} (f : A -> res E (list B)) (body : list B -> A -> res E (list B))
    acc xs :
  (forall acc x, body acc x = res_map (fun ys => acc ++ ys) (f x)) ->
  res_foldl body acc xs = res_map (fun yss => acc ++ concat yss) (res_mapM f xs).
Proof.
  intros Hbody. revert acc. induction xs as [|x xs IH]; intros acc; simpl; [by rewrite app_nil_r|].
  rewrite Hbody. destruct (f x) as [ys|e]; simpl; [|done].
  rewrite IH. destruct (res_mapM f xs); simpl; [|done]. by rewrite app_assoc.
Qed.

(** A loop of [QL_REQUIRE]s succeeds iff every check holds. *)
Lemma res_foldl_require {E A} (p : A -> bool) (e : A -> E) l u :
  res_foldl (fun (_ : unit) a => ql_require (p a) (e a)) tt l = Ok u <-> Forall (fun a => p a = true) l.
Proof.
  destruct u. induction l as [|a l IH]; simpl; [split; auto|].
  rewrite Forall_cons, <- IH. unfold ql_require. destruct (p a); simpl; split; naive_solver.
Qed.

(** [res_mapM] succeeds iff [f] succeeds on each element. *)
Lemma res_mapM_is_Ok {E A B} (f : A -> res E B) l :
  (exists bs, res_mapM f l = Ok bs) <-> Forall (fun a => exists b, f a = Ok b) l.
Proof.
  induction l as [|a l IH]; simpl; [split; eauto|]. rewrite Forall_cons, <- IH.
  split.
  - intros [bs H]. apply res_bind_Ok in H as (b & Hb & H). apply res_bind_Ok in H as (bs' & Hbs & _). eauto.
  - intros [[b Hb] [bs Hbs]]. rewrite Hb, Hbs. simpl. eauto.
Qed.

Lemma size_sub_le a b : b <= a -> (Z.of_nat a < 2 ^ 64)%Z -> size_sub a b = Z.of_nat (a - b).
Proof. intros Hle Hlt. unfold size_sub. rewrite Nat2Z.inj_sub by done. apply Z.mod_small. lia. Qed.

(** Every error a loop raises comes from one of its elements. *)
Lemma res_foldl_err_elem {E S A} (P : E -> Prop) (f : S -> A -> res E S) l :
  (forall s a e, a ∈ l -> f s a = Err e -> P e) -> forall s e, res_foldl f s l = Err e -> P e.
Proof.
  induction l as [|a l IH]; intros Hf s e H; simpl in H; [done|].
  destruct (f s a) eqn:Hf1; simpl in H.
  - eapply IH; [|done]. intros; eapply Hf; [by right|done].
  - injection H as <-. eapply Hf; [by left|done].
Qed.

(** In a strongly sorted list, an earlier element is related to a later one. *)
Lemma StronglySorted_lookup_lt {A} (R : relation A) l i j x y :
  StronglySorted R l -> i < j -> l !! i = Some x -> l !! j = Some y -> R x y.
Proof.
  intros Hs. revert i j. induction Hs as [|a l Hs IH Hall]; intros i j Hij Hi Hj; [done|].
  destruct i as [|i], j as [|j]; simpl in *; try lia.
  - injection Hi as ->. rewrite Forall_forall in Hall. apply Hall. by eapply list_elem_of_lookup_2.
  - apply (IH i j); [lia|done|done].
Qed.

Lemma size_sub_range a b : (0 <= size_sub a b < 2 ^ 64)%Z.
Proof. unfold size_sub. apply Z.mod_pos_bound. lia. Qed.

(** A loop none of whose elements touches slot [i] leaves it alone. *)
Lemma foldl_untouched {A B} (f : list B -> A -> list B) (l : list A) i vs :
  (forall a vs', a ∈ l -> f vs' a !! i = vs' !! i) -> foldl f vs l !! i = vs !! i.
Proof.
  revert vs. induction l as [|a l IH]; intros vs Hpres; simpl; [done|].
  rewrite IH; [apply Hpres, list_elem_of_here|].
  intros; apply Hpres; by apply list_elem_of_further.
Qed.

(** A loop in which exactly one element touches slot [i]: the slot ends up
    transformed once. *)
Lemma foldl_single_hit {A B} (f : list B -> A -> list B) (l : list A) a0 i (g : B -> B) vs :
  NoDup l -> a0 ∈ l ->
  (forall a vs', a ∈ l -> a <> a0 -> f vs' a !! i = vs' !! i) ->
  (forall vs', f vs' a0 !! i = g <$> (vs' !! i)) ->
  foldl f vs l !! i = g <$> (vs !! i).
Proof.
  revert vs. induction l as [|a l IH]; intros vs Hnd Hin Hother Hhit; [by apply elem_of_nil in Hin|].
  apply NoDup_cons in Hnd as [Hnotin Hnd]. simpl. apply elem_of_cons in Hin as [->|Hin].
  - rewrite foldl_untouched; [by rewrite Hhit|].
    intros b vs' Hb. apply Hother; [by apply list_elem_of_further|]. intros ->. contradiction.
  - assert (a <> a0) by (intros ->; contradiction).
    rewrite IH; [|done|done| |done].
    + rewrite Hother; [done|apply list_elem_of_here|done].
    + intros b vs' Hb Hne. apply Hother; [by apply list_elem_of_further|done].
Qed.

(** In a list of lists whose concatenation has no duplicates, an element
    sits at one position only. *)
Lemma concat_lookup_unique {A} (l : list (list A)) k j k' j' x :
  NoDup (concat l) -> l !! k ≫= (.!! j) = Some x -> l !! k' ≫= (.!! j') = Some x -> k = k' /\ j = j'.
Proof.
  revert k k'. induction l as [|row l IH]; intros k k' Hnd H1 H2; [done|].
  simpl in Hnd. apply NoDup_app in Hnd as (Hrow & Hdisj & Hrest).
  destruct k as [|k], k' as [|k']; simpl in H1, H2.
  - split; [done|]. by apply (NoDup_lookup row j j' x).
  - exfalso. destruct (l !! k') as [row'|] eqn:E; simpl in H2; [|done].
    apply (Hdisj x); [by eapply list_elem_of_lookup_2|].
    apply list_elem_of_In, in_concat. exists row'. split; apply list_elem_of_In; by eapply list_elem_of_lookup_2.
  - exfalso. destruct (l !! k) as [row'|] eqn:E; simpl in H1; [|done].
    apply (Hdisj x); [by eapply list_elem_of_lookup_2|].
    apply list_elem_of_In, in_concat. exists row'. split; apply list_elem_of_In; by eapply list_elem_of_lookup_2.
  - destruct (IH k k') as [-> ->]; auto.
Qed.

(** The index pairs of a double loop are pairwise distinct. *)
Lemma NoDup_list_prod {A B} (l : list A) (k : list B) :
  NoDup l -> NoDup k -> NoDup (list_prod l k).
Proof.
  intros Hl Hk. induction Hl as [|a l Ha Hl IH]; simpl; [constructor|].
  apply NoDup_app; split_and!; [|intros x Hx Hx'|done].
  - clear IH Ha Hl. induction Hk as [|b k Hb Hk IHk]; simpl; constructor; [|done].
    rewrite list_elem_of_In, in_map_iff. intros (b' & [= ->] & Hin).
    by apply Hb, list_elem_of_In.
  - apply list_elem_of_In, in_map_iff in Hx as (b & <- & _).
    apply list_elem_of_In, in_prod_iff in Hx' as [Hin _].
    by apply Ha, list_elem_of_In.
Qed.

Lemma elem_of_list_prod {A B} (l : list A) (k : list B) a b :
  a ∈ l -> b ∈ k -> (a, b) ∈ list_prod l k.
Proof. rewrite !list_elem_of_In. apply in_prod. Qed.

(** ** Re-running a loop with another body *)

Lemma res_mapM_Forall2 {E A B} (f : A -> res E B) l bs :
  Forall2 (fun a b => f a = Ok b) l bs -> res_mapM f l = Ok bs.
Proof. induction 1 as [|a b l bs Hab _ IH]; simpl; [done|]. by rewrite Hab, IH. Qed.

(** A body that agrees with the first on every iteration the first ran
    gives the same results. *)
Lemma res_mapM_ext_Ok {E A B} (f g : A -> res E B) l bs :
  res_mapM f l = Ok bs -> (forall a b, a ∈ l -> f a = Ok b -> g a = Ok b) -> res_mapM g l = Ok bs.
Proof.
  intros H%res_mapM_Ok Hfg. apply res_mapM_Forall2.
  induction H as [|a b l bs Hab _ IH]; constructor.
  - apply Hfg; [apply list_elem_of_here|done].
  - apply IH. intros; apply Hfg; [by apply list_elem_of_further|done].
Qed.

(** The result of an iteration is among the results of the loop. *)
Lemma res_mapM_elem {E A B} (f : A -> res E B) l bs a b :
  res_mapM f l = Ok bs -> a ∈ l -> f a = Ok b -> b ∈ bs.
Proof.
  intros H%res_mapM_Ok Ha Hb. induction H as [|a' b' l bs Hab _ IH]; [by apply elem_of_nil in Ha|].
  apply elem_of_cons in Ha as [->|Ha].
  - rewrite Hb in Hab. injection Hab as ->. apply list_elem_of_here.
  - apply list_elem_of_further, IH, Ha.
Qed.

(** Every result of the loop is the result of one of its iterations. *)
Lemma res_mapM_elem_inv {E A B} (f : A -> res E B) l bs b :
  res_mapM f l = Ok bs -> b ∈ bs -> exists a, a ∈ l /\ f a = Ok b.
Proof.
  intros H%res_mapM_Ok Hb. induction H as [|a b' l bs Hab _ IH]; [by apply elem_of_nil in Hb|].
  apply elem_of_cons in Hb as [->|Hb].
  - exists a. split; [apply list_elem_of_here|done].
  - destruct (IH Hb) as (a' & ? & ?). exists a'. split; [by apply list_elem_of_further|done].
Qed.

Lemma res_foldl_ext {E S A} (f g : S -> A -> res E S) s l :
  (forall s a, a ∈ l -> f s a = g s a) -> res_foldl f s l = res_foldl g s l.
Proof.
  revert s. induction l as [|a l IH]; intros s Hfg; simpl; [done|].
  rewrite Hfg by apply list_elem_of_here. destruct (g s a); simpl; [|done].
  apply IH. intros; apply Hfg; by apply list_elem_of_further.
Qed.

Lemma res_foldl_ext_Ok {E S A} (f g : S -> A -> res E S) s l s' :
  res_foldl f s l = Ok s' -> (forall s a s1, a ∈ l -> f s a = Ok s1 -> g s a = Ok s1) ->
  res_foldl g s l = Ok s'.
Proof.
  revert s. induction l as [|a l IH]; intros s H Hfg; simpl in *; [done|].
  destruct (f s a) as [s1|] eqn:Hf; simpl in H; [|done].
  rewrite (Hfg _ _ _ (list_elem_of_here _ _) Hf). simpl.
  apply IH; [done|]. intros; apply Hfg; [by apply list_elem_of_further|done].
Qed.

(** The value of a successful computation, [None] for an error. *)
Definition res_ok {E A} (m : res E A) : option A :=
  match m with Ok a => Some a | Err _ => None end.

Lemma res_ok_Some {E A} (m : res E A) a : res_ok m = Some a <-> m = Ok a.
Proof. destruct m; simpl; split; congruence. Qed.

Lemma list_elem_of_concat {A} (x : A) (ls : list (list A)) : x ∈ concat ls <-> exists l, l ∈ ls /\ x ∈ l.
Proof.
  rewrite list_elem_of_In, in_concat. split; intros (l & H1 & H2); exists l; rewrite !list_elem_of_In in *; tauto.
Qed.

Lemma res_map_err_Err {E E' A} (f : E -> E') (m : res E A) e :
  res_map_err f m = Err e <-> exists e0, m = Err e0 /\ e = f e0.
Proof. destruct m; simpl; split; [done|by intros (? & ? & ?)|intros [= <-]; eauto|by intros (? & [= ->] & ->)]. Qed.

Lemma res_mapM_err {E A B} (P : E -> Prop) (f : A -> res E B) l e :
  (forall a e, f a = Err e -> P e) -> res_mapM f l = Err e -> P e.
Proof.
  intros Hf. induction l as [|a l IH]; simpl; [done|].
  destruct (f a) eqn:Ha; simpl; [|intros [= <-]; eauto].
  destruct (res_mapM f l); simpl; [done|intros [= <-]; auto].
Qed.

(** Split every failed bind and rewrapped error in the hypotheses into the
    call that threw. *)
Ltac res_err_inv :=
  repeat match goal with
  | H : res_bind _ _ = Err _ |- _ => apply res_bind_Err in H as [H|(? & ? & H)]
  | H : res_map_err _ _ = Err _ |- _ => apply res_map_err_Err in H as (? & ? & H)
  | H : Ok _ = Err _ |- _ => discriminate H
  | H : Err _ = Err _ |- _ => injection H as H
  end; subst.

(** A loop whose body never throws does not throw. *)
Lemma res_foldl_total {E S A} (f : S -> A -> res E S) l :
  (forall s a, exists s', f s a = Ok s') -> forall s, exists s', res_foldl f s l = Ok s'.
Proof. intros Hf. induction l as [|a l IH]; intros s; simpl; [eauto|]. destruct (Hf s a) as [s' ->]. apply IH. Qed.
