(* ===== verification/Operand.v ===== *)
(** * Operand and Operator Registry

    The unit of data of the engine is a [RandomVariable]: one scalar per
    Monte Carlo path (spec §2 "Operand", §4.2).  ORE's [RandomVariable] and its
    operator tables ([getRandomVariableOps], called at xvaenginecg.cpp:247) are
    not under src/; this file models them from the spec.

    Scalars are IEEE-like: a finite value (a rational) or one of the
    sentinels [PosInf], [NegInf], [NaN] (spec §4.2: numeric edge cases give a
    sentinel, never an exception).  Signed zero is not distinguished.

    The registry is the typeclass [OperatorRegistry]: the forward evaluator is
    proved against the class, and [rv_registry] is the instance the engine
    uses. *)

From S2P Require Import Prelude.
From Stdlib Require Import QArith.

(** ** Scalars with sentinels *)

Inductive real : Type :=
  | Fin (q : Q)
  | PosInf
  | NegInf
  | NaN.

(** The sign of a non-zero value: [Some true] positive, [Some false]
    negative, [None] for zero and NaN. *)
Definition rsign (x : real) : option bool :=
  match x with
  | Fin q => if Qeq_bool q 0 then None else Some (Qle_bool 0 q)
  | PosInf => Some true
  | NegInf => Some false
  | NaN => None
  end.

Definition inf_of (pos : bool) : real := if pos then PosInf else NegInf.

Definition radd (x y : real) : real :=
  match x, y with
  | NaN, _ | _, NaN => NaN
  | PosInf, NegInf | NegInf, PosInf => NaN
  | PosInf, _ | _, PosInf => PosInf
  | NegInf, _ | _, NegInf => NegInf
  | Fin a, Fin b => Fin (a + b)
  end.

Definition rneg (x : real) : real :=
  match x with
  | Fin a => Fin (- a)
  | PosInf => NegInf
  | NegInf => PosInf
  | NaN => NaN
  end.

Definition rsub (x y : real) : real := radd x (rneg y).

Definition rmul (x y : real) : real :=
  match x, y with
  | NaN, _ | _, NaN => NaN
  | Fin a, Fin b => Fin (a * b)
  | _, _ =>
      match rsign x, rsign y with
      | Some sx, Some sy => inf_of (Bool.eqb sx sy)
      | _, _ => NaN   (* infinity times zero *)
      end
  end.

Definition rdiv (x y : real) : real :=
  match x, y with
  | NaN, _ | _, NaN => NaN
  | Fin a, Fin b =>
      if Qeq_bool b 0 then
        match rsign x with
        | Some sx => inf_of sx
        | None => NaN   (* 0 / 0 *)
        end
      else Fin (a / b)
  | Fin _, _ => Fin 0
  | _, Fin b =>
      match rsign x, rsign y with
      | Some sx, Some sy => inf_of (Bool.eqb sx sy)
      | Some sx, None => inf_of sx
      | _, _ => NaN
      end
  | _, _ => NaN   (* infinity over infinity *)
  end.

(** IEEE [<]: false as soon as one side is NaN. *)
Definition rlt (x y : real) : bool :=
  match x, y with
  | NaN, _ | _, NaN => false
  | Fin a, Fin b => negb (Qle_bool b a)
  | NegInf, NegInf | PosInf, _ => false
  | NegInf, _ | _, PosInf => true
  | _, NegInf => false
  end.

(** [std::max(a, b)] is [(a < b) ? b : a]; [std::min(a, b)] is
    [(b < a) ? b : a]. *)
Definition rmax (x y : real) : real := if rlt x y then y else x.
Definition rmin (x y : real) : real := if rlt y x then y else x.
Definition rabs (x : real) : real := if rlt x (Fin 0) then rneg x else x.
Definition rindicator_gt (x y : real) : real := if rlt y x then Fin 1 else Fin 0.
Definition rindicator_geq (x y : real) : real :=
  match x, y with
  | NaN, _ | _, NaN => Fin 0
  | _, _ => if rlt x y then Fin 0 else Fin 1
  end.

(** ** Path vectors *)

(** A [RandomVariable] of [n] paths. *)
Definition RandomVariable := list real.

(** [RandomVariable(n, v)]: the same value on every path. *)
Definition rv_const (n : nat) (v : real) : RandomVariable := replicate n v.

(** [RandomVariable::set(path, v)]. *)
Definition rv_set (path : nat) (v : real) (x : RandomVariable) : RandomVariable :=
  <[path := v]> x.

Definition rv_map (f : real -> real) (x : RandomVariable) : RandomVariable := f <$> x.
Definition rv_zip (f : real -> real -> real) (x y : RandomVariable) : RandomVariable :=
  zip_with f x y.

(** ** The operator registry *)

(** The operator kinds of the registry, by their table position. *)
Inductive RandomVariableOpCode : Type :=
  | OpNone | OpAdd | OpSubtract | OpNegative | OpMult | OpDiv
  | OpConditionalExpectation | OpIndicatorEq | OpIndicatorGt | OpIndicatorGeq
  | OpMin | OpMax | OpAbs | OpExp | OpSqrt | OpLog | OpPow
  | OpNormalCdf | OpNormalPdf.

Definition opcode_table : list RandomVariableOpCode :=
  [OpNone; OpAdd; OpSubtract; OpNegative; OpMult; OpDiv;
   OpConditionalExpectation; OpIndicatorEq; OpIndicatorGt; OpIndicatorGeq;
   OpMin; OpMax; OpAbs; OpExp; OpSqrt; OpLog; OpPow; OpNormalCdf; OpNormalPdf].

Definition opId (c : RandomVariableOpCode) : nat :=
  match c with
  | OpNone => 0 | OpAdd => 1 | OpSubtract => 2 | OpNegative => 3 | OpMult => 4
  | OpDiv => 5 | OpConditionalExpectation => 6 | OpIndicatorEq => 7
  | OpIndicatorGt => 8 | OpIndicatorGeq => 9 | OpMin => 10 | OpMax => 11
  | OpAbs => 12 | OpExp => 13 | OpSqrt => 14 | OpLog => 15 | OpPow => 16
  | OpNormalCdf => 17 | OpNormalPdf => 18
  end.

(** What an operator registry promises to the evaluator: a forward function
    per operator id, [None] for an unknown id or a wrong number of inputs. *)
Class OperatorRegistry (T : Type) := op_forward : nat -> list T -> option T.

Definition unary (f : real -> real) (args : list RandomVariable) : option RandomVariable :=
  match args with
  | [x] => Some (rv_map f x)
  | _ => None
  end.

Definition binary (f : real -> real -> real) (args : list RandomVariable)
    : option RandomVariable :=
  match args with
  | [x; y] => Some (rv_zip f x y)
  | _ => None
  end.

(** The elementwise operators.  Regression (conditional expectation),
    [IndicatorEq] (a [close_enough] test) and the transcendental operators
    are outside the model: their id is rejected like an unknown one. *)
Definition rv_op (c : RandomVariableOpCode) : list RandomVariable -> option RandomVariable :=
  match c with
  | OpAdd => binary radd
  | OpSubtract => binary rsub
  | OpNegative => unary rneg
  | OpMult => binary rmul
  | OpDiv => binary rdiv
  | OpIndicatorGt => binary rindicator_gt
  | OpIndicatorGeq => binary rindicator_geq
  | OpMin => binary rmin
  | OpMax => binary rmax
  | OpAbs => unary rabs
  | _ => fun _ => None
  end.

#[export] Instance rv_registry : OperatorRegistry RandomVariable :=
  fun id args =>
    match opcode_table !! id with
    | Some c => rv_op c args
    | None => None
    end.

(** The number of inputs of a modelled operator. *)
Definition op_arity (c : RandomVariableOpCode) : option nat :=
  match c with
  | OpAdd | OpSubtract | OpMult | OpDiv | OpIndicatorGt | OpIndicatorGeq
  | OpMin | OpMax => Some 2%nat
  | OpNegative | OpAbs => Some 1%nat
  | _ => None
  end.
