(* ===== verification/Graph.v ===== *)
(** * Computation Graph

    The shared DAG of the engine (spec §3 "Node", §4.1).  ORE's
    [QuantExt::ComputationGraph] is not under src/; the engine uses it at
    xvaenginecg.cpp:136-191 ([g->size()], [g->setPrefix], [g->variable],
    [g->constants()]), and the model follows spec §4.1 for the rest.

    State: the node arena [nodes] (operator id and predecessor indices), the
    incremental last-use table [maxNodeRequiringArg] read by the forward
    evaluator, the deduplicated constant pool [constants], the label table
    [variables] and the label [prefix].  Every operation is append-only.

    The invariant [wf] says that the arena is topologically ordered (every
    predecessor index is smaller than the node), that the last-use table is
    the greatest consumer of each node, and that constants and labels point
    into the arena.  [api_step] is the step relation of the graph API and
    [reachable] the graphs it builds from the empty one. *)

From S2P Require Import Prelude Operand.
From Stdlib Require Import QArith.
Local Open Scope nat_scope.

Module ComputationGraph.

Record node : Type := mk_node {
  op : nat;
  predecessors : list nat;
}.

Record graph : Type := mk_graph {
  nodes : list node;
  maxNodeRequiringArg : list (option nat);
  constants : list (Q * nat);
  variables : gmap string nat;
  prefix : string;
}.

Inductive graph_error : Type :=
  | IndexOrderViolation (new_node arg : nat)
  | DuplicateLabel (label : string)
  | NotFound (label : string)
  | NodeOutOfRange (n : nat).

Definition size (g : graph) : nat := length (nodes g).

Definition empty_graph : graph := mk_graph [] [] [] ∅ "".

(** [setPrefix]: affects labels created or looked up afterwards. *)
Definition setPrefix (p : string) (g : graph) : graph :=
  mk_graph (nodes g) (maxNodeRequiringArg g) (constants g) (variables g) p.

(** Append a node whose predecessors are already checked. *)
Definition append_node (preds : list nat) (o : nat) (g : graph) : graph :=
  let n := size g in
  mk_graph (nodes g ++ [mk_node o preds])
           (foldl (fun acc p => <[p := Some n]> acc) (maxNodeRequiringArg g) preds ++ [None])
           (constants g) (variables g) (prefix g).

(** [insert(predecessors, opId)]: the new node gets index [size g]; a
    predecessor that is not strictly smaller is a construction fault. *)
Definition insert (preds : list nat) (o : nat) (g : graph) : res graph_error (nat * graph) :=
  match list_find (fun p => size g <= p) preds with
  | Some (_, p) => Err (IndexOrderViolation (size g) p)
  | None => Ok (size g, append_node preds o g)
  end.

Fixpoint find_constant (c : Q) (cs : list (Q * nat)) : option nat :=
  match cs with
  | [] => None
  | (c', n) :: cs' => if Qeq_bool c c' then Some n else find_constant c cs'
  end.

(** [constant(c)]: the node of an equal literal, or a new input node. *)
Definition constant (c : Q) (g : graph) : nat * graph :=
  match find_constant c (constants g) with
  | Some n => (n, g)
  | None =>
      let g' := append_node [] (opId OpNone) g in
      (size g, mk_graph (nodes g') (maxNodeRequiringArg g')
                        (constants g ++ [(c, size g)]) (variables g') (prefix g'))
  end.

Definition label (name : string) (g : graph) : string := prefix g +:+ name.

(** [setVariable(name, node)]: label a node under the current prefix. *)
Definition setVariable (name : string) (n : nat) (g : graph) : res graph_error graph :=
  if decide (size g <= n) then Err (NodeOutOfRange n)
  else match variables g !! label name g with
       | Some _ => Err (DuplicateLabel (label name g))
       | None => Ok (mk_graph (nodes g) (maxNodeRequiringArg g) (constants g)
                              (<[label name g := n]> (variables g)) (prefix g))
       end.

(** [variable(name)]: look a label up under the current prefix. *)
Definition variable (name : string) (g : graph) : res graph_error nat :=
  of_option (variables g !! label name g) (NotFound (label name g)).

(** ** The reference definition of the last-use table *)

(** The greatest index [i] (counted from [base]) of a node of [ns] that
    has [p] among its predecessors. *)
Fixpoint last_use_from (base p : nat) (ns : list node) : option nat :=
  match ns with
  | [] => None
  | nd :: ns' =>
      match last_use_from (S base) p ns' with
      | Some k => Some k
      | None => if decide (p ∈ predecessors nd) then Some base else None
      end
  end.

Definition last_use (g : graph) (p : nat) : option nat := last_use_from 0 p (nodes g).

(** ** The invariant *)

Definition topological (ns : list node) : Prop :=
  forall i nd p, ns !! i = Some nd -> p ∈ predecessors nd -> p < i.

Record wf (g : graph) : Prop := {
  wf_topo : topological (nodes g);
  wf_maxreq_len : length (maxNodeRequiringArg g) = size g;
  wf_maxreq : forall p, p < size g -> maxNodeRequiringArg g !! p = Some (last_use g p);
  wf_constants : forall c n, (c, n) ∈ constants g ->
      n < size g /\ predecessors <$> (nodes g !! n) = Some [];
  wf_variables : forall k n, variables g !! k = Some n -> n < size g;
}.

(** The invariant as an executable check. *)
Fixpoint topob_from (i : nat) (ns : list node) : bool :=
  match ns with
  | [] => true
  | nd :: ns' => forallb (fun p => p <? i) (predecessors nd) && topob_from (S i) ns'
  end.

Definition wfb (g : graph) : bool :=
  topob_from 0 (nodes g) &&
  (length (maxNodeRequiringArg g) =? size g) &&
  forallb (fun p => bool_decide (maxNodeRequiringArg g !! p = Some (last_use g p))) (seq 0 (size g)) &&
  forallb (fun cn => (cn.2 <? size g) && bool_decide (predecessors <$> (nodes g !! cn.2) = Some []))
          (constants g) &&
  bool_decide (map_Forall (fun _ n => n < size g) (variables g)).

(** ** The step relation of the graph API *)

Inductive api_step : graph -> graph -> Prop :=
  | step_insert g preds o n g' :
      insert preds o g = Ok (n, g') -> api_step g g'
  | step_constant g c n g' :
      constant c g = (n, g') -> api_step g g'
  | step_setVariable g name n g' :
      setVariable name n g = Ok g' -> api_step g g'
  | step_setPrefix g p :
      api_step g (setPrefix p g).

Definition reachable (g : graph) : Prop := rtc api_step empty_graph g.

(** A graph [g'] extends [g]: the arena only grew at its end, constants
    and labels were only added. *)
Record extends (g g' : graph) : Prop := {
  ext_nodes : nodes g `prefix_of` nodes g';
  ext_constants : constants g `prefix_of` constants g';
  ext_variables : variables g ⊆ variables g';
}.

(** ** Lemmas *)

Lemma last_use_from_app base p ns nd :
  last_use_from base p (ns ++ [nd]) =
  if decide (p ∈ predecessors nd) then Some (base + length ns) else last_use_from base p ns.
Proof.
  revert base. induction ns as [|nd' ns IH]; intros base; simpl.
  - rewrite Nat.add_0_r. by destruct (decide _).
  - rewrite IH. replace (S base + length ns) with (base + S (length ns)) by lia.
    destruct (decide (p ∈ predecessors nd)); [done|].
    by destruct (last_use_from (S base) p ns).
Qed.

Lemma last_use_from_ge base p ns k : last_use_from base p ns = Some k -> base <= k.
Proof.
  revert base. induction ns as [|nd ns IH]; intros base H; simpl in H; [done|].
  destruct (last_use_from (S base) p ns) eqn:E.
  - injection H as <-. apply IH in E. lia.
  - destruct (decide _); [by injection H as <-|done].
Qed.

(** Every consumer of [p] is at or before its last use. *)
Lemma last_use_from_consumer base p ns j nd :
  ns !! j = Some nd -> p ∈ predecessors nd ->
  exists k, last_use_from base p ns = Some k /\ base + j <= k.
Proof.
  revert base j. induction ns as [|nd' ns IH]; intros base j Hj Hin; [by rewrite lookup_nil in Hj|].
  simpl. destruct j as [|j]; simpl in Hj.
  - injection Hj as ->. destruct (last_use_from (S base) p ns) as [k|] eqn:E.
    + apply last_use_from_ge in E. eexists; split; [done|lia].
    + rewrite decide_True by done. eexists; split; [done|lia].
  - destruct (IH (S base) j Hj Hin) as (k & -> & Hk). eexists; split; [done|lia].
Qed.

(** The last use is a consumer. *)
Lemma last_use_from_some base p ns k :
  last_use_from base p ns = Some k ->
  exists nd, ns !! (k - base) = Some nd /\ p ∈ predecessors nd /\ base <= k.
Proof.
  revert base. induction ns as [|nd ns IH]; intros base H; simpl in H; [done|].
  destruct (last_use_from (S base) p ns) as [k'|] eqn:E.
  - injection H as <-. destruct (IH _ E) as (nd' & Hl & Hin & Hle).
    exists nd'. replace (k' - base) with (S (k' - S base)) by lia. eauto with lia.
  - destruct (decide _); [injection H as <-|done].
    rewrite Nat.sub_diag. eauto.
Qed.

Lemma last_use_from_none base p ns :
  (forall j nd, ns !! j = Some nd -> p ∉ predecessors nd) ->
  last_use_from base p ns = None.
Proof.
  intros H. destruct (last_use_from base p ns) as [k|] eqn:E; [|done].
  destruct (last_use_from_some _ _ _ _ E) as (nd & Hl & Hin & _).
  by destruct (H _ _ Hl Hin).
Qed.

Lemma lookup_foldl_insert_in {A} (x : A) (preds : list nat) (m : list A) p :
  p ∈ preds -> p < length m ->
  foldl (fun acc q => <[q := x]> acc) m preds !! p = Some x.
Proof.
  revert m. induction preds as [|q preds IH]; intros m Hin Hlt; [by apply elem_of_nil in Hin|].
  simpl. destruct (decide (p ∈ preds)) as [Hp|Hp].
  - apply IH; [done|by rewrite length_insert].
  - apply elem_of_cons in Hin as [->|]; [|done].
    rewrite lookup_foldl_insert_notin by done.
    by apply list_lookup_insert_eq.
Qed.

Lemma length_foldl_insert_const {A} (x : A) (preds : list nat) (m : list A) :
  length (foldl (fun acc q => <[q := x]> acc) m preds) = length m.
Proof. exact (length_foldl_insert (fun q => (q, x)) preds m). Qed.

Lemma size_append_node preds o g : size (append_node preds o g) = S (size g).
Proof. unfold size, append_node; simpl. rewrite length_app. simpl. lia. Qed.

Lemma nodes_lookup_old g preds o i :
  i < size g -> nodes (append_node preds o g) !! i = nodes g !! i.
Proof. intros. by apply lookup_app_l. Qed.

Lemma nodes_lookup_new g preds o :
  nodes (append_node preds o g) !! size g = Some (mk_node o preds).
Proof. unfold append_node, size; simpl. by rewrite lookup_app_r, Nat.sub_diag. Qed.

(** Appending a node whose predecessors are all older keeps the invariant. *)
Lemma append_node_wf g preds o :
  wf g -> Forall (fun p => p < size g) preds -> wf (append_node preds o g).
Proof.
  intros [Htopo Hlen Hmax Hcst Hvar] Hpreds. rewrite Forall_forall in Hpreds.
  pose proof (size_append_node preds o g) as Hsz.
  assert (Hnew : forall i nd, nodes (append_node preds o g) !! i = Some nd ->
            i = size g /\ nd = mk_node o preds \/ i < size g /\ nodes g !! i = Some nd).
  { intros i nd Hi. destruct (decide (i < size g)).
    - right. by rewrite nodes_lookup_old in Hi.
    - left. pose proof (lookup_lt_Some _ _ _ Hi) as Hl.
      change (length (nodes (append_node preds o g))) with (size (append_node preds o g)) in Hl.
      rewrite Hsz in Hl. assert (i = size g) as -> by lia. rewrite nodes_lookup_new in Hi. by injection Hi. }
  split.
  - intros i nd p Hi Hp. destruct (Hnew i nd Hi) as [[-> ->]|[? Hold]]; [by apply Hpreds|].
    eapply Htopo; eauto.
  - simpl. rewrite length_app, length_foldl_insert_const, Hlen. simpl. fold (size (append_node preds o g)). lia.
  - intros p Hp. rewrite Hsz in Hp. unfold last_use, append_node; simpl.
    rewrite last_use_from_app. simpl. fold (size g).
    destruct (decide (p < size g)) as [Hlt|Hge].
    + rewrite lookup_app_l by (rewrite length_foldl_insert_const; lia).
      destruct (decide (p ∈ preds)) as [Hin|Hin].
      * rewrite lookup_foldl_insert_in by (done || lia). done.
      * rewrite lookup_foldl_insert_notin by done. by apply Hmax.
    + assert (p = size g) as -> by lia.
      rewrite lookup_app_r by (rewrite length_foldl_insert_const; lia).
      rewrite length_foldl_insert_const, Hlen, Nat.sub_diag. simpl.
      rewrite decide_False by (intros Hin; specialize (Hpreds _ Hin); lia).
      f_equal. symmetry. apply last_use_from_none. intros j nd Hj Hin.
      pose proof (Htopo _ _ _ Hj Hin). pose proof (lookup_lt_Some _ _ _ Hj). unfold size in *; lia.
  - intros c n Hc. destruct (Hcst c n Hc) as [Hn Hleaf]. rewrite Hsz. split; [lia|].
    by rewrite nodes_lookup_old.
  - intros k n Hk. rewrite Hsz. specialize (Hvar k n Hk). lia.
Qed.

Lemma insert_Ok preds o g n g' :
  insert preds o g = Ok (n, g') ->
  n = size g /\ g' = append_node preds o g /\ Forall (fun p => p < size g) preds.
Proof.
  unfold insert. destruct (list_find _ preds) as [[? ?]|] eqn:E; [done|].
  intros [= <- <-]. repeat split. apply Forall_forall. intros p Hp.
  apply list_find_None in E. rewrite Forall_forall in E. specialize (E p Hp). lia.
Qed.

Lemma insert_wf preds o g n g' : wf g -> insert preds o g = Ok (n, g') -> wf g'.
Proof. intros Hwf (-> & -> & Hp)%insert_Ok. by apply append_node_wf. Qed.

Lemma constant_wf c g n g' : wf g -> constant c g = (n, g') -> wf g'.
Proof.
  intros Hwf. unfold constant. destruct (find_constant c (constants g)); [by intros [= <- <-]|].
  intros [= <- <-]. pose proof (append_node_wf g [] (opId OpNone) Hwf (Forall_nil_2 _)) as [? ? ? Hc ?].
  split; simpl; try done.
  intros c' n' Hin. apply elem_of_app in Hin as [Hin|Hin]; [by eapply Hc|].
  apply list_elem_of_singleton in Hin as [= -> ->].
  split; [unfold size, append_node; simpl; rewrite length_app; simpl; lia|].
  cbn [nodes]. unfold size. rewrite lookup_app_r, Nat.sub_diag by lia. done.
Qed.

Lemma setVariable_wf name n g g' : wf g -> setVariable name n g = Ok g' -> wf g'.
Proof.
  intros [? ? ? ? Hvar]. unfold setVariable.
  destruct (decide (size g <= n)); [done|]. destruct (_ !! _); [done|].
  intros [= <-]. split; try done. simpl.
  intros k m Hk. apply lookup_insert_Some in Hk as [[_ <-]|[_ Hk]]; [unfold size in *; simpl; lia|eauto].
Qed.

Lemma api_step_wf g g' : api_step g g' -> wf g -> wf g'.
Proof.
  destruct 1; intros Hwf.
  - eauto using insert_wf.
  - eauto using constant_wf.
  - eauto using setVariable_wf.
  - destruct Hwf; by split.
Qed.

Lemma empty_graph_wf : wf empty_graph.
Proof.
  split.
  - intros i nd p Hi. simpl in Hi. by rewrite lookup_nil in Hi.
  - done.
  - intros p Hp. unfold size in Hp. simpl in Hp. lia.
  - intros c n Hc. by apply elem_of_nil in Hc.
  - intros k n Hk. simpl in Hk. by rewrite lookup_empty in Hk.
Qed.

#[export] Instance extends_preorder : PreOrder extends.
Proof.
  split.
  - intros g. split; [done|done|done].
  - intros g1 g2 g3 [? ? ?] [? ? ?]. split; etrans; eauto.
Qed.

Lemma api_step_extends g g' : api_step g g' -> extends g g'.
Proof.
  destruct 1 as [g preds o n g' H|g c n g' H|g name n g' H|g p].
  - apply insert_Ok in H as (_ & -> & _). split; simpl; [by eexists|done|done].
  - revert H. unfold constant. destruct (find_constant c (constants g)); [by intros [= _ <-]|].
    intros [= _ <-]. split; simpl; [by eexists|by eexists|done].
  - revert H. unfold setVariable. destruct (decide _); [done|].
    destruct (variables g !! _) eqn:E; [done|]. intros [= <-].
    split; simpl; [done|done|]. by apply insert_subseteq.
  - by split.
Qed.

Lemma rtc_api_step_extends g g' : rtc api_step g g' -> extends g g'.
Proof. induction 1; [reflexivity|]. etrans; eauto using api_step_extends. Qed.

Lemma find_constant_app_None c c' cs n :
  find_constant c cs = None -> Qeq_bool c c' = true -> find_constant c' (cs ++ [(c, n)]) = Some n.
Proof.
  intros Hn Heq. induction cs as [|[c0 n0] cs IH]; simpl in *.
  - by rewrite Qeq_bool_comm, Heq.
  - destruct (Qeq_bool c c0) eqn:E0; [done|].
    destruct (Qeq_bool c' c0) eqn:E1; [|by apply IH].
    apply Qeq_bool_iff in Heq, E1. apply Qeq_bool_neq in E0. exfalso. apply E0.
    by rewrite Heq.
Qed.

Lemma find_constant_Qeq c c' cs :
  Qeq_bool c c' = true -> find_constant c cs = find_constant c' cs.
Proof.
  intros Heq. apply Qeq_bool_iff in Heq. induction cs as [|[c0 n0] cs IH]; simpl; [done|].
  rewrite IH. destruct (Qeq_bool c c0) eqn:E0, (Qeq_bool c' c0) eqn:E1; try done.
  - apply Qeq_bool_iff in E0. apply Qeq_bool_neq in E1. exfalso. apply E1. by rewrite <- Heq.
  - apply Qeq_bool_iff in E1. apply Qeq_bool_neq in E0. exfalso. apply E0. by rewrite Heq.
Qed.
Lemma rtc_api_step_wf g g' : rtc api_step g g' -> wf g -> wf g'.
Proof. induction 1; eauto using api_step_wf. Qed.

(** ** Properties of the graph API *)

(** Every graph built from the empty graph through the API
    ([insert], [constant], [setVariable], [setPrefix]) satisfies the
    invariant: it is topologically ordered (each predecessor index is
    strictly below its node), its last-use table gives the greatest consumer
    of every node, and its constants and labels point into the arena. *)
Theorem reachable_wf (g : graph) : reachable g -> wf g.
Proof. intros H. exact (rtc_api_step_wf _ _ H empty_graph_wf). Qed.

(** [insert] on every branch: it returns index [size g] and the
    graph with the new node appended, or, when a predecessor is not below
    the new index, fails with [IndexOrderViolation] naming it. *)
Theorem insert_result (preds : list nat) (o : nat) (g : graph) :
  match insert preds o g with
  | Ok (n, g') => n = size g /\ nodes g' = nodes g ++ [mk_node o preds] /\
                  Forall (fun p => p < size g) preds
  | Err e => exists p, p ∈ preds /\ size g <= p /\ e = IndexOrderViolation (size g) p
  end.
Proof.
  destruct (insert preds o g) as [[n g']|e] eqn:E.
  - apply insert_Ok in E as (-> & -> & ?). done.
  - revert E. unfold insert. destruct (list_find _ preds) as [[j p]|] eqn:F; [|done].
    intros [= <-]. apply list_find_Some in F as (Hj & Hle & _).
    exists p. split; [by eapply list_elem_of_lookup_2|done].
Qed.

(** Constants are deduplicated: asking again for a value equal to one
    already in the pool returns the same node and leaves the graph
    unchanged. *)
Theorem constant_dedup (c c' : Q) (g : graph) (n : nat) (g' : graph) :
  constant c g = (n, g') -> Qeq_bool c c' = true -> constant c' g' = (n, g').
Proof.
  unfold constant. intros Hc Heq.
  destruct (find_constant c (constants g)) as [m|] eqn:F.
  - injection Hc as <- <-. by rewrite <- (find_constant_Qeq c c'), F.
  - injection Hc as <- <-. simpl. by rewrite (find_constant_app_None c c').
Qed.

(** Labels round-trip: after [setVariable name n] succeeds, looking
    [name] up under the same prefix gives [n], and every other name is looked
    up as before. *)
Theorem variable_setVariable (name : string) (n : nat) (g g' : graph) :
  setVariable name n g = Ok g' ->
  variable name g' = Ok n /\
  forall name', name' <> name -> variable name' g' = variable name' g.
Proof.
  unfold setVariable, variable, label. destruct (decide _); [done|].
  destruct (variables g !! _); [done|]. intros [= <-]; simpl.
  split; [by rewrite lookup_insert_eq|].
  intros name' Hne. rewrite lookup_insert_ne; [done|].
  intros Heq. apply Hne. by apply (inj (String.append (prefix g))).
Qed.

Lemma topob_from_spec i ns :
  topob_from i ns = true -> forall j nd p, ns !! j = Some nd -> p ∈ predecessors nd -> p < i + j.
Proof.
  revert i. induction ns as [|nd ns IH]; intros i H j nd' p Hj Hp; [by rewrite lookup_nil in Hj|].
  simpl in H. apply andb_true_iff in H as [Hnd Hns]. destruct j as [|j]; simpl in Hj.
  - injection Hj as <-. rewrite forallb_forall in Hnd.
    apply list_elem_of_In in Hp. specialize (Hnd p Hp). apply Nat.ltb_lt in Hnd. lia.
  - specialize (IH (S i) Hns j nd' p Hj Hp). lia.
Qed.

Lemma wfb_sound g : wfb g = true -> wf g.
Proof.
  unfold wfb. intros H. repeat apply andb_true_iff in H as [H ?].
  split.
  - intros i nd p Hi Hp. exact (topob_from_spec 0 _ H i nd p Hi Hp).
  - by apply Nat.eqb_eq.
  - intros p Hp. match goal with Hf : forallb _ (seq 0 _) = true |- _ => rewrite forallb_forall in Hf end.
    eapply bool_decide_eq_true_1, H2. apply in_seq. lia.
  - intros c n Hc. match goal with Hf : forallb _ (constants g) = true |- _ => rewrite forallb_forall in Hf end.
    apply list_elem_of_In in Hc. specialize (H1 _ Hc). simpl in H1.
    apply andb_true_iff in H1 as [Hlt Hleaf]. split; [by apply Nat.ltb_lt|].
    by apply bool_decide_eq_true_1 in Hleaf.
  - intros k n Hk. match goal with Hv : bool_decide _ = true |- _ => apply bool_decide_eq_true_1 in Hv end.
    exact (H0 k n Hk).
Qed.

End ComputationGraph.
