(* ===== verification/ForwardEval.v ===== *)
(** * Forward Evaluator

    [forwardEvaluation] (spec §4.4; called at xvaenginecg.cpp:251 with the
    deleter [RandomVariable::deleter], [keepValuesForDerivatives = false] and
    the keep flags [keepNodes]).  QuantExt's forwardevaluation.hpp is not under
    src/; the model follows spec §4.4.

    The value store is a [list (option T)], one slot per node: [None] is a
    value never bound or already released by the deleter.  Nodes are visited
    in index order; a node without predecessors is an input whose value is
    already in the store; any other node reads its predecessors' values
    (failing with [UnboundInput] on an empty slot), applies the registry's
    forward function and stores the result.  With a deleter, each predecessor
    whose last consumer ([maxNodeRequiringArg]) is the current node and whose
    keep flag is unset is then released.

    [forward_reference] is the same walk without the deleter.  The main
    theorem [forwardEvaluation_refines] is a simulation: with release on, the
    run fails exactly when the reference fails, with the same error, and
    otherwise every slot holds the reference value or was released, and
    every kept slot holds the reference value. *)

From S2P Require Import Prelude Operand Graph.
From Stdlib Require Import QArith.
Import ComputationGraph.
Local Open Scope nat_scope.

Section ForwardEvaluation.
Context {T : Type} {reg : OperatorRegistry T}.

Inductive eval_error : Type :=
  | UnboundInput (node arg : nat)
  | OpFailure (node opid : nat).

(** Collect the values of the predecessors [ps] of node [node]. *)
Fixpoint gather (node : nat) (vals : list (option T)) (ps : list nat) : res eval_error (list T) :=
  match ps with
  | [] => Ok []
  | p :: ps' =>
      match mjoin (vals !! p) with
      | Some x => let! xs := gather node vals ps' in Ok (x :: xs)
      | None => Err (UnboundInput node p)
      end
  end.

Definition keep_flag (keep : list bool) (p : nat) : bool := default false (keep !! p).

Definition last_required (g : graph) (p : nat) : option nat := mjoin (maxNodeRequiringArg g !! p).

(** Release predecessor [p] after node [node] ran, unless it is kept or
    still needed by a later node. *)
Definition release (g : graph) (keep : list bool) (node : nat)
    (vals : list (option T)) (p : nat) : list (option T) :=
  match last_required g p with
  | Some m => if negb (keep_flag keep p) && (m <=? node) then <[p := None]> vals else vals
  | None => vals
  end.

Definition eval_node (g : graph) (deleter : bool) (keep : list bool) (node : nat)
    (nd : ComputationGraph.node) (vals : list (option T)) : res eval_error (list (option T)) :=
  match predecessors nd with
  | [] => Ok vals
  | ps =>
      let! args := gather node vals ps in
      let! x := of_option (op_forward (op nd) args) (OpFailure node (op nd)) in
      let vals' := <[node := Some x]> vals in
      Ok (if deleter then foldl (release g keep node) vals' ps else vals')
  end.

Fixpoint eval_from (g : graph) (deleter : bool) (keep : list bool) (node : nat)
    (ns : list ComputationGraph.node) (vals : list (option T)) : res eval_error (list (option T)) :=
  match ns with
  | [] => Ok vals
  | nd :: ns' =>
      let! vals' := eval_node g deleter keep node nd vals in
      eval_from g deleter keep (S node) ns' vals'
  end.

Definition forwardEvaluation (g : graph) (vals : list (option T)) (deleter : bool)
    (keepNodes : list bool) : res eval_error (list (option T)) :=
  eval_from g deleter keepNodes 0 (nodes g) vals.

Definition forward_reference (g : graph) (vals : list (option T)) : res eval_error (list (option T)) :=
  eval_from g false [] 0 (nodes g) vals.

(** The simulation invariant after nodes [0 .. i-1] ran: each slot of the
    run with release holds the reference value, or was released, is not
    kept, and its last consumer is before [i]. *)
Definition agree (g : graph) (keep : list bool) (i : nat) (v r : list (option T)) : Prop :=
  length v = length r /\
  forall p, v !! p = r !! p \/
    (v !! p = Some None /\ keep_flag keep p = false /\
     exists m, last_required g p = Some m /\ m < i).

(** After nodes [0 .. i-1] ran, every slot that is not kept and whose last
    consumer is before [i] has been released. *)
Definition released_upto (g : graph) (keep : list bool) (i : nat) (v : list (option T)) : Prop :=
  forall p m, p < length v -> keep_flag keep p = false -> last_required g p = Some m ->
  m < i -> v !! p = Some None.

(** ** Simulation lemmas *)

Lemma agree_refl g keep i (r : list (option T)) : agree g keep i r r.
Proof. split; [done|]. intros p. by left. Qed.

Lemma agree_mono g keep i j (v r : list (option T)) :
  i <= j -> agree g keep i v r -> agree g keep j v r.
Proof.
  intros Hij [Hlen H]. split; [done|]. intros p.
  destruct (H p) as [?|(? & ? & m & ? & ?)]; [by left|right].
  split_and!; [done|done|]. exists m. split; [done|lia].
Qed.

(** The last consumer recorded for a predecessor of node [i] is at or
    after [i]. *)
Lemma last_required_consumer g i nd p :
  wf g -> nodes g !! i = Some nd -> p ∈ predecessors nd ->
  exists m, last_required g p = Some m /\ i <= m.
Proof.
  intros Hwf Hi Hp.
  assert (p < size g).
  { pose proof (wf_topo g Hwf i nd p Hi Hp). pose proof (lookup_lt_Some _ _ _ Hi).
    unfold size; lia. }
  unfold last_required. rewrite (wf_maxreq g Hwf p) by done. simpl.
  destruct (last_use_from_consumer 0 p (nodes g) i nd Hi Hp) as (k & Hk & Hle).
  exists k. unfold last_use. by rewrite Hk.
Qed.

(** Under the invariant, node [i] reads the reference values. *)
Lemma agree_read g keep i nd (v r : list (option T)) p :
  wf g -> nodes g !! i = Some nd -> p ∈ predecessors nd ->
  agree g keep i v r -> v !! p = r !! p.
Proof.
  intros Hwf Hi Hp [_ Hag]. destruct (Hag p) as [?|(_ & _ & m & Hm & Hlt)]; [done|].
  destruct (last_required_consumer g i nd p Hwf Hi Hp) as (m' & Hm' & Hle).
  rewrite Hm in Hm'. injection Hm' as ->. lia.
Qed.

Lemma gather_ext node (v r : list (option T)) ps :
  (forall p, p ∈ ps -> v !! p = r !! p) -> gather node v ps = gather node r ps.
Proof.
  induction ps as [|p ps IH]; intros H; simpl; [done|].
  rewrite H by by left. rewrite IH by (intros; apply H; by right). done.
Qed.

Lemma agree_write g keep i j x (v r : list (option T)) :
  agree g keep i v r -> agree g keep i (<[j := x]> v) (<[j := x]> r).
Proof.
  intros [Hlen H]. split; [by rewrite !length_insert|]. intros p.
  destruct (decide (j = p)) as [<-|Hne].
  - destruct (decide (j < length v)).
    + left. rewrite !list_lookup_insert_eq; [done|lia|lia].
    + rewrite !list_insert_ge by lia. apply H.
  - rewrite !list_lookup_insert_ne by done. apply H.
Qed.

(** Releasing the predecessors of node [i] moves the invariant to [i+1]. *)
Lemma agree_release g keep i ps (v r : list (option T)) :
  agree g keep i v r -> agree g keep (S i) (foldl (release g keep i) v ps) r.
Proof.
  intros H. apply foldl_invariant; [|by eapply agree_mono; [|done]; lia].
  intros v' p _ [Hlen Hag]. unfold release.
  destruct (last_required g p) as [m|] eqn:Hm; [|done].
  destruct (negb (keep_flag keep p) && (m <=? i)) eqn:Hc; [|done].
  apply andb_true_iff in Hc as [Hk Hle]. apply negb_true_iff in Hk. apply Nat.leb_le in Hle.
  split; [by rewrite length_insert|]. intros q.
  destruct (decide (p = q)) as [<-|Hne].
  - destruct (decide (p < length v')).
    + right. rewrite list_lookup_insert_eq by done. split_and!; [done|done|].
      exists m. split; [done|lia].
    + rewrite list_insert_ge by lia. apply Hag.
  - rewrite list_lookup_insert_ne by done. apply Hag.
Qed.

(** One node of both runs keeps the invariant, or both fail alike. *)
Lemma eval_node_agree g keep i nd (v r : list (option T)) :
  wf g -> nodes g !! i = Some nd -> agree g keep i v r ->
  match eval_node g false [] i nd r, eval_node g true keep i nd v with
  | Ok r', Ok v' => agree g keep (S i) v' r'
  | Err e, Err e' => e = e'
  | _, _ => False
  end.
Proof.
  intros Hwf Hi Hag. unfold eval_node.
  destruct (predecessors nd) as [|p0 ps0] eqn:Hps; [by eapply agree_mono; [|done]; lia|].
  rewrite (gather_ext i v r) by (intros p Hp; eapply agree_read; eauto; by rewrite Hps).
  destruct (gather i r (p0 :: ps0)) as [args|e]; cbn [res_bind]; [|done].
  destruct (op_forward (op nd) args) as [x|]; cbn [res_bind of_option]; [|done].
  apply (agree_release g keep i (p0 :: ps0)). by apply agree_write.
Qed.

Lemma eval_from_agree g keep i ns (v r : list (option T)) :
  wf g -> (forall j nd, ns !! j = Some nd -> nodes g !! (i + j) = Some nd) ->
  agree g keep i v r ->
  match eval_from g false [] i ns r, eval_from g true keep i ns v with
  | Ok r', Ok v' => agree g keep (i + length ns) v' r'
  | Err e, Err e' => e = e'
  | _, _ => False
  end.
Proof.
  revert i v r. induction ns as [|nd ns IH]; intros i v r Hwf Hns Hag; simpl.
  - by rewrite Nat.add_0_r.
  - assert (Hi : nodes g !! i = Some nd) by (rewrite <- (Nat.add_0_r i); by apply Hns).
    pose proof (eval_node_agree g keep i nd v r Hwf Hi Hag) as Hn.
    destruct (eval_node g false [] i nd r) as [r'|e], (eval_node g true keep i nd v) as [v'|e'];
      simpl; try done.
    replace (i + S (length ns)) with (S i + length ns) by lia.
    apply IH; [done| |done]. intros j nd' Hj.
    replace (S i + j) with (i + S j) by lia. by apply (Hns (S j)).
Qed.

Lemma forwardEvaluation_agree g keep (vals : list (option T)) :
  wf g ->
  match forward_reference g vals, forwardEvaluation g vals true keep with
  | Ok r, Ok v => agree g keep (size g) v r
  | Err e, Err e' => e = e'
  | _, _ => False
  end.
Proof.
  intros Hwf. apply (eval_from_agree g keep 0 (nodes g) vals vals Hwf); [done|].
  apply agree_refl.
Qed.

(** ** The evaluator's contract *)

(** Node reclamation is safe: on a well-formed graph the evaluator with
    the deleter fails exactly when the evaluation without release fails, with
    the same error (release never causes an [UnboundInput]); when both
    succeed, every node flagged in [keepNodes] holds the reference value and
    every other slot holds the reference value or was released. *)
Theorem forwardEvaluation_refines (g : graph) (keep : list bool) (vals : list (option T)) :
  wf g ->
  match forward_reference g vals, forwardEvaluation g vals true keep with
  | Ok r, Ok v =>
      length v = length r /\
      (forall p, keep_flag keep p = true -> v !! p = r !! p) /\
      (forall p, v !! p = r !! p \/ v !! p = Some None)
  | Err e, Err e' => e = e'
  | _, _ => False
  end.
Proof.
  intros Hwf. pose proof (forwardEvaluation_agree g keep vals Hwf) as H.
  destruct (forward_reference g vals) as [r|e], (forwardEvaluation g vals true keep) as [v|e'];
    try done.
  destruct H as [Hlen Hag]. split_and!; [done| |].
  - intros p Hk. destruct (Hag p) as [?|(_ & Hk' & _)]; [done|congruence].
  - intros p. destruct (Hag p) as [?|(? & _)]; auto.
Qed.

(** ** Completeness of the release *)

Lemma length_release_foldl g keep i ps (v : list (option T)) :
  length (foldl (release g keep i) v ps) = length v.
Proof.
  revert v. induction ps as [|p ps IH]; intros v; simpl; [done|].
  rewrite IH. unfold release. destruct (last_required g p); [|done].
  by destruct (_ && _); [rewrite length_insert|].
Qed.

Lemma release_keeps_none g keep i (v : list (option T)) p q :
  v !! q = Some None -> release g keep i v p !! q = Some None.
Proof.
  intros Hq. unfold release. destruct (last_required g p); [|done].
  destruct (_ && _); [|done]. destruct (decide (p = q)) as [<-|].
  - by rewrite list_lookup_insert_eq by (eapply lookup_lt_Some; eauto).
  - by rewrite list_lookup_insert_ne.
Qed.

Lemma release_foldl_keeps_none g keep i ps (v : list (option T)) q :
  v !! q = Some None -> foldl (release g keep i) v ps !! q = Some None.
Proof.
  intros Hq. apply (foldl_invariant (fun w => w !! q = Some None)); [|done].
  intros; by apply release_keeps_none.
Qed.

Lemma release_foldl_frees g keep i ps (v : list (option T)) p m :
  p ∈ ps -> p < length v -> keep_flag keep p = false -> last_required g p = Some m -> m <= i ->
  foldl (release g keep i) v ps !! p = Some None.
Proof.
  revert v. induction ps as [|q ps IH]; intros v Hin Hlt Hk Hm Hle; [by apply elem_of_nil in Hin|].
  simpl. apply elem_of_cons in Hin as [<-|Hin].
  - apply release_foldl_keeps_none. unfold release. rewrite Hm, Hk.
    replace (m <=? i) with true by (symmetry; by apply Nat.leb_le).
    by apply list_lookup_insert_eq.
  - apply IH; try done. unfold release. destruct (last_required g q); [|done].
    by destruct (_ && _); [rewrite length_insert|].
Qed.

(** The last consumer of a node is a node that reads it. *)
Lemma last_required_some g p m :
  wf g -> p < size g -> last_required g p = Some m ->
  exists nd, nodes g !! m = Some nd /\ p ∈ predecessors nd.
Proof.
  intros Hwf Hp Hm. unfold last_required in Hm. rewrite (wf_maxreq g Hwf p Hp) in Hm.
  simpl in Hm. destruct (last_use_from_some 0 p (nodes g) m Hm) as (nd & Hl & Hin & _).
  rewrite Nat.sub_0_r in Hl. eauto.
Qed.

Lemma eval_node_released g keep i nd (v v' : list (option T)) :
  wf g -> nodes g !! i = Some nd -> length v = size g -> released_upto g keep i v ->
  eval_node g true keep i nd v = Ok v' ->
  length v' = size g /\ released_upto g keep (S i) v'.
Proof.
  intros Hwf Hi Hlen Hrel. unfold eval_node.
  destruct (predecessors nd) as [|p0 ps0] eqn:Hps.
  - intros [= <-]. split; [done|]. intros p m Hp Hk Hm Hlt.
    destruct (decide (m = i)) as [->|]; [|apply (Hrel p m); auto with lia].
    destruct (last_required_some g p i Hwf) as (nd' & Hnd' & Hin); [lia|done|].
    rewrite Hi in Hnd'. injection Hnd' as <-. rewrite Hps in Hin. by apply elem_of_nil in Hin.
  - intros Hrun. res_inv. rename x into args, x0 into x.
    change (foldl (release g keep i) (release g keep i ?w p0) ps0)
      with (foldl (release g keep i) w (p0 :: ps0)).
    assert (Hi_lt : i < length v) by (pose proof (lookup_lt_Some _ _ _ Hi); unfold size in *; lia).
    split; [by rewrite length_release_foldl, length_insert|].
    intros p m Hp Hk Hm Hlt. rewrite length_release_foldl, length_insert in Hp.
    destruct (decide (m = i)) as [->|Hne].
    + destruct (last_required_some g p i Hwf) as (nd' & Hnd' & Hin); [lia|done|].
      rewrite Hi in Hnd'. injection Hnd' as <-.
      apply (release_foldl_frees g keep i (p0 :: ps0) _ p i); try done.
      * by rewrite <- Hps.
      * by rewrite length_insert.
    + apply release_foldl_keeps_none.
      assert (p <> i).
      { destruct (last_required_some g p m Hwf) as (nd' & Hnd' & Hin); [lia|done|].
        pose proof (wf_topo g Hwf m nd' p Hnd' Hin). lia. }
      rewrite list_lookup_insert_ne by done. apply (Hrel p m); auto with lia.
Qed.

Lemma eval_from_released g keep i ns (v v' : list (option T)) :
  wf g -> (forall j nd, ns !! j = Some nd -> nodes g !! (i + j) = Some nd) ->
  length v = size g -> released_upto g keep i v ->
  eval_from g true keep i ns v = Ok v' ->
  length v' = size g /\ released_upto g keep (i + length ns) v'.
Proof.
  revert i v. induction ns as [|nd ns IH]; intros i v Hwf Hns Hlen Hrel Hrun; simpl in Hrun.
  - injection Hrun as <-. by rewrite Nat.add_0_r.
  - res_inv. rename x into v1.
    assert (Hi : nodes g !! i = Some nd) by (rewrite <- (Nat.add_0_r i); by apply Hns).
    destruct (eval_node_released g keep i nd v v1 Hwf Hi Hlen Hrel H) as [Hlen1 Hrel1].
    replace (i + length (nd :: ns)) with (S i + length ns) by (simpl; lia).
    apply (IH (S i) v1); try done. intros j nd' Hj.
    replace (S i + j) with (i + S j) by lia. by apply (Hns (S j)).
Qed.

(** Reclamation is complete: after a successful run with the deleter,
    every node that is not flagged in [keepNodes] and that some node reads
    (it has a last consumer) has been released. *)
Theorem forwardEvaluation_releases (g : graph) (keep : list bool) (vals v : list (option T)) :
  wf g -> length vals = size g -> forwardEvaluation g vals true keep = Ok v ->
  forall p m, p < size g -> keep_flag keep p = false -> last_required g p = Some m ->
  v !! p = Some None.
Proof.
  intros Hwf Hlen Hrun p m Hp Hk Hm.
  destruct (eval_from_released g keep 0 (nodes g) vals v Hwf) as [Hlen' Hrel]; try done.
  { intros p' m' Hp' _ Hm' Hlt. lia. }
  apply (Hrel p m); [lia|done|done|].
  destruct (last_required_some g p m Hwf Hp Hm) as (nd & Hnd & _).
  apply lookup_lt_Some in Hnd. done.
Qed.

End ForwardEvaluation.
