(* ===== verification/Contributor.v ===== *)
(** * Graph contributors: the interface between the engine and the code
    that appends nodes to the shared graph

    Two external collaborators append to the engine's computation graph: the
    cross asset model ([GaussianCamCG], whose [computationGraph()] the engine
    takes at xvaenginecg.cpp:136) and each trade's pricing engine
    ([ScriptedInstrumentPricingEngineCG::buildComputationGraph], called at
    xvaenginecg.cpp:179).  Neither is under src/; spec §6 fixes what they
    promise, and this file states it as the record [contributor]: an
    operation on the graph and the law that it only performs steps of the
    graph API ([api_step]).  The engine's theorems are proved against the law.

    [contributor_of_prog] is an implementation: a small scripting language
    (expressions over model nodes, constants, labels, unary and binary
    operators) compiled to graph API calls, in the way the scripted pricing
    engine compiles a payoff script; its law is proved once. *)

From S2P Require Import Prelude Operand Graph.
From Stdlib Require Import QArith.
Import ComputationGraph.
Local Open Scope nat_scope.

(** What a contributor promises: it only extends the graph through the
    graph API. *)
Record contributor : Type := {
  build : graph -> res graph_error graph;
  build_steps : forall g g', build g = Ok g' -> rtc api_step g g';
}.

(** ** A payoff script compiled to graph calls *)

Inductive gexpr : Type :=
  | ENode (n : nat)              (* a node the model layer created *)
  | EConst (c : Q)               (* a literal, deduplicated by [constant] *)
  | EVar (name : string)         (* a node labelled earlier under the current prefix *)
  | EUn (o : nat) (a : gexpr)
  | EBin (o : nat) (a b : gexpr).

(** [name := e]: compute [e] and label its node [name]. *)
Record gstmt : Type := SAssign { s_name : string; s_expr : gexpr }.

Fixpoint compile_expr (e : gexpr) (g : graph) : res graph_error (nat * graph) :=
  match e with
  | ENode n => if decide (n < size g) then Ok (n, g) else Err (NodeOutOfRange n)
  | EConst c => Ok (constant c g)
  | EVar name => let! n := variable name g in Ok (n, g)
  | EUn o a =>
      let! '(na, g1) := compile_expr a g in
      insert [na] o g1
  | EBin o a b =>
      let! '(na, g1) := compile_expr a g in
      let! '(nb, g2) := compile_expr b g1 in
      insert [na; nb] o g2
  end.

Definition run_stmt (g : graph) (s : gstmt) : res graph_error graph :=
  let! '(n, g1) := compile_expr (s_expr s) g in
  setVariable (s_name s) n g1.

Definition run_prog (prog : list gstmt) (g : graph) : res graph_error graph :=
  res_foldl run_stmt g prog.

(** ** Lemmas *)

Lemma compile_expr_steps e g n g' :
  compile_expr e g = Ok (n, g') -> rtc api_step g g'.
Proof.
  revert g n g'. induction e as [n0|c|name|o a IH|o a IHa b IHb]; intros g n g' H; simpl in H.
  - destruct (decide _); [by injection H as _ <-|done].
  - injection H as H. apply rtc_once. by eapply step_constant.
  - res_inv. reflexivity.
  - res_inv. destruct x as [na g1]. etrans; [by eapply IH|].
    apply rtc_once. by eapply step_insert.
  - res_inv. destruct x as [na g1]. cbn in *. res_inv. destruct x as [nb g2].
    etrans; [by eapply IHa|].
    etrans; [by eapply IHb|]. apply rtc_once. by eapply step_insert.
Qed.

Lemma run_prog_steps prog g g' : run_prog prog g = Ok g' -> rtc api_step g g'.
Proof.
  unfold run_prog. revert g. induction prog as [|s prog IH]; intros g H; simpl in H.
  - injection H as <-. reflexivity.
  - res_inv. rename x into g1. etrans; [|by apply IH].
    unfold run_stmt in H. res_inv. destruct x as [n g0].
    etrans; [by eapply compile_expr_steps|]. apply rtc_once. by eapply step_setVariable.
Qed.

Definition contributor_of_prog (prog : list gstmt) : contributor :=
  {| build := run_prog prog; build_steps := run_prog_steps prog |}.
