(* ===== verification/PathGen.v ===== *)
(** * Path Generator

    [makeMultiPathVariateGenerator(sequenceType, dimension, timeSteps, seed,
    ordering, directionIntegers)] and [gen->next()] (spec §4.3; used at
    xvaenginecg.cpp:203-207).  QuantExt's generators are not under src/.

    A generator is a draw cursor: a state, its initial value and [next],
    which returns one path (a [timeSteps x dimension] matrix of variates,
    [p.value[j][k]]) and the advanced state.  [generate] draws the first
    [numPaths] paths in order, which is the path tensor of spec §3; the
    generator's factory is a function of its arguments, so equal arguments
    give the same tensor. *)

From S2P Require Import Prelude Operand.

Record MultiPathVariateGenerator : Type := {
  gen_state : Type;
  gen_init : gen_state;
  next : gen_state -> list (list real) * gen_state;
}.

(** The state after [k] calls of [next]. *)
Definition cursor (G : MultiPathVariateGenerator) (k : nat) : gen_state G :=
  Nat.iter k (fun s => snd (next G s)) (gen_init G).

(** The [k]-th path drawn. *)
Definition nth_path (G : MultiPathVariateGenerator) (k : nat) : list (list real) :=
  fst (next G (cursor G k)).

Fixpoint generate_from (G : MultiPathVariateGenerator) (s : gen_state G) (numPaths : nat)
    : list (list (list real)) :=
  match numPaths with
  | 0 => []
  | S n => let '(p, s') := next G s in p :: generate_from G s' n
  end.

(** The path tensor: [numPaths] draws from a fresh generator. *)
Definition generate (G : MultiPathVariateGenerator) (numPaths : nat) : list (list (list real)) :=
  generate_from G (gen_init G) numPaths.

(** A generator replaying a fixed table of paths (zero matrices past its
    end), used to state scenarios with known variates. *)
Definition replay_generator (table : list (list (list real))) : MultiPathVariateGenerator :=
  {| gen_state := nat;
     gen_init := 0;
     next := fun k => (default [] (table !! k), S k) |}.

Lemma cursor_S G k : cursor G (S k) = snd (next G (cursor G k)).
Proof. reflexivity. Qed.

Lemma generate_from_lookup G k n p :
  p < n -> generate_from G (cursor G k) n !! p = Some (nth_path G (k + p)).
Proof.
  revert k p. induction n as [|n IH]; intros k p Hp; [lia|]. simpl.
  destruct (next G (cursor G k)) as [x s'] eqn:E. destruct p as [|p].
  - unfold nth_path. rewrite Nat.add_0_r, E. done.
  - simpl. replace s' with (cursor G (S k)) by (by rewrite cursor_S, E).
    rewrite IH by lia. do 2 f_equal. lia.
Qed.

(** The [p]-th path of the tensor is the [p]-th draw of the generator. *)
Lemma generate_lookup G n p : p < n -> generate G n !! p = Some (nth_path G p).
Proof. apply (generate_from_lookup G 0 n p). Qed.

Lemma length_generate G n : length (generate G n) = n.
Proof.
  unfold generate. generalize (gen_init G). induction n as [|n IH]; intros s; simpl; [done|].
  destruct (next G s). simpl. by rewrite IH.
Qed.
