(* ===== verification/XvaEngineCG.v ===== *)
(** * The orchestrator: [XvaEngineCG]

    The constructor of [ore::analytics::XvaEngineCG]
    (src/OREAnalytics/orea/engine/xvaenginecg.cpp:34-291) runs the whole
    pipeline.  The model keeps its stages in the order of the code:

    - [duplicate_portfolio] (lines 54-65): the test hack that replaces the
      portfolio by [N] renamed copies, [N] read from the environment;
    - the market and model builds (lines 71-139) are external; what the
      engine takes from them is the record [cam_model] (the model's graph,
      random variate nodes, parameter nodes and path count), after the
      [QL_REQUIRE] on the Euler discretization (lines 106-108);
    - [build_trades] (lines 164-188): per trade, in the order of the
      portfolio's [std::map], the dynamic casts, [setPrefix(id + "_")], the
      trade's subgraph, its node range and its NPV and AMC-NPV output nodes;
    - [populate_random_variates] (lines 195-215): the value store is sized
      to the graph with zeros, then each path drawn from the generator is
      written into the random variate nodes;
    - [populate_constants], [populate_model_parameters] (lines 219-232);
    - [keep_nodes] (lines 240-244) and the forward evaluation (line 251).

    The market, the cross asset model builder, the engine factory, timers
    and the printing of lines 279-290 are not modelled (I/O and external
    collaborators). *)

From S2P Require Import Prelude Operand Graph ForwardEval Contributor PathGen.
From Stdlib Require Import QArith ZArith.
Import ComputationGraph.
Local Open Scope nat_scope.

Module XvaEngineCG.

(** ** Data *)

Inductive Discretization : Type := Exact | Euler.

#[export] Instance Discretization_eq_dec : EqDecision Discretization.
Proof. solve_decision. Defined.

Inductive engine_error : Type :=
  | EnvNotSet                              (* getenv("N") returned null *)
  | DuplicateTradeId (id : string)         (* Portfolio::add on an existing id *)
  | NotEulerDiscretization                 (* line 106 *)
  | NotScriptedInstrument (id : string)    (* line 173 *)
  | NotCGEngine (id : string)              (* line 175 *)
  | GraphError (e : graph_error)          (* rethrown from the graph API *)
  | EvalError (e : @eval_error).

(** The pricing engine of a trade: the name of its NPV variable and its
    graph contribution. *)
Record trade_engine : Type := {
  npvName : string;
  engine_cg : contributor;
}.

(** What the dynamic casts of lines 172-176 see in a trade. *)
Inductive trade : Type :=
  | OtherInstrument
  | ScriptedInstrument (engine : option trade_engine).

(** The calibrated model after [model_->calculate()] (lines 131-136). *)
Record cam_model : Type := {
  model_graph : graph;
  model_graph_steps : rtc api_step empty_graph model_graph;
  randomVariates : list (list nat);       (* rv[k][j]: factor k, time step j *)
  modelParameters : list (nat * Q);       (* (node, value) *)
  samples : nat;                          (* model_->size(): the path count *)
}.

Record engine_config : Type := {
  env_N : option Z;                       (* atoi(getenv("N")), None when unset *)
  input_portfolio : gmap string trade;
  discretization : Discretization;
  model : cam_model;
  grid : list Z;                          (* the simulation grid's dates *)
  (* makeMultiPathVariateGenerator with the scenario generator data's
     sequence type, seed, ordering and direction integers *)
  make_generator : nat -> nat -> MultiPathVariateGenerator;
}.

Record trades_state : Type := {
  ts_graph : graph;
  amcNpvNodes : gmap string (list nat);
  tradeNodeRanges : gmap string (nat * nat);
}.

Record engine_result : Type := {
  er_graph : graph;
  er_amcNpvNodes : gmap string (list nat);
  er_tradeNodeRanges : gmap string (nat * nat);
  er_keepNodes : list bool;
  er_values : list (option RandomVariable);
}.

(** ** Stage 0: portfolio duplication (lines 54-65) *)

(** [Portfolio::trades()] is a [std::map] keyed by trade id: its iteration
    order is the lexicographic order of the ids. *)
Definition trade_id_le (a b : string * trade) : Prop := String.leb a.1 b.1 = true.

#[export] Instance trade_id_le_dec : RelDecision trade_id_le.
Proof. intros a b. unfold trade_id_le. apply _. Defined.

Definition portfolio_trades (pf : gmap string trade) : list (string * trade) :=
  merge_sort trade_id_le (map_to_list pf).

(** [Portfolio::add]: an id already present is an error. *)
Definition portfolio_add (pf : gmap string trade) (id : string) (t : trade)
    : res engine_error (gmap string trade) :=
  match pf !! id with
  | Some _ => Err (DuplicateTradeId id)
  | None => Ok (<[id := t]> pf)
  end.

(** [t->id() += "_" + std::to_string(i + 1)]. *)
Definition copy_id (id : string) (i : nat) : string := id +:+ "_" +:+ to_string (i + 1).

(** The number of iterations of [for (Size i = 0; i < atoi(getenv("N")); ++i)]:
    the [int] is converted to the 64-bit [Size] before the comparison. *)
Definition copy_count (n : Z) : nat := Z.to_nat (n mod 2 ^ 64).

Definition add_copies (pf : gmap string trade) (acc : gmap string trade) (i : nat)
    : res engine_error (gmap string trade) :=
  res_foldl (fun acc' it => portfolio_add acc' (copy_id it.1 i) it.2) acc (portfolio_trades pf).

Definition duplicate_portfolio (N : option Z) (pf : gmap string trade)
    : res engine_error (gmap string trade) :=
  match N with
  | None => Err EnvNotSet
  | Some n => res_foldl (add_copies pf) ∅ (seq 0 (copy_count n))
  end.

(** ** Stage 5: the trades' subgraphs (lines 164-188) *)

Definition engine_of (id : string) (t : trade) : res engine_error trade_engine :=
  match t with
  | OtherInstrument => Err (NotScriptedInstrument id)
  | ScriptedInstrument None => Err (NotCGEngine id)
  | ScriptedInstrument (Some e) => Ok e
  end.

(** Lines 182-186: the time-zero NPV node and one AMC NPV node per
    simulation date, looked up under the trade's prefix. *)
Definition lookup_amc_nodes (id : string) (eng : trade_engine) (nDates : nat) (g : graph)
    : res engine_error (list nat) :=
  let! n0 := res_map_err GraphError (variable (npvName eng +:+ "_0") g) in
  let! ns := res_mapM (fun i => res_map_err GraphError
                                  (variable ("_AMC_NPV_" +:+ to_string i) g)) (seq 0 nDates) in
  Ok (n0 :: ns).

Definition add_trade (nDates : nat) (st : trades_state) (it : string * trade)
    : res engine_error trades_state :=
  let '(id, t) := it in
  let! eng := engine_of id t in
  let g := setPrefix (id +:+ "_") (ts_graph st) in
  let firstNode := size g in
  let! g' := res_map_err GraphError (build (engine_cg eng) g) in
  let lastNode := size g' in
  let! tmp := lookup_amc_nodes id eng nDates g' in
  Ok {| ts_graph := g';
        amcNpvNodes := <[id := tmp]> (amcNpvNodes st);
        tradeNodeRanges := <[id := (firstNode, lastNode)]> (tradeNodeRanges st) |}.

Definition build_trades (nDates : nat) (g : graph) (pf : gmap string trade)
    : res engine_error trades_state :=
  res_foldl (add_trade nDates) {| ts_graph := g; amcNpvNodes := ∅; tradeNodeRanges := ∅ |}
            (portfolio_trades pf).

(** ** Stage 6: random variates (lines 195-215) *)

(** [values[rv[k][j]].set(path, p.value[j][k])]. *)
Definition set_variate (rv : list (list nat)) (path : nat) (p : list (list real))
    (values : list (option RandomVariable)) (jk : nat * nat) : list (option RandomVariable) :=
  let '(j, k) := jk in
  match rv !! k ≫= (.!! j), p !! j ≫= (.!! k) with
  | Some node, Some x => alter (fmap (rv_set path x)) node values
  | _, _ => values
  end.

(** The two inner loops: time steps [j] outside, factors [k] inside. *)
Definition populate_path (rv : list (list nat)) (nSteps path : nat) (p : list (list real))
    (values : list (option RandomVariable)) : list (option RandomVariable) :=
  foldl (set_variate rv path p) values (list_prod (seq 0 nSteps) (seq 0 (length rv))).

(** The path loop: one [gen->next()] per path. *)
Fixpoint populate_paths (G : MultiPathVariateGenerator) (rv : list (list nat)) (nSteps : nat)
    (s : gen_state G) (path count : nat) (values : list (option RandomVariable))
    : list (option RandomVariable) :=
  match count with
  | 0 => values
  | S c =>
      let '(p, s') := next G s in
      populate_paths G rv nSteps s' (S path) c (populate_path rv nSteps path p values)
  end.

Definition populate_random_variates (mk : nat -> nat -> MultiPathVariateGenerator)
    (rv : list (list nat)) (nPaths : nat) (values : list (option RandomVariable))
    : list (option RandomVariable) :=
  match rv with
  | [] => values
  | rv0 :: _ =>
      let G := mk (length rv) (length rv0) in
      populate_paths G rv (length rv0) (gen_init G) 0 nPaths values
  end.

(** ** Stage 7: constants and model parameters (lines 219-232) *)

Definition populate_constants (nPaths : nat) (cs : list (Q * nat))
    (values : list (option RandomVariable)) : list (option RandomVariable) :=
  foldl (fun vs c => <[c.2 := Some (rv_const nPaths (Fin c.1))]> vs) values cs.

Definition populate_model_parameters (nPaths : nat) (ps : list (nat * Q))
    (values : list (option RandomVariable)) : list (option RandomVariable) :=
  foldl (fun vs p => <[p.1 := Some (rv_const nPaths (Fin p.2))]> vs) values ps.

(** The value store handed to the forward evaluation (lines 199-230). *)
Definition bound_values (cfg : engine_config) (g : graph) : list (option RandomVariable) :=
  let m := model cfg in
  let values0 := replicate (size g) (Some (rv_const (samples m) (Fin 0))) in
  let values1 := populate_random_variates (make_generator cfg) (randomVariates m) (samples m) values0 in
  let values2 := populate_constants (samples m) (constants g) values1 in
  populate_model_parameters (samples m) (modelParameters m) values2.

(** ** Stage 8: forward evaluation (lines 236-251) *)

Definition keep_nodes (sz : nat) (amc : gmap string (list nat)) : list bool :=
  foldl (fun kn it => foldl (fun kn' n => <[n := true]> kn') kn it.2)
        (replicate sz false) (map_to_list amc).

(** The number of simulation dates: the size of the [std::set] built from
    the grid (line 125). *)
Definition simulationDates (cfg : engine_config) : nat :=
  base.size (list_to_set (grid cfg) : gset Z).

(** ** The whole constructor *)

Definition run (cfg : engine_config) : res engine_error engine_result :=
  let! pf := duplicate_portfolio (env_N cfg) (input_portfolio cfg) in
  let! _ := ql_require (bool_decide (discretization cfg = Euler)) NotEulerDiscretization in
  let! st := build_trades (simulationDates cfg) (model_graph (model cfg)) pf in
  let g := ts_graph st in
  let values := bound_values cfg g in
  let keep := keep_nodes (size g) (amcNpvNodes st) in
  let! values' := res_map_err EvalError (forwardEvaluation g values true keep) in
  Ok {| er_graph := g; er_amcNpvNodes := amcNpvNodes st;
        er_tradeNodeRanges := tradeNodeRanges st; er_keepNodes := keep;
        er_values := values' |}.

(** The invariant of the trade loop: the graph was built through the API
    from the model's graph, and every recorded output node exists. *)
Definition trades_inv (g0 : graph) (st : trades_state) : Prop :=
  rtc api_step g0 (ts_graph st) /\
  forall id ns n, amcNpvNodes st !! id = Some ns -> n ∈ ns -> n < size (ts_graph st).

(** The store stays sized to the graph, and every slot stays bound. *)
Definition all_bound (sz : nat) (vals : list (option RandomVariable)) : Prop :=
  length vals = sz /\ forall i, i < sz -> exists x, vals !! i = Some (Some x).

(** Every bound slot holds a path vector of [n] paths. *)
Definition sized (n : nat) (vals : list (option RandomVariable)) : Prop :=
  forall i x, vals !! i = Some (Some x) -> length x = n.

Definition is_eval_error (e : engine_error) : Prop :=
  match e with EvalError _ => True | _ => False end.

Definition entry_ok (nDates : nat) (st : trades_state) (id : string) : Prop :=
  (exists ns, amcNpvNodes st !! id = Some ns /\ length ns = S nDates) /\
  is_Some (tradeNodeRanges st !! id).

(** The node ranges lie in the part of the graph the trades added and do
    not overlap. *)
Definition ranges_inv (g0 : graph) (st : trades_state) : Prop :=
  forall id a b, tradeNodeRanges st !! id = Some (a, b) ->
    size g0 <= a <= b /\ b <= size (ts_graph st) /\
    forall id' a' b', id' <> id -> tradeNodeRanges st !! id' = Some (a', b') -> b' <= a \/ b <= a'.

(** What one path does to the variate of factor [k] at step [j]: the slot
    [path] takes the generator's value [p.value[j][k]] when it has one. *)
Definition path_update (p : list (list real)) (j k path : nat) (x : RandomVariable) : RandomVariable :=
  match p !! j ≫= (.!! k) with
  | Some y => rv_set path y x
  | None => x
  end.

(** The variate of factor [k] at step [j] after the paths [path],
    [path + 1], ..., [path + count - 1] of generator [G]. *)
Definition paths_update (G : MultiPathVariateGenerator) (j k path count : nat) (x : RandomVariable)
    : RandomVariable :=
  foldl (fun x q => path_update (nth_path G q) j k q x) x (seq path count).

(** ** Lemmas: the keep flags *)

Lemma keep_nodes_lookup sz (amc : gmap string (list nat)) n :
  keep_nodes sz amc !! n = Some true <->
  n < sz /\ exists id ns, amc !! id = Some ns /\ n ∈ ns.
Proof.
  unfold keep_nodes.
  assert (Hgen : forall (l : list (string * list nat)) kn, length kn = sz ->
    foldl (fun kn it => foldl (fun kn' n => <[n := true]> kn') kn it.2) kn l !! n = Some true <->
    kn !! n = Some true \/ (n < sz /\ exists id ns, (id, ns) ∈ l /\ n ∈ ns)).
  { induction l as [|[id ns] l IH]; intros kn Hlen; simpl.
    - split; [by left|]. intros [?|(_ & ? & ? & Hin & _)]; [done|by apply elem_of_nil in Hin].
    - rewrite IH by (by rewrite length_foldl_set_true). rewrite lookup_foldl_set_true.
      setoid_rewrite elem_of_cons. split.
      + intros [[?|[? ?]]|(? & id' & ns' & ? & ?)]; [by left|right|right]; naive_solver.
      + intros [?|(? & id' & ns' & [[= -> ->]|?] & ?)]; [by left; left|left; right; split; [done|lia]|].
        right. split; [done|eauto]. }
  rewrite Hgen by apply length_replicate. rewrite lookup_replicate.
  setoid_rewrite elem_of_map_to_list. naive_solver.
Qed.

Lemma keep_flag_keep_nodes sz (amc : gmap string (list nat)) n :
  keep_flag (keep_nodes sz amc) n = true <->
  n < sz /\ exists id ns, amc !! id = Some ns /\ n ∈ ns.
Proof.
  unfold keep_flag. rewrite <- keep_nodes_lookup.
  destruct (keep_nodes sz amc !! n) as [[]|]; simpl; split; congruence.
Qed.

(** ** Lemmas: the trade loop *)

Lemma size_setPrefix p g : size (setPrefix p g) = size g.
Proof. done. Qed.

Lemma rtc_api_step_size g g' : rtc api_step g g' -> size g <= size g'.
Proof.
  intros H%rtc_api_step_extends. unfold size.
  destruct (ext_nodes g g' H) as [l ->]. rewrite length_app. lia.
Qed.

Lemma lookup_amc_nodes_valid id eng nDates g ns :
  wf g -> lookup_amc_nodes id eng nDates g = Ok ns -> forall n, n ∈ ns -> n < size g.
Proof.
  intros Hwf H. unfold lookup_amc_nodes in H. res_inv. rename x into n0, x0 into ns'.
  unfold variable in H. res_inv. apply res_mapM_Ok in H0.
  intros n [->|Hn]%elem_of_cons; [by eapply wf_variables|].
  apply list_elem_of_lookup in Hn as [k Hk].
  destruct (Forall2_lookup_r _ _ _ _ _ H0 Hk) as (i & _ & Hi).
  res_inv. unfold variable in Hi. res_inv. by eapply wf_variables.
Qed.

Lemma length_lookup_amc_nodes id eng nDates g ns :
  lookup_amc_nodes id eng nDates g = Ok ns -> length ns = S nDates.
Proof.
  intros H. unfold lookup_amc_nodes in H. res_inv. apply res_mapM_Ok in H0.
  simpl. f_equal. rewrite <- (Forall2_length _ _ _ H0). apply length_seq.
Qed.

Lemma add_trade_inv nDates g0 st it st' :
  wf g0 -> trades_inv g0 st -> add_trade nDates st it = Ok st' -> trades_inv g0 st'.
Proof.
  intros Hwf0 [Hsteps Hvalid] H. destruct it as [id t]. unfold add_trade in H. res_inv.
  rename x into eng, x0 into g', x1 into tmp.
  assert (Hsteps' : rtc api_step (setPrefix (id +:+ "_") (ts_graph st)) g')
    by (by eapply build_steps).
  assert (Hall : rtc api_step g0 g').
  { etrans; [exact Hsteps|]. eapply rtc_l; [apply step_setPrefix|exact Hsteps']. }
  split; [done|]. simpl. intros id' ns n Hid' Hn.
  apply lookup_insert_Some in Hid' as [[<- <-]|[_ Hid']].
  - eapply lookup_amc_nodes_valid; [|done|done].
    exact (rtc_api_step_wf _ _ Hall Hwf0).
  - pose proof (rtc_api_step_size _ _ Hsteps'). rewrite size_setPrefix in *.
    specialize (Hvalid id' ns n Hid' Hn). lia.
Qed.

Lemma add_trade_ranges nDates g0 st it st' :
  size g0 <= size (ts_graph st) -> ranges_inv g0 st ->
  add_trade nDates st it = Ok st' -> size g0 <= size (ts_graph st') /\ ranges_inv g0 st'.
Proof.
  intros Hsz Hr H. destruct it as [id t]. unfold add_trade in H. res_inv.
  rename x0 into g'. apply build_steps, rtc_api_step_size in H0. rewrite size_setPrefix in H0.
  split; [simpl; lia|]. intros i a b Hi. simpl in Hi |- *.
  apply lookup_insert_Some in Hi as [[<- [= <- <-]]|[Hne Hi]].
  - rewrite size_setPrefix. split_and!; [lia..|]. intros i' a' b' Hne Hi'.
    rewrite lookup_insert_ne in Hi' by done. destruct (Hr _ _ _ Hi') as (_ & ? & _). lia.
  - destruct (Hr _ _ _ Hi) as (? & ? & Hdisj). split_and!; [lia..|].
    intros i' a' b' Hne' Hi'. apply lookup_insert_Some in Hi' as [[<- [= <- <-]]|[_ Hi']].
    + rewrite size_setPrefix. lia.
    + by apply (Hdisj i').
Qed.

Lemma build_trades_ranges nDates g pf st :
  build_trades nDates g pf = Ok st -> ranges_inv g st.
Proof.
  intros H. unfold build_trades in H.
  apply (res_foldl_invariant (fun st => size g <= size (ts_graph st) /\ ranges_inv g st)) in H;
    [by destruct H| |].
  - intros st0 it st1 _ [Hsz Hr] Hst. by eapply add_trade_ranges.
  - split; [done|]. intros id a b Hid. simpl in Hid. by rewrite lookup_empty in Hid.
Qed.

Lemma build_trades_inv nDates g pf st :
  wf g -> build_trades nDates g pf = Ok st -> trades_inv g st.
Proof.
  intros Hwf. unfold build_trades. apply res_foldl_invariant.
  - intros; eauto using add_trade_inv.
  - split; [reflexivity|]. intros id ns n Hid. simpl in Hid. by rewrite lookup_empty in Hid.
Qed.

(** A trade's range is written once: the later trades, with other ids,
    leave it. *)
Lemma add_trades_range_other nDates l st st' id :
  id ∉ l.*1 -> res_foldl (add_trade nDates) st l = Ok st' ->
  tradeNodeRanges st' !! id = tradeNodeRanges st !! id.
Proof.
  revert st. induction l as [|[id0 t0] l IH]; intros st Hnin H; simpl in H; [by injection H as <-|].
  apply res_bind_Ok in H as (st1 & H1 & H). rewrite fmap_cons, not_elem_of_cons in Hnin.
  destruct Hnin as [Hne Hnin]. rewrite (IH st1 Hnin H).
  unfold add_trade in H1. res_inv. cbn. by rewrite lookup_insert_ne.
Qed.

(** The trade loop unrolled: the graphs it passes from trade to trade, each
    obtained by the trade's contributor from the one before under the
    trade's prefix, and each trade's range the nodes its contributor
    appended. *)
Lemma add_trades_chain nDates l st0 st :
  NoDup l.*1 -> res_foldl (add_trade nDates) st0 l = Ok st ->
  exists gs, length gs = S (length l) /\ gs !! 0 = Some (ts_graph st0) /\
    gs !! length l = Some (ts_graph st) /\
    forall k id t, l !! k = Some (id, t) ->
      exists eng g g', engine_of id t = Ok eng /\ gs !! k = Some g /\ gs !! S k = Some g' /\
        build (engine_cg eng) (setPrefix (id +:+ "_") g) = Ok g' /\
        tradeNodeRanges st !! id = Some (size g, size g').
Proof.
  revert st0. induction l as [|[id t] l IH]; intros st0 Hnd H; simpl in H.
  { injection H as <-. exists [ts_graph st0]. split_and!; try done; intros ? ? ? Hl; by rewrite lookup_nil in Hl. }
  apply res_bind_Ok in H as (st1 & H1 & H). rewrite fmap_cons, NoDup_cons in Hnd. destruct Hnd as [Hnin Hnd].
  simpl in Hnin. pose proof (add_trades_range_other _ _ _ _ _ Hnin H) as Hkeep.
  destruct (IH st1 Hnd H) as (gs & Hlen & H0 & Hlast & Hk).
  unfold add_trade in H1. res_inv. rename x into eng, x0 into g', x1 into tmp.
  exists (ts_graph st0 :: gs). split_and!; [simpl; lia|done|done|].
  intros [|k] id' t' Hl; simpl in Hl.
  - injection Hl as <- <-. exists eng, (ts_graph st0), g'. split_and!; try done.
    rewrite Hkeep. cbn. by rewrite lookup_insert_eq.
  - by apply Hk.
Qed.

Lemma portfolio_trades_NoDup pf : NoDup (portfolio_trades pf).*1.
Proof.
  unfold portfolio_trades. rewrite (merge_sort_Permutation _ _). apply NoDup_fst_map_to_list.
Qed.

Lemma model_graph_wf (m : cam_model) : wf (model_graph m).
Proof. exact (rtc_api_step_wf _ _ (model_graph_steps m) empty_graph_wf). Qed.

(** Unfold a successful [run] into its stages. *)
Lemma run_Ok cfg r :
  run cfg = Ok r ->
  exists pf st,
    duplicate_portfolio (env_N cfg) (input_portfolio cfg) = Ok pf /\
    discretization cfg = Euler /\
    build_trades (simulationDates cfg) (model_graph (model cfg)) pf = Ok st /\
    er_graph r = ts_graph st /\ er_amcNpvNodes r = amcNpvNodes st /\
    er_tradeNodeRanges r = tradeNodeRanges st /\
    er_keepNodes r = keep_nodes (size (ts_graph st)) (amcNpvNodes st) /\
    forwardEvaluation (ts_graph st) (bound_values cfg (ts_graph st)) true
      (keep_nodes (size (ts_graph st)) (amcNpvNodes st)) = Ok (er_values r).
Proof.
  unfold run. intros H.
  destruct (duplicate_portfolio _ _) as [pf|e] eqn:Hpf; [|done]; cbn [res_bind] in H.
  destruct (ql_require _ _) as [[]|e] eqn:Hreq; [|done]; cbn [res_bind] in H.
  apply ql_require_Ok, bool_decide_eq_true_1 in Hreq.
  destruct (build_trades _ _ _) as [st|e] eqn:Hbt; [|done]; cbn [res_bind] in H.
  destruct (forwardEvaluation _ _ _ _) as [vals|e] eqn:Hev; [|done].
  cbn [res_bind res_map_err] in H. injection H as <-. exists pf, st. by split_and!.
Qed.

(** ** The engine's outputs *)

(** C1: The engine keeps exactly what it reports: after a successful run,
    every time-zero NPV node and every AMC NPV node of every trade holds the
    value that the evaluation of the whole graph without any release gives
    it (release of intermediate nodes never changes a reported output). *)
Theorem run_outputs_reference (cfg : engine_config) (r : engine_result) :
  run cfg = Ok r ->
  exists ref, forward_reference (er_graph r) (bound_values cfg (er_graph r)) = Ok ref /\
  forall id ns n, er_amcNpvNodes r !! id = Some ns -> n ∈ ns -> er_values r !! n = ref !! n.
Proof.
  intros (pf & st & _ & _ & Hbt & -> & -> & _ & _ & Hev)%run_Ok.
  pose proof (model_graph_wf (model cfg)) as Hwf0.
  destruct (build_trades_inv _ _ _ _ Hwf0 Hbt) as [Hsteps Hvalid].
  pose proof (rtc_api_step_wf _ _ Hsteps Hwf0) as Hwf.
  pose proof (forwardEvaluation_refines (ts_graph st) (keep_nodes (size (ts_graph st)) (amcNpvNodes st))
                (bound_values cfg (ts_graph st)) Hwf) as Href.
  rewrite Hev in Href. destruct (forward_reference _ _) as [ref|e]; [|done].
  exists ref. split; [done|]. destruct Href as (_ & Hkeep & _).
  intros id ns n Hid Hn. apply Hkeep, keep_flag_keep_nodes. split; [by eapply Hvalid|eauto].
Qed.

(** ** Lemmas: the value store *)

Lemma all_bound_insert sz vals j x :
  all_bound sz vals -> all_bound sz (<[j := Some x]> vals).
Proof.
  intros [Hlen H]. split; [by rewrite length_insert|]. intros i Hi.
  destruct (decide (j = i)) as [<-|]; [rewrite list_lookup_insert_eq by lia; eauto|].
  rewrite list_lookup_insert_ne by done. auto.
Qed.

Lemma all_bound_alter sz vals j f :
  all_bound sz vals -> all_bound sz (alter (fmap f) j vals).
Proof.
  intros [Hlen H]. split; [by rewrite length_alter|]. intros i Hi.
  rewrite list_lookup_alter. destruct (decide (j = i)) as [<-|]; [|auto].
  destruct (H j Hi) as [x ->]. simpl. eauto.
Qed.

Lemma all_bound_set_variate sz rv path p vals jk :
  all_bound sz vals -> all_bound sz (set_variate rv path p vals jk).
Proof.
  destruct jk as [j k]. unfold set_variate.
  destruct (rv !! k ≫= (.!! j)), (p !! j ≫= (.!! k)); auto using all_bound_alter.
Qed.

Lemma all_bound_populate_paths sz G rv nSteps s path count vals :
  all_bound sz vals -> all_bound sz (populate_paths G rv nSteps s path count vals).
Proof.
  revert s path vals. induction count as [|c IH]; intros s path vals H; simpl; [done|].
  destruct (next G s) as [p s']. apply IH. unfold populate_path.
  apply foldl_invariant; [|done]. intros; by apply all_bound_set_variate.
Qed.

(** The store before the parameters are written (lines 199-225). *)
Lemma all_bound_before_parameters cfg g :
  all_bound (size g)
    (populate_constants (samples (model cfg)) (constants g)
       (populate_random_variates (make_generator cfg) (randomVariates (model cfg)) (samples (model cfg))
          (replicate (size g) (Some (rv_const (samples (model cfg)) (Fin 0)))))).
Proof.
  unfold populate_constants.
  apply foldl_invariant; [intros; by apply all_bound_insert|].
  unfold populate_random_variates. destruct (randomVariates _) as [|rv0 rvs].
  2: apply all_bound_populate_paths.
  all: split; [apply length_replicate|]; intros i Hi; rewrite lookup_replicate_2 by done; eauto.
Qed.

Lemma all_bound_bound_values cfg g : all_bound (size g) (bound_values cfg g).
Proof.
  unfold bound_values, populate_model_parameters.
  apply foldl_invariant; [intros; by apply all_bound_insert|].
  apply all_bound_before_parameters.
Qed.

(** The evaluation without release never reads an empty slot of a fully
    bound store. *)
Lemma reference_no_unbound g (vals : list (option RandomVariable)) i p :
  wf g -> all_bound (size g) vals -> forward_reference g vals <> Err (UnboundInput i p).
Proof.
  intros Hwf Hb. unfold forward_reference.
  assert (Hgen : forall k ns vs, (forall j nd, ns !! j = Some nd -> nodes g !! (k + j) = Some nd) ->
            all_bound (size g) vs -> eval_from g false [] k ns vs <> Err (UnboundInput i p)).
  { intros k ns. revert k. induction ns as [|nd ns IH]; intros k vs Hns Hvs; simpl; [done|].
    assert (Hk : nodes g !! k = Some nd) by (rewrite <- (Nat.add_0_r k); by apply Hns).
    assert (Hrest : forall j nd', ns !! j = Some nd' -> nodes g !! (S k + j) = Some nd').
    { intros j nd' Hj. replace (S k + j) with (k + S j) by lia. by apply (Hns (S j)). }
    unfold eval_node. destruct (predecessors nd) as [|q qs] eqn:Hps; [by apply IH|].
    assert (Hg : exists args, gather k vs (q :: qs) = Ok args).
    { assert (Hin : forall q', q' ∈ q :: qs -> q' < size g).
      { intros q' Hq'. rewrite <- Hps in Hq'. pose proof (wf_topo g Hwf k nd q' Hk Hq').
        pose proof (lookup_lt_Some _ _ _ Hk). unfold size in *. lia. }
      clear Hps. induction (q :: qs) as [|q' qs' IHq]; simpl; [by eexists|].
      destruct (proj2 Hvs q' (Hin q' ltac:(by left))) as [x ->]. simpl.
      destruct IHq as [args ->]; [intros; apply Hin; by right|]. by eexists. }
    destruct Hg as [args ->]. cbn [res_bind].
    destruct (op_forward (op nd) args) as [x|]; cbn [res_bind of_option]; [|done].
    apply IH; [done|]. by apply all_bound_insert. }
  apply Hgen; [done|done].
Qed.

Lemma sized_insert n vals j x : sized n vals -> length x = n -> sized n (<[j := Some x]> vals).
Proof.
  intros H Hx i y. rewrite list_lookup_insert. case_decide as Hd; [|apply H].
  destruct Hd as [<- _]. by intros [= <-].
Qed.

Lemma sized_set_variate n rv path p vals jk : sized n vals -> sized n (set_variate rv path p vals jk).
Proof.
  destruct jk as [j k]. unfold set_variate, sized, rv_set, RandomVariable in *. intros H.
  destruct (rv !! k ≫= (.!! j)) as [node|], (p !! j ≫= (.!! k)) as [v|]; try done.
  intros i y. rewrite list_lookup_alter. case_decide as Hd; [subst i|apply H].
  destruct (vals !! node) as [[x|]|] eqn:E; simpl; [|intros [=]|intros [=]]. intros [= <-].
  rewrite length_insert. by apply (H node).
Qed.

Lemma sized_populate_paths n G rv nSteps s path count vals :
  sized n vals -> sized n (populate_paths G rv nSteps s path count vals).
Proof.
  revert s path vals. induction count as [|c IH]; intros s path vals H; simpl; [done|].
  destruct (next G s) as [p s']. apply IH. unfold populate_path.
  apply foldl_invariant; [|done]. intros; by apply sized_set_variate.
Qed.

Lemma sized_populate_random_variates mk rv n vals :
  sized n vals -> sized n (populate_random_variates mk rv n vals).
Proof.
  intros H. unfold populate_random_variates. destruct rv; [done|]. by apply sized_populate_paths.
Qed.

Lemma length_bound_values cfg g : length (bound_values cfg g) = size g.
Proof. apply all_bound_bound_values. Qed.

(** C9: Every value the engine binds is a path vector of the model's size
    (lines 199-230): the zeros, the random variates written path by path,
    the constants and the model parameters all hold [model_->size()]
    paths, so the elementwise operators of the forward evaluation combine
    vectors of one length. *)
Theorem bound_values_sized (cfg : engine_config) (g : graph) i x :
  bound_values cfg g !! i = Some (Some x) -> length x = samples (model cfg).
Proof.
  unfold bound_values, populate_model_parameters, populate_constants. revert i x.
  apply (foldl_invariant (sized _)); [intros; apply sized_insert; [done|apply length_replicate]|].
  apply (foldl_invariant (sized _)); [intros; apply sized_insert; [done|apply length_replicate]|].
  apply sized_populate_random_variates. intros i x [[= ->] _]%lookup_replicate. apply length_replicate.
Qed.

(** C2: Memory reclamation in the engine: after a successful run, every
    node of the shared graph that is not an NPV or AMC NPV output and that
    some node reads has been released by the deleter. *)
Theorem run_releases (cfg : engine_config) (r : engine_result) :
  run cfg = Ok r ->
  forall p m, p < size (er_graph r) -> er_keepNodes r !! p <> Some true ->
  last_required (er_graph r) p = Some m -> er_values r !! p = Some None.
Proof.
  intros (pf & st & _ & _ & Hbt & -> & _ & _ & -> & Hev)%run_Ok p m Hp Hk Hm.
  pose proof (model_graph_wf (model cfg)) as Hwf0.
  destruct (build_trades_inv _ _ _ _ Hwf0 Hbt) as [Hsteps _].
  pose proof (rtc_api_step_wf _ _ Hsteps Hwf0) as Hwf.
  refine (forwardEvaluation_releases (ts_graph st) _ _ _ Hwf (length_bound_values _ _) Hev p m Hp _ Hm).
  unfold keep_flag. destruct (_ !! p) as [[]|]; simpl; congruence.
Qed.

(** The shared graph after all trades contributed is well formed (every
    node's inputs precede it, the last-use table is exact) and extends the
    model's graph: the model's nodes and labels are unchanged. *)
Theorem build_trades_wf (nDates : nat) (g : graph) (pf : gmap string trade) (st : trades_state) :
  wf g -> build_trades nDates g pf = Ok st -> wf (ts_graph st) /\ extends g (ts_graph st).
Proof.
  intros Hwf H. destruct (build_trades_inv _ _ _ _ Hwf H) as [Hsteps _].
  split; [exact (rtc_api_step_wf _ _ Hsteps Hwf)|exact (rtc_api_step_extends _ _ Hsteps)].
Qed.

(** C4: The trades' subgraphs are built as lines 171-188 chain them: in
    trade id order, each trade's contributor runs under the prefix
    [id + "_"] on the graph the previous trade left, starting from the
    model's graph, the last graph is the engine's, and each trade's
    recorded range is the interval of nodes its own contribution appended
    ([firstNode] read before and [lastNode] after the build). *)
Theorem build_trades_chain nDates g0 pf st :
  build_trades nDates g0 pf = Ok st ->
  exists gs, length gs = S (length (portfolio_trades pf)) /\ gs !! 0 = Some g0 /\
    gs !! length (portfolio_trades pf) = Some (ts_graph st) /\
    forall k id t, portfolio_trades pf !! k = Some (id, t) ->
      exists eng g g', engine_of id t = Ok eng /\ gs !! k = Some g /\ gs !! S k = Some g' /\
        build (engine_cg eng) (setPrefix (id +:+ "_") g) = Ok g' /\
        tradeNodeRanges st !! id = Some (size g, size g').
Proof. intros H. exact (add_trades_chain _ _ _ _ (portfolio_trades_NoDup pf) H). Qed.

Lemma duplicate_portfolio_err N pf e :
  duplicate_portfolio N pf = Err e -> ~ is_eval_error e.
Proof.
  destruct N; simpl; [|by intros [= <-] []].
  apply (res_foldl_err (fun e => ~ is_eval_error e)). intros acc i e'.
  apply (res_foldl_err (fun e => ~ is_eval_error e)). intros acc' [id t] e''.
  unfold portfolio_add. simpl. case_match; [by intros [= <-] []|done].
Qed.

(** A trade's contribution throws only the trade's and the graph's errors. *)
Lemma build_trades_err nDates g pf e :
  build_trades nDates g pf = Err e -> ~ is_eval_error e.
Proof.
  apply (res_foldl_err (fun e => ~ is_eval_error e)). intros st [id t] e' H.
  unfold add_trade, lookup_amc_nodes in H. res_err_inv; try (by intros []).
  - destruct t as [|[]]; simpl in H; try discriminate; injection H as <-; by intros [].
  - apply (res_mapM_err (fun e => ~ is_eval_error e)) in H; [done|].
    by intros i e'' (? & _ & ->)%res_map_err_Err [].
Qed.

(** C3: The engine never fails with an unbound input: the value store is
    sized to the graph and filled with zeros before any binding (line 199),
    so the only evaluation failure left is an operator failure. *)
Theorem run_no_unbound_input (cfg : engine_config) (i p : nat) :
  run cfg <> Err (EvalError (UnboundInput i p)).
Proof.
  unfold run. intros H.
  destruct (duplicate_portfolio _ _) as [pf|e] eqn:Hpf; cbn [res_bind] in H.
  2: { injection H as ->. by apply duplicate_portfolio_err in Hpf. }
  destruct (ql_require _ _) as [[]|e] eqn:Hreq; cbn [res_bind] in H.
  2: { injection H as ->. revert Hreq. unfold ql_require. by case_match. }
  destruct (build_trades _ _ _) as [st|e] eqn:Hbt; cbn [res_bind] in H.
  2: { injection H as ->. by apply build_trades_err in Hbt. }
  destruct (forwardEvaluation _ _ _ _) as [vals|e] eqn:Hev; cbn [res_bind res_map_err] in H; [done|].
  injection H as ->.
  pose proof (model_graph_wf (model cfg)) as Hwf0.
  destruct (build_trades_inv _ _ _ _ Hwf0 Hbt) as [Hsteps _].
  pose proof (rtc_api_step_wf _ _ Hsteps Hwf0) as Hwf.
  pose proof (forwardEvaluation_refines (ts_graph st) (keep_nodes (size (ts_graph st)) (amcNpvNodes st))
                (bound_values cfg (ts_graph st)) Hwf) as Href.
  rewrite Hev in Href. destruct (forward_reference _ _) as [ref|e] eqn:Hr; [done|]. subst e.
  by apply (reference_no_unbound _ _ i p Hwf (all_bound_bound_values cfg (ts_graph st))).
Qed.

(** ** Inputs of the forward evaluation *)

Lemma set_variate_other rv path p vals jk node :
  node ∉ concat rv -> set_variate rv path p vals jk !! node = vals !! node.
Proof.
  intros Hn. destruct jk as [j k]. unfold set_variate.
  destruct (rv !! k) as [row|] eqn:Hrow; simpl; [|done].
  destruct (row !! j) as [n|] eqn:Hn'; simpl; [|done].
  destruct (p !! j ≫= (.!! k)); [|done].
  rewrite list_lookup_alter_ne; [done|]. intros ->. apply Hn.
  apply list_elem_of_In, in_concat. exists row.
  split; apply list_elem_of_In; by eapply list_elem_of_lookup_2.
Qed.

Lemma populate_paths_other G rv nSteps s path count vals node :
  node ∉ concat rv -> populate_paths G rv nSteps s path count vals !! node = vals !! node.
Proof.
  intros Hn. revert s path vals. induction count as [|c IH]; intros s path vals; simpl; [done|].
  destruct (next G s) as [p s']. rewrite IH. unfold populate_path.
  apply (foldl_invariant (fun w => w !! node = vals !! node)); [|done].
  intros w jk _ Hw. by rewrite set_variate_other.
Qed.

Lemma populate_random_variates_other mk rv n vals node :
  node ∉ concat rv -> populate_random_variates mk rv n vals !! node = vals !! node.
Proof. intros Hn. unfold populate_random_variates. destruct rv; [done|]. by apply populate_paths_other. Qed.

Lemma set_variate_hit rv path p vals j k node :
  rv !! k ≫= (.!! j) = Some node ->
  set_variate rv path p vals (j, k) !! node = fmap (path_update p j k path) <$> vals !! node.
Proof.
  intros Hn. unfold set_variate, path_update. rewrite Hn.
  destruct (p !! j ≫= (.!! k)); [by rewrite list_lookup_alter_eq|].
  destruct (vals !! node) as [[]|]; simpl; rewrite ?option_fmap_id; done.
Qed.

Lemma set_variate_miss rv path p vals j k j' k' node :
  NoDup (concat rv) -> rv !! k ≫= (.!! j) = Some node -> (j', k') <> (j, k) ->
  set_variate rv path p vals (j', k') !! node = vals !! node.
Proof.
  intros Hnd Hn Hne. unfold set_variate.
  destruct (rv !! k' ≫= (.!! j')) as [n'|] eqn:Hn'; [|done].
  destruct (p !! j' ≫= (.!! k')); [|done].
  apply list_lookup_alter_ne. intros <-.
  destruct (concat_lookup_unique rv k' j' k j n' Hnd Hn' Hn) as [-> ->]. by apply Hne.
Qed.

(** One path touches the variate of [rv[k][j]] once, at slot [path]. *)
Lemma populate_path_hit rv nSteps path p vals j k node :
  NoDup (concat rv) -> rv !! k ≫= (.!! j) = Some node -> j < nSteps ->
  populate_path rv nSteps path p vals !! node = fmap (path_update p j k path) <$> vals !! node.
Proof.
  intros Hnd Hn Hj. unfold populate_path.
  assert (k < length rv).
  { destruct (rv !! k) eqn:E; [|done]. by eapply lookup_lt_Some. }
  apply (foldl_single_hit _ _ (j, k)).
  - apply NoDup_list_prod; apply NoDup_seq.
  - apply elem_of_list_prod; apply elem_of_seq; lia.
  - intros [j' k'] vs' _ Hne. by eapply set_variate_miss.
  - intros vs'. by apply set_variate_hit.
Qed.

Lemma populate_paths_hit G rv nSteps path count vals j k node :
  NoDup (concat rv) -> rv !! k ≫= (.!! j) = Some node -> j < nSteps ->
  populate_paths G rv nSteps (cursor G path) path count vals !! node =
  fmap (paths_update G j k path count) <$> vals !! node.
Proof.
  intros Hnd Hn Hj. revert path vals. induction count as [|c IH]; intros path vals; simpl.
  - unfold paths_update. simpl. destruct (vals !! node) as [[]|]; simpl; rewrite ?option_fmap_id; done.
  - destruct (next G (cursor G path)) as [p s'] eqn:E.
    replace s' with (cursor G (S path)) by (by rewrite cursor_S, E).
    replace p with (nth_path G path) by (unfold nth_path; by rewrite E). rewrite IH.
    rewrite (populate_path_hit _ _ _ _ _ j k node) by done.
    destruct (vals !! node) as [[x|]|]; [|done|done]. simpl. done.
Qed.

(** The later paths leave slot [p] alone; path [p] itself writes it. *)
Lemma paths_update_slot G j k path count x q :
  paths_update G j k path count x !! q =
  if bool_decide (path <= q < path + count) then
    match nth_path G q !! j ≫= (.!! k) with
    | Some y => (fun _ => y) <$> x !! q
    | None => x !! q
    end
  else x !! q.
Proof.
  unfold paths_update. case_bool_decide.
  - destruct (nth_path G q !! j ≫= (.!! k)) as [y|] eqn:Ey.
    + apply (foldl_single_hit _ _ q); [apply NoDup_seq|apply elem_of_seq; lia| |].
      * intros q' x' _ Hne. unfold path_update.
        destruct (nth_path G q' !! j ≫= (.!! k)); [|done]. by apply list_lookup_insert_ne.
      * intros x'. unfold path_update, rv_set. rewrite Ey. cbn iota beta. unfold RandomVariable. rewrite list_lookup_insert. case_decide as Hd.
        { destruct (lookup_lt_is_Some_2 x' q) as [? ->]; [lia|done]. }
        destruct (x' !! q) eqn:E; [|done]. exfalso. apply Hd. split; [done|]. by eapply lookup_lt_Some.
    + apply foldl_untouched. intros q' x' _. unfold path_update.
      destruct (decide (q' = q)) as [->|Hne]; [by rewrite Ey|].
      destruct (nth_path G q' !! j ≫= (.!! k)); [|done]. by apply list_lookup_insert_ne.
  - apply foldl_untouched. intros q' x' Hq' . rewrite elem_of_seq in Hq'.
    unfold path_update. destruct (nth_path G q' !! j ≫= (.!! k)); [|done]. apply list_lookup_insert_ne. lia.
Qed.

Lemma populate_model_parameters_other n ps vals node :
  node ∉ ps.*1 -> populate_model_parameters n ps vals !! node = vals !! node.
Proof.
  intros Hn. apply (lookup_foldl_insert_other fst (fun p => Some (rv_const n (Fin p.2)))).
  intros b Hb <-. apply Hn. by apply list_elem_of_fmap_2.
Qed.

Lemma populate_constants_other n cs vals node :
  node ∉ cs.*2 -> populate_constants n cs vals !! node = vals !! node.
Proof.
  intros Hn. apply (lookup_foldl_insert_other snd (fun c => Some (rv_const n (Fin c.1)))).
  intros b Hb <-. apply Hn. by apply list_elem_of_fmap_2.
Qed.

(** C7: An input node that the engine never binds reads zero: a node of
    the graph that is not a random variate, not a constant and not a model
    parameter holds [0] on every path in the store handed to the forward
    evaluation, because the store is created filled with zeros (line 199). *)
Theorem bound_values_unbound_zero (cfg : engine_config) (g : graph) (node : nat) :
  node < size g ->
  node ∉ concat (randomVariates (model cfg)) ->
  node ∉ (constants g).*2 ->
  node ∉ (modelParameters (model cfg)).*1 ->
  bound_values cfg g !! node = Some (Some (rv_const (samples (model cfg)) (Fin 0))).
Proof.
  intros Hlt Hrv Hc Hp. unfold bound_values.
  rewrite populate_model_parameters_other, populate_constants_other,
    populate_random_variates_other by done.
  by apply lookup_replicate_2.
Qed.

Lemma length_paths_update G j k path count x :
  length (paths_update G j k path count x) = length x.
Proof.
  unfold paths_update. apply (foldl_invariant (fun w => length w = length x)); [|done].
  intros w q _ Hw. unfold path_update, rv_set, RandomVariable.
  destruct (_ ≫= _); [|done]. by rewrite length_insert.
Qed.

(** C8: The random variates are bound path by path (lines 199-215): when
    no node occurs twice in the model's variate table [rv], the node
    [rv[k][j]] of a time step [j < rv.front().size()] that held a path
    vector [x0] holds afterwards a vector of the same length whose slot
    [p], for every path [p] below the model's size, is the value
    [p.value[j][k]] of the [p]-th draw of the generator made with
    dimension [rv.size()] and [rv.front().size()] time steps, and whose
    slots from the model's size on are those of [x0]. *)
Theorem populate_random_variates_binds mk rv nPaths vals node j k x0 :
  NoDup (concat rv) -> rv !! k ≫= (.!! j) = Some node -> j < length (hd [] rv) ->
  vals !! node = Some (Some x0) ->
  exists x, populate_random_variates mk rv nPaths vals !! node = Some (Some x) /\
    length x = length x0 /\
    (forall p y, p < nPaths -> p < length x0 ->
       nth_path (mk (length rv) (length (hd [] rv))) p !! j ≫= (.!! k) = Some y -> x !! p = Some y) /\
    (forall p, nPaths <= p -> x !! p = x0 !! p).
Proof.
  intros Hnd Hn Hj Hx0. destruct rv as [|rv0 rvs]; [done|]. simpl in Hj.
  unfold populate_random_variates. cbv zeta.
  set (G := mk (length (rv0 :: rvs)) (length rv0)).
  exists (paths_update G j k 0 nPaths x0). change (gen_init G) with (cursor G 0).
  rewrite (populate_paths_hit _ _ _ _ _ _ j k node) by done. unfold RandomVariable in *. rewrite Hx0.
  split_and!; [done|apply length_paths_update| |].
  - intros p y Hp Hpx Hy. rewrite paths_update_slot, bool_decide_true by lia.
    change (mk (length (rv0 :: rvs)) (length (hd [] (rv0 :: rvs)))) with G in Hy. rewrite Hy. unfold RandomVariable.
    by destruct (lookup_lt_is_Some_2 x0 p) as [? ->].
  - intros p Hp. by rewrite paths_update_slot, bool_decide_false by lia.
Qed.

(** C6: Model parameters are bound last (lines 227-230): when the model's
    parameter list names each node once, every parameter node holds its
    parameter's value on every path, whatever constant or variate was
    written to it before. *)
Theorem bound_values_parameter (cfg : engine_config) (g : graph) (node : nat) (v : Q) :
  NoDup (modelParameters (model cfg)).*1 -> (node, v) ∈ modelParameters (model cfg) ->
  node < size g ->
  bound_values cfg g !! node = Some (Some (rv_const (samples (model cfg)) (Fin v))).
Proof.
  intros Hnd Hin Hlt. unfold bound_values, populate_model_parameters.
  refine (lookup_foldl_insert_NoDup fst (fun p => Some (rv_const _ (Fin p.2))) _ _ (node, v) Hnd Hin _).
  simpl. by rewrite (proj1 (all_bound_before_parameters cfg g)).
Qed.

(** ** Guards and the portfolio *)

Lemma add_trade_entry nDates st id t st' :
  add_trade nDates st (id, t) = Ok st' ->
  (exists eng, engine_of id t = Ok eng) /\ entry_ok nDates st' id /\
  forall id', entry_ok nDates st id' -> entry_ok nDates st' id'.
Proof.
  intros H. unfold add_trade in H. res_inv. rename x into eng, x0 into g', x1 into tmp.
  split; [eauto|]. split.
  - split; cbn [tradeNodeRanges amcNpvNodes]; [|by rewrite lookup_insert_eq].
    exists tmp. rewrite lookup_insert_eq. split; [done|]. by eapply length_lookup_amc_nodes.
  - intros id' [(ns & Hns & Hlen) [rg Hrg]]. unfold entry_ok. cbn [tradeNodeRanges amcNpvNodes].
    destruct (decide (id = id')) as [<-|Hne].
    + split; [|by rewrite lookup_insert_eq]. exists tmp. rewrite lookup_insert_eq.
      split; [done|]. by eapply length_lookup_amc_nodes.
    + rewrite !lookup_insert_ne by done. split; [eauto|eauto].
Qed.

Lemma build_trades_entries nDates l st st' :
  res_foldl (add_trade nDates) st l = Ok st' ->
  forall id t, (id, t) ∈ l -> (exists eng, engine_of id t = Ok eng) /\ entry_ok nDates st' id.
Proof.
  revert st. induction l as [|[id0 t0] l IH]; intros st H id t Hin; [by apply elem_of_nil in Hin|].
  simpl in H. apply res_bind_Ok in H as (st1 & H1 & Hrest).
  destruct (add_trade_entry _ _ _ _ _ H1) as (Heng & Hok & _).
  apply elem_of_cons in Hin as [[= -> ->]|Hin]; [|by eapply IH].
  split; [done|]. eapply (res_foldl_invariant (fun s => entry_ok nDates s id0)); [|exact Hok|exact Hrest].
  intros s0 [id2 t2] s' _ Hs Hstep. by apply (add_trade_entry _ _ _ _ _ Hstep).
Qed.

Lemma portfolio_trades_elem pf id t : pf !! id = Some t -> (id, t) ∈ portfolio_trades pf.
Proof.
  intros H. unfold portfolio_trades. rewrite (merge_sort_Permutation _ _).
  by apply elem_of_map_to_list.
Qed.

(** C5: What a successful run guarantees: the model was discretized with
    Euler (line 106), and every trade of the portfolio the engine actually
    used is a [ScriptedInstrument] priced by a [ScriptedInstrumentPricingEngineCG]
    (lines 172-176), has an AMC NPV node list of [1 + #simulation dates]
    nodes and a node range.  A single trade failing a check aborts the whole
    run. *)
Theorem run_guards (cfg : engine_config) (r : engine_result) :
  run cfg = Ok r ->
  discretization cfg = Euler /\
  exists pf, duplicate_portfolio (env_N cfg) (input_portfolio cfg) = Ok pf /\
  forall id t, pf !! id = Some t ->
    (exists eng, engine_of id t = Ok eng) /\
    (exists ns, er_amcNpvNodes r !! id = Some ns /\ length ns = S (simulationDates cfg)) /\
    is_Some (er_tradeNodeRanges r !! id).
Proof.
  intros (pf & st & Hpf & Heul & Hbt & _ & -> & -> & _)%run_Ok.
  split; [done|]. exists pf. split; [done|]. intros id t Hid.
  destruct (build_trades_entries _ _ _ _ Hbt id t (portfolio_trades_elem _ _ _ Hid))
    as (? & ? & ?). done.
Qed.

(** The trades' node ranges (lines 177-181): after a successful run,
    the range [(firstNode, lastNode)] recorded for a trade lies between the
    size of the model's graph and the size of the final graph, and the
    ranges of two different trades do not overlap, so every node of the
    graph beyond the model's part is attributed to at most one trade. *)
Theorem run_node_ranges (cfg : engine_config) (r : engine_result) id a b :
  run cfg = Ok r -> er_tradeNodeRanges r !! id = Some (a, b) ->
  size (model_graph (model cfg)) <= a <= b /\ b <= size (er_graph r) /\
  forall id' a' b', id' <> id -> er_tradeNodeRanges r !! id' = Some (a', b') -> b' <= a \/ b <= a'.
Proof.
  intros (pf & st & _ & _ & Hbt & -> & _ & -> & _)%run_Ok.
  by apply (build_trades_ranges _ _ _ _ Hbt).
Qed.

Lemma portfolio_trades_elem_iff pf id t : (id, t) ∈ portfolio_trades pf <-> pf !! id = Some t.
Proof. unfold portfolio_trades. rewrite (merge_sort_Permutation _ _). apply elem_of_map_to_list. Qed.

(** A loop of [Portfolio::add] under renamed ids that does not throw adds
    each trade under its new id. *)
Lemma portfolio_add_loop (f : string * trade -> string) l acc acc' :
  res_foldl (fun acc it => portfolio_add acc (f it) it.2) acc l = Ok acc' ->
  forall k t, acc' !! k = Some t <-> acc !! k = Some t \/ exists it, it ∈ l /\ k = f it /\ t = it.2.
Proof.
  revert acc. induction l as [|a l IH]; intros acc H k t; simpl in H.
  { injection H as <-. setoid_rewrite elem_of_nil. naive_solver. }
  apply res_bind_Ok in H as (acc1 & H1 & H). rewrite (IH acc1 H).
  unfold portfolio_add in H1. destruct (acc !! f a) eqn:Hfa; [done|]. injection H1 as <-.
  rewrite lookup_insert_Some. setoid_rewrite elem_of_cons. naive_solver.
Qed.

(** C10: The portfolio duplication left in the constructor (lines 54-65):
    when it does not throw, the portfolio the engine prices holds, for
    every trade [id] of the input and every [i] below the copy count
    [atoi(getenv("N"))] converted to [Size] ([copy_count], which wraps a
    negative [N] to [2^64 + N]), the trade under the id [id_(i+1)], and
    nothing else; in particular [N = 0] leaves it empty. *)
Theorem duplicate_portfolio_copies (n : Z) (pf pf' : gmap string trade) :
  duplicate_portfolio (Some n) pf = Ok pf' ->
  forall k t, pf' !! k = Some t <-> exists id i, pf !! id = Some t /\ i < copy_count n /\ k = copy_id id i.
Proof.
  simpl. generalize (copy_count n) as c. intros c. revert pf'.
  induction c as [|c IH]; intros pf' H k t.
  { cbn in H. injection H as <-. rewrite lookup_empty. split; [done|]. intros (? & ? & _ & ? & _). lia. }
  rewrite seq_S, res_foldl_app in H. apply res_bind_Ok in H as (pf1 & H1 & H). simpl in H.
  apply res_bind_Ok in H as (pf2 & H2 & [= <-]). unfold add_copies in H2.
  rewrite (portfolio_add_loop _ _ _ _ H2), (IH _ H1).
  split.
  - intros [(id & i & ? & ? & ->)|([id t'] & Hin%portfolio_trades_elem_iff & -> & ->)];
      [exists id, i; split_and!; auto; lia|].
    exists id, c. simpl. split_and!; auto.
  - intros (id & i & Ht & Hi & ->). destruct (decide (i = c)) as [->|Hne].
    + right. exists (id, t). split_and!; [by apply portfolio_trades_elem_iff|done|done].
    + left. exists id, i. split_and!; auto; lia.
Qed.

End XvaEngineCG.
