(* ===== verification/CrossAssetModelData.v ===== *)
(** * Cross asset model data (OREData/ored/model/crossassetmodeldata.cpp)

    [CrossAssetModelData] is the configuration of the cross asset model:
    domestic currency, the currencies, equities, inflation indices and credit
    names it covers, and one component configuration per name (LGM for rates
    and credit, Black-Scholes for FX and equity, DK/JY for inflation, CIR for
    credit), plus the instantaneous correlations.  [fromXML] reads the
    component configurations into maps keyed by name, then [buildIrConfigs],
    [buildFxConfigs], [buildEqConfigs], [buildInfConfigs] and
    [buildCrConfigs] align them with the name lists, falling back on the
    entry keyed ["default"]; [validate] checks that the FX components line
    up with the foreign rate components.

    The per-component data classes ([IrLgmData], [FxBsData], ...) are not
    under src/; they are records of the fields their constructors take at
    lines 447-452, 477-479, 504-506 and 577-582.  XML parsing itself is not
    modelled: [fromXML] takes the parsed document ([CamXml]), the values and
    the child configurations in document order.  The correlation matrix
    builder and [close_enough] are not under src/ and are section
    variables.

    Each method is a function of the members it reads returning the members
    it writes; a thrown [QL_FAIL]/[QL_REQUIRE] is an [Err]. *)

From S2P Require Import Prelude.
From Stdlib Require Import QArith.
Local Open Scope nat_scope.

#[export] Instance Q_eq_dec : EqDecision Q.
Proof. solve_decision. Defined.

Module CamData.

(** ** Component configurations *)

(** The parameters an LGM configuration carries besides its name
    (constructor arguments of [IrLgmData] and [CrLgmData]). *)
Record LgmParams : Type := {
  calibrationType : string; reversionType : string; volatilityType : string;
  calibrateH : bool; hParamType : string; hTimes : list Q; hValues : list Q;
  calibrateA : bool; aParamType : string; aTimes : list Q; aValues : list Q;
  shiftHorizon : Q; scaling : Q;
  optionExpiries : list string; optionTerms : list string; optionStrikes : list string }.

(** The parameters of a Black-Scholes configuration ([FxBsData], [EqBsData]). *)
Record BsParams : Type := {
  bs_calibrationType : string; calibrateSigma : bool; sigmaParamType : string;
  sigmaTimes : list Q; sigmaValues : list Q;
  bs_optionExpiries : list string; bs_optionStrikes : list string }.

Record IrLgmData : Type := { ir_ccy : string; ir_params : LgmParams }.
Record FxBsData : Type := { foreignCcy : string; domesticCcy : string; fx_params : BsParams }.
Record EqBsData : Type := { eqName : string; eq_currency : string; eq_params : BsParams }.
Record CrLgmData : Type := { crl_name : string; crl_params : LgmParams }.
Record CrCirData : Type := { crc_name : string; crc_params : list Q }.

(** [InflationModelData] is a base class with the two subclasses [InfDkData]
    and [InfJyData]; [InfOther] stands for any other subclass. *)
Inductive InfModelKind : Type := InfDk | InfJy | InfOther.
Record InflationModelData : Type := { inf_kind : InfModelKind; inf_index : string }.

(** A correlation factor [type:name] with an optional index
    ([Null<Size>] is [None]). *)
Record CorrelationFactor : Type := { cf_type : string; cf_name : string; cf_index : option nat }.
Definition CorrelationKey : Type := CorrelationFactor * CorrelationFactor.

#[export] Instance LgmParams_eq_dec : EqDecision LgmParams.
Proof. solve_decision. Defined.
#[export] Instance BsParams_eq_dec : EqDecision BsParams.
Proof. solve_decision. Defined.
#[export] Instance IrLgmData_eq_dec : EqDecision IrLgmData.
Proof. solve_decision. Defined.
#[export] Instance FxBsData_eq_dec : EqDecision FxBsData.
Proof. solve_decision. Defined.
#[export] Instance EqBsData_eq_dec : EqDecision EqBsData.
Proof. solve_decision. Defined.
#[export] Instance CrLgmData_eq_dec : EqDecision CrLgmData.
Proof. solve_decision. Defined.
#[export] Instance CrCirData_eq_dec : EqDecision CrCirData.
Proof. solve_decision. Defined.
#[export] Instance CorrelationFactor_eq_dec : EqDecision CorrelationFactor.
Proof. solve_decision. Defined.

(** ** The members of [CrossAssetModelData] *)

Record CrossAssetModelData : Type := {
  domesticCurrency : string;
  currencies : list string;
  equities : list string;
  infindices : list string;
  creditNames : list string;
  bootstrapTolerance : Q;
  irConfigs : list IrLgmData;
  fxConfigs : list FxBsData;
  eqConfigs : list EqBsData;
  infConfigs : list InflationModelData;
  crLgmConfigs : list CrLgmData;
  crCirConfigs : list CrCirData;
  correlations : list (CorrelationKey * Q) }.

(** The exceptions, one per [QL_FAIL]/[QL_REQUIRE]. *)
Inductive cam_error : Type :=
  | NoCorrelations                       (* line 86 *)
  | MissingIr (ccy : string)             (* line 444 *)
  | MissingFx (ccy : string)             (* line 474 *)
  | MissingEq (name : string)            (* line 501 *)
  | MissingInf (index : string)          (* line 533 *)
  | InfNotDkJy                           (* line 543 *)
  | CrLgmAndCir (name : string)          (* line 564, empty message *)
  | MissingCr (name : string)            (* line 574 *)
  | NoIrData                             (* line 197 *)
  | FxCountMismatch                      (* line 198 *)
  | CcyMismatch (i : nat).               (* line 200 *)

(** ** The builders (lines 429-586) *)

(** The IR configuration of one currency (lines 437-453): its own, or the
    default one under the currency's name. *)
Definition ir_config_for (irDataMap : gmap string IrLgmData) (ccy : string)
    : res cam_error IrLgmData :=
  match irDataMap !! ccy with
  | Some c => Ok c
  | None =>
      match irDataMap !! "default" with
      | Some def => Ok {| ir_ccy := ccy; ir_params := ir_params def |}
      | None => Err (MissingIr ccy)
      end
  end.

(** [irConfigs_.resize(currencies_.size())], then slot [i] is set for
    currency [i]: the new [irConfigs_]. *)
Definition buildIrConfigs (currencies : list string) (irDataMap : gmap string IrLgmData)
    : res cam_error (list IrLgmData) :=
  res_mapM (ir_config_for irDataMap) currencies.

(** The FX loop (lines 464-484) appends to [fxConfigs_], skipping the
    domestic currency. *)
Definition buildFxConfigs (domesticCurrency : string) (currencies : list string)
    (fxConfigs : list FxBsData) (fxDataMap : gmap string FxBsData) : res cam_error (list FxBsData) :=
  res_foldl (fun acc ccy =>
    if decide (ccy = domesticCurrency) then Ok acc
    else match fxDataMap !! ccy with
         | Some c => Ok (acc ++ [c])
         | None =>
             match fxDataMap !! "default" with
             | Some def => Ok (acc ++ [{| foreignCcy := ccy; domesticCcy := domesticCcy def;
                                          fx_params := fx_params def |}])
             | None => Err (MissingFx ccy)
             end
         end) fxConfigs currencies.

(** Lines 493-511: appends to [eqConfigs_]. *)
Definition buildEqConfigs (equities : list string) (eqConfigs : list EqBsData)
    (eqDataMap : gmap string EqBsData) : res cam_error (list EqBsData) :=
  res_foldl (fun acc name =>
    match eqDataMap !! name with
    | Some c => Ok (acc ++ [c])
    | None =>
        match eqDataMap !! "default" with
        | Some def => Ok (acc ++ [{| eqName := name; eq_currency := eq_currency def;
                                     eq_params := eq_params def |}])
        | None => Err (MissingEq name)
        end
    end) eqConfigs equities.

(** Lines 523-548: appends to [infConfigs_]; the default is copied through
    its subclass's copy constructor, its index name included. *)
Definition buildInfConfigs (infindices : list string) (infConfigs : list InflationModelData)
    (mp : gmap string InflationModelData) : res cam_error (list InflationModelData) :=
  res_foldl (fun acc indexName =>
    match mp !! indexName with
    | Some c => Ok (acc ++ [c])
    | None =>
        let! imData := of_option (mp !! "default") (MissingInf indexName) in
        match inf_kind imData with
        | InfDk | InfJy => Ok (acc ++ [imData])
        | InfOther => Err InfNotDkJy
        end
    end) infConfigs infindices.

(** One iteration of the credit loop (lines 560-584): the name goes to LGM
    (its own, which must have no CIR twin), to CIR, or to a copy of the
    LGM default; the CIR default is never used. *)
Definition cr_step (crLgmDataMap : gmap string CrLgmData) (crCirDataMap : gmap string CrCirData)
    (acc : list CrLgmData * list CrCirData) (name : string)
    : res cam_error (list CrLgmData * list CrCirData) :=
  let '(lgm, cir) := acc in
  match crLgmDataMap !! name with
  | Some c =>
      let! _ := ql_require (bool_decide (crCirDataMap !! name = None)) (CrLgmAndCir name) in
      Ok (lgm ++ [c], cir)
  | None =>
      match crCirDataMap !! name with
      | Some c => Ok (lgm, cir ++ [c])
      | None =>
          match crLgmDataMap !! "default" with
          | Some def => Ok (lgm ++ [{| crl_name := name; crl_params := crl_params def |}], cir)
          | None => Err (MissingCr name)
          end
      end
  end.

(** Lines 558-585: both credit lists are cleared, then the loop runs over
    the credit names. *)
Definition buildCrConfigs (creditNames : list string) (crLgmDataMap : gmap string CrLgmData)
    (crCirDataMap : gmap string CrCirData) : res cam_error (list CrLgmData * list CrCirData) :=
  res_foldl (cr_step crLgmDataMap crCirDataMap) ([], []) creditNames.

(** [validate] (lines 196-202). *)
Definition validate (irConfigs : list IrLgmData) (fxConfigs : list FxBsData) : res cam_error unit :=
  let! _ := ql_require (bool_decide (0 < length irConfigs)) NoIrData in
  let! _ := ql_require (bool_decide (length fxConfigs = length irConfigs - 1)) FxCountMismatch in
  res_foldl (fun _ i =>
    ql_require (bool_decide (option_map foreignCcy (fxConfigs !! i) =
                             option_map ir_ccy (irConfigs !! (i + 1)))) (CcyMismatch i))
    tt (seq 0 (length fxConfigs)).

(** ** One iteration of each loop, as the list it appends *)

Definition fx_item (dom : string) (fxDataMap : gmap string FxBsData) (ccy : string)
    : res cam_error (list FxBsData) :=
  if decide (ccy = dom) then Ok []
  else match fxDataMap !! ccy with
       | Some c => Ok [c]
       | None =>
           match fxDataMap !! "default" with
           | Some def => Ok [{| foreignCcy := ccy; domesticCcy := domesticCcy def; fx_params := fx_params def |}]
           | None => Err (MissingFx ccy)
           end
       end.

Definition eq_item (eqDataMap : gmap string EqBsData) (name : string) : res cam_error (list EqBsData) :=
  match eqDataMap !! name with
  | Some c => Ok [c]
  | None =>
      match eqDataMap !! "default" with
      | Some def => Ok [{| eqName := name; eq_currency := eq_currency def; eq_params := eq_params def |}]
      | None => Err (MissingEq name)
      end
  end.

Definition inf_item (mp : gmap string InflationModelData) (indexName : string)
    : res cam_error (list InflationModelData) :=
  match mp !! indexName with
  | Some c => Ok [c]
  | None =>
      let! imData := of_option (mp !! "default") (MissingInf indexName) in
      match inf_kind imData with
      | InfDk | InfJy => Ok [imData]
      | InfOther => Err InfNotDkJy
      end
  end.

(** A map whose entries are stored under their own name, as [fromXML]
    builds them. *)
Definition keyed {A} (key : A -> string) (m : gmap string A) : Prop :=
  forall k c, m !! k = Some c -> key c = k.

(** ** [clear], [fromXML] and the equality operators *)

(** [pairToStrings] (lines 204-207), the two names of a pair; nothing in
    the file calls it. *)
Definition pairToStrings (p : string * string) : list string := [p.1; p.2].

(** [clear] (lines 184-194) empties the name lists, the configuration
    lists and the correlations; the domestic currency, inflation indices,
    credit names and tolerance are kept. *)
Definition clear (d : CrossAssetModelData) : CrossAssetModelData := {|
  domesticCurrency := domesticCurrency d; currencies := []; equities := [];
  infindices := infindices d; creditNames := creditNames d;
  bootstrapTolerance := bootstrapTolerance d;
  irConfigs := []; fxConfigs := []; eqConfigs := []; infConfigs := [];
  crLgmConfigs := []; crCirConfigs := []; correlations := [] |}.

(** The parsed [CrossAssetModel] node: values and child configurations in
    document order; [x_infModels] is [None] without an
    [InflationIndexModels] node and lists its children as (node name,
    index); [x_correlations] is [None] without an
    [InstantaneousCorrelations] node. *)
Record CamXml : Type := {
  x_domesticCcy : string;
  x_currencies : list string;
  x_equities : list string;
  x_infindices : list string;
  x_creditNames : list string;
  x_bootstrapTolerance : Q;
  x_irModels : list IrLgmData;
  x_fxModels : list FxBsData;
  x_eqModels : list EqBsData;
  x_infModels : option (list (string * string));
  x_crLgmModels : list CrLgmData;
  x_crCirModels : list CrCirData;
  x_correlations : option (list (CorrelationFactor * CorrelationFactor * Q)) }.

(** [m[key(config)] = config] for each configuration in document order: a
    later one with the same key replaces an earlier one. *)
Definition key_map {A} (key : A -> string) (configs : list A) : gmap string A :=
  foldl (fun m c => <[key c := c]> m) ∅ configs.

(** Lines 336-356: LGM and DodgsonKainth nodes are DK data, JarrowYildirim
    nodes JY data, any other node is skipped. *)
Definition inf_model_map (nodes : list (string * string)) : gmap string InflationModelData :=
  foldl (fun mp '(nodeName, index) =>
    if bool_decide (nodeName = "LGM") || bool_decide (nodeName = "DodgsonKainth")
    then <[index := {| inf_kind := InfDk; inf_index := index |}]> mp
    else if decide (nodeName = "JarrowYildirim")
    then <[index := {| inf_kind := InfJy; inf_index := index |}]> mp
    else mp) ∅ nodes.

Section Correlations.

(** [CorrelationMatrixBuilder::addCorrelation] and [close_enough] are not
    under src/. *)
Context (addCorrelation : list (CorrelationKey * Q) -> CorrelationFactor -> CorrelationFactor -> Q ->
                          list (CorrelationKey * Q)).
Context (close_enough : Q -> Q -> bool).

(** [InstantaneousCorrelations::fromXML] (lines 71-90). *)
Definition correlations_fromXML (node : option (list (CorrelationFactor * CorrelationFactor * Q)))
    : res cam_error (list (CorrelationKey * Q)) :=
  match node with
  | Some cs => Ok (foldl (fun cmb '(f1, f2, corr) => addCorrelation cmb f1 f2 corr) [] cs)
  | None => Err NoCorrelations
  end.

(** [CrossAssetModelData::fromXML] (lines 209-427) after parsing. *)
Definition fromXML (doc : CamXml) (d : CrossAssetModelData) : res cam_error CrossAssetModelData :=
  let d0 := clear d in
  let irDataMap := key_map ir_ccy (x_irModels doc) in
  let! ir := buildIrConfigs (x_currencies doc) irDataMap in
  let fxDataMap := key_map foreignCcy (x_fxModels doc) in
  let! fx := buildFxConfigs (x_domesticCcy doc) (x_currencies doc) (fxConfigs d0) fxDataMap in
  let eqDataMap := key_map eqName (x_eqModels doc) in
  let! eq := buildEqConfigs (x_equities doc) (eqConfigs d0) eqDataMap in
  let! inf := match x_infModels doc with
              | Some nodes => buildInfConfigs (x_infindices doc) (infConfigs d0) (inf_model_map nodes)
              | None => Ok (infConfigs d0)
              end in
  let! '(lgm, cir) := buildCrConfigs (x_creditNames doc) (key_map crl_name (x_crLgmModels doc))
                        (key_map crc_name (x_crCirModels doc)) in
  let! corr := correlations_fromXML (x_correlations doc) in
  let! _ := validate ir fx in
  Ok {| domesticCurrency := x_domesticCcy doc; currencies := x_currencies doc;
        equities := x_equities doc; infindices := x_infindices doc;
        creditNames := x_creditNames doc; bootstrapTolerance := x_bootstrapTolerance doc;
        irConfigs := ir; fxConfigs := fx; eqConfigs := eq; infConfigs := inf;
        crLgmConfigs := lgm; crCirConfigs := cir; correlations := corr |}.

(** [InstantaneousCorrelations::operator==] (lines 115-127): walk both
    sorted maps together; keys must agree and values be close. *)
Fixpoint correlations_eqb (c1 c2 : list (CorrelationKey * Q)) : bool :=
  match c1, c2 with
  | (k1, v1) :: r1, (k2, v2) :: r2 =>
      if decide (k1 = k2) then close_enough v1 v2 && correlations_eqb r1 r2 else false
  | [], [] => true
  | _, _ => false
  end.

(** [InstantaneousCorrelations::operator!=] (lines 129-131). *)
Definition correlations_neqb (c1 c2 : list (CorrelationKey * Q)) : bool :=
  negb (correlations_eqb c1 c2).

(** [CrossAssetModelData::operator==] (lines 133-180).  The configuration
    classes' own [operator!=] are not under src/; structural equality of the
    configurations stands for them. *)
Definition cam_eqb (d rhs : CrossAssetModelData) : bool :=
  negb (correlations_neqb (correlations d) (correlations rhs)) &&
  bool_decide (domesticCurrency d = domesticCurrency rhs) &&
  bool_decide (currencies d = currencies rhs) && bool_decide (equities d = equities rhs) &&
  bool_decide (infindices d = infindices rhs) &&
  Qeq_bool (bootstrapTolerance d) (bootstrapTolerance rhs) &&
  bool_decide (length (irConfigs d) = length (irConfigs rhs)) &&
  bool_decide (length (fxConfigs d) = length (fxConfigs rhs)) &&
  bool_decide (length (eqConfigs d) = length (eqConfigs rhs)) &&
  bool_decide (length (infConfigs d) = length (infConfigs rhs)) &&
  bool_decide (length (crLgmConfigs d) = length (crLgmConfigs rhs)) &&
  bool_decide (length (crCirConfigs d) = length (crCirConfigs rhs)) &&
  bool_decide (irConfigs d = irConfigs rhs) && bool_decide (fxConfigs d = fxConfigs rhs) &&
  bool_decide (eqConfigs d = eqConfigs rhs) && bool_decide (crLgmConfigs d = crLgmConfigs rhs) &&
  bool_decide (crCirConfigs d = crCirConfigs rhs).

(** [CrossAssetModelData::operator!=] (line 182). *)
Definition cam_neqb (d rhs : CrossAssetModelData) : bool := negb (cam_eqb d rhs).

End Correlations.


(** ** Lemmas: the loops as maps *)

Lemma buildFxConfigs_mapM dom cs acc m :
  buildFxConfigs dom cs acc m = res_map (fun yss => acc ++ concat yss) (res_mapM (fx_item dom m) cs).
Proof. unfold buildFxConfigs. apply (res_foldl_append_mapM (fx_item dom m)). intros. unfold fx_item. repeat case_match; simpl; by rewrite ?app_nil_r. Qed.

Lemma buildEqConfigs_mapM names acc m :
  buildEqConfigs names acc m = res_map (fun yss => acc ++ concat yss) (res_mapM (eq_item m) names).
Proof. unfold buildEqConfigs. apply (res_foldl_append_mapM (eq_item m)). intros. unfold eq_item. repeat case_match; simpl; by rewrite ?app_nil_r. Qed.

Lemma buildInfConfigs_mapM names acc mp :
  buildInfConfigs names acc mp = res_map (fun yss => acc ++ concat yss) (res_mapM (inf_item mp) names).
Proof.
  unfold buildInfConfigs. apply (res_foldl_append_mapM (inf_item mp)). intros. unfold inf_item.
  destruct (mp !! x); [done|]. destruct (mp !! "default") as [d|]; simpl; [|done]. by destruct (inf_kind d).
Qed.

Lemma key_map_keyed {A} (key : A -> string) cs : keyed key (key_map key cs).
Proof.
  unfold key_map. apply foldl_invariant; [|intros k c; by rewrite lookup_empty].
  intros m c _ Hm k c'. destruct (decide (key c = k)) as [<-|Hne].
  - rewrite lookup_insert_eq. by intros [= <-].
  - rewrite lookup_insert_ne by done. apply Hm.
Qed.

Lemma ir_config_for_ccy m ccy c : keyed ir_ccy m -> ir_config_for m ccy = Ok c -> ir_ccy c = ccy.
Proof. unfold ir_config_for. intros Hk. repeat case_match; intros; simplify_eq; eauto. Qed.

Lemma buildIrConfigs_ccys cs m l : keyed ir_ccy m -> buildIrConfigs cs m = Ok l -> ir_ccy <$> l = cs.
Proof.
  intros Hk H%res_mapM_Ok. induction H; simpl; [done|]. f_equal; eauto using ir_config_for_ccy.
Qed.

(** The names of the configurations a successful [res_mapM] of items yields. *)
Lemma concat_items_names {A B} (key : B -> string) (item : A -> res cam_error (list B))
    (sel : A -> list string) xs yss :
  (forall x ys, item x = Ok ys -> key <$> ys = sel x) ->
  res_mapM item xs = Ok yss -> key <$> concat yss = concat (sel <$> xs).
Proof.
  intros Hitem H%res_mapM_Ok. induction H; simpl; [done|]. by rewrite fmap_app, (Hitem _ _ H), IHForall2.
Qed.

Lemma buildFxConfigs_ccys dom cs acc m l :
  keyed foreignCcy m -> buildFxConfigs dom cs acc m = Ok l ->
  foreignCcy <$> l = (foreignCcy <$> acc) ++ filter (fun c => c <> dom) cs.
Proof.
  intros Hk. rewrite buildFxConfigs_mapM. destruct (res_mapM _ _) as [yss|] eqn:E; simpl; [|done].
  intros [= <-]. rewrite fmap_app. f_equal.
  rewrite (concat_items_names foreignCcy (fx_item dom m) (fun c => filter (fun c => c <> dom) [c]) cs yss).
  - clear. induction cs as [|c cs IH]; [done|]. replace (c :: cs) with ([c] ++ cs) by done.
    rewrite fmap_app, concat_app, filter_app, IH. simpl. by rewrite app_nil_r.
  - intros c ys. unfold fx_item. destruct (decide (c = dom)) as [->|Hne].
    + intros [= <-]. rewrite filter_singleton_False; naive_solver.
    + rewrite filter_singleton_True by done.
      destruct (m !! c) eqn:Ec; [intros [= <-]; simpl; f_equal; eauto|].
      destruct (m !! "default"); [by intros [= <-]|done].
  - done.
Qed.

Lemma buildEqConfigs_names names acc m l :
  keyed eqName m -> buildEqConfigs names acc m = Ok l -> eqName <$> l = (eqName <$> acc) ++ names.
Proof.
  intros Hk. rewrite buildEqConfigs_mapM. destruct (res_mapM _ _) as [yss|] eqn:E; simpl; [|done].
  intros [= <-]. rewrite fmap_app. f_equal.
  rewrite (concat_items_names eqName (eq_item m) (fun c => [c]) names yss).
  - clear. induction names as [|c cs IH]; [done|]. simpl. by f_equal.
  - intros c ys. unfold eq_item. destruct (m !! c) eqn:Ec; [intros [= <-]; simpl; f_equal; eauto|].
    destruct (m !! "default"); [by intros [= <-]|done].
  - done.
Qed.

(** [f <$> l1] is the tail of [g <$> l2], slot by slot. *)
Lemma fmap_eq_tail {A B C} (f : A -> C) (g : B -> C) l1 l2 :
  f <$> l1 = tail (g <$> l2) <->
  length l1 = length l2 - 1 /\ forall i, i < length l1 -> option_map f (l1 !! i) = option_map g (l2 !! S i).
Proof.
  split.
  - intros H. split.
    + rewrite <- (length_fmap f l1), H. destruct l2; simpl; rewrite ?length_fmap; lia.
    + intros i _. rewrite <- !list_lookup_fmap, H. destruct l2; simpl; [by rewrite lookup_nil|done].
  - intros [Hlen Hi]. apply list_eq. intros i. rewrite list_lookup_fmap.
    destruct l2 as [|b l2]; simpl in *.
    + rewrite lookup_nil, lookup_ge_None_2; [done|lia].
    + rewrite list_lookup_fmap. destruct (decide (i < length l1)) as [Hlt|Hge]; [by apply Hi|].
      rewrite !lookup_ge_None_2 by lia. done.
Qed.

Lemma validate_Ok ir fx u :
  validate ir fx = Ok u <-> ir <> [] /\ foreignCcy <$> fx = tail (ir_ccy <$> ir).
Proof.
  unfold validate. rewrite fmap_eq_tail. split.
  - intros H. apply res_bind_Ok in H as (_ & H1%ql_require_Ok & H).
    apply res_bind_Ok in H as (_ & H2%ql_require_Ok & H%res_foldl_require).
    apply bool_decide_eq_true in H1, H2. split; [destruct ir; simpl in H1; [lia|done]|split; [done|]].
    intros i Hi. rewrite Forall_forall in H. specialize (H i).
    rewrite bool_decide_eq_true, Nat.add_1_r in H. apply H, elem_of_seq. lia.
  - intros (Hne & Hlen & Hi). rewrite (proj2 (ql_require_Ok _ _ tt)).
    2: { apply bool_decide_eq_true. destruct ir; simpl; [done|lia]. }
    simpl. rewrite (proj2 (ql_require_Ok _ _ tt)) by by apply bool_decide_eq_true. simpl.
    destruct u. apply res_foldl_require, Forall_forall. intros i ?%elem_of_seq.
    apply bool_decide_eq_true. rewrite Nat.add_1_r. apply Hi. lia.
Qed.

(** The foreign currencies are the tail of the currencies exactly when the
    domestic currency comes first and only once. *)
Lemma filter_neq_tail (d : string) cs :
  cs <> [] /\ filter (fun c => c <> d) cs = tail cs <-> exists r, cs = d :: r /\ d ∉ r.
Proof.
  assert (Hno : forall r c, c <> d -> c :: filter (fun c => c <> d) r <> r).
  { induction r as [|c' r IH]; intros c Hc H; [done|]. injection H as -> H.
    rewrite filter_cons_True in H by done. by apply (IH c'). }
  split.
  - intros [Hne H]. destruct cs as [|c r]; [done|]. cbn [tail] in H. destruct (decide (c = d)) as [->|Hc].
    + rewrite filter_cons_False in H by naive_solver. exists r. split; [done|]. intros Hd.
      pose proof (length_filter_lt (fun c => c <> d) r d Hd ltac:(naive_solver)) as Hlt. rewrite H in Hlt. lia.
    + rewrite filter_cons_True in H by done. by destruct (Hno r c Hc).
  - intros (r & -> & Hd). split; [done|]. rewrite filter_cons_False by naive_solver. cbn [tail].
    clear -Hd. induction r as [|c r IH]; [done|].
    apply not_elem_of_cons in Hd as [Hc Hd]. rewrite filter_cons_True by done. by rewrite IH.
Qed.

(** The credit loop with its two lists. *)
Lemma buildCr_loop names lm cm lgm0 cir0 lgm cir :
  keyed crl_name lm -> keyed crc_name cm ->
  res_foldl (cr_step lm cm) (lgm0, cir0) names = Ok (lgm, cir) ->
  crl_name <$> lgm = (crl_name <$> lgm0) ++ filter (fun n => is_Some (lm !! n) \/ cm !! n = None) names /\
  crc_name <$> cir = (crc_name <$> cir0) ++ filter (fun n => lm !! n = None /\ is_Some (cm !! n)) names.
Proof.
  intros Hl Hc. revert lgm0 cir0. induction names as [|n names IH]; intros lgm0 cir0 H; cbn [res_foldl] in H.
  - injection H as <- <-. by rewrite !app_nil_r.
  - rewrite !filter_cons.
    destruct (cr_step lm cm (lgm0, cir0) n) as [[lgm1 cir1]|] eqn:Es; simpl in H; [|done].
    apply IH in H as [-> ->]. unfold cr_step in Es.
    destruct (lm !! n) as [c|] eqn:El; [|destruct (cm !! n) as [c|] eqn:Ec; [|destruct (lm !! "default") as [def|]]];
      simpl in Es; try done.
    + destruct (bool_decide _) eqn:Eb; simpl in Es; [|done]. apply bool_decide_eq_true in Eb.
      injection Es as <- <-. rewrite fmap_app, <- app_assoc. simpl. by rewrite (Hl _ _ El).
    + injection Es as <- <-. rewrite fmap_app, <- app_assoc. simpl. by rewrite (Hc _ _ Ec).
    + injection Es as <- <-. rewrite fmap_app, <- app_assoc. done.
Qed.


(** The stages of a successful load. *)
Lemma fromXML_Ok addCorrelation doc d d' :
  fromXML addCorrelation doc d = Ok d' ->
  exists ir fx eq inf lgm cir corr,
    buildIrConfigs (x_currencies doc) (key_map ir_ccy (x_irModels doc)) = Ok ir /\
    buildFxConfigs (x_domesticCcy doc) (x_currencies doc) [] (key_map foreignCcy (x_fxModels doc)) = Ok fx /\
    buildEqConfigs (x_equities doc) [] (key_map eqName (x_eqModels doc)) = Ok eq /\
    match x_infModels doc with
    | Some nodes => buildInfConfigs (x_infindices doc) [] (inf_model_map nodes) = Ok inf
    | None => inf = []
    end /\
    buildCrConfigs (x_creditNames doc) (key_map crl_name (x_crLgmModels doc))
      (key_map crc_name (x_crCirModels doc)) = Ok (lgm, cir) /\
    correlations_fromXML addCorrelation (x_correlations doc) = Ok corr /\
    validate ir fx = Ok tt /\
    d' = {| domesticCurrency := x_domesticCcy doc; currencies := x_currencies doc;
            equities := x_equities doc; infindices := x_infindices doc;
            creditNames := x_creditNames doc; bootstrapTolerance := x_bootstrapTolerance doc;
            irConfigs := ir; fxConfigs := fx; eqConfigs := eq; infConfigs := inf;
            crLgmConfigs := lgm; crCirConfigs := cir; correlations := corr |}.
Proof.
  unfold fromXML. intros H.
  apply res_bind_Ok in H as (ir & Hir & H). apply res_bind_Ok in H as (fx & Hfx & H).
  apply res_bind_Ok in H as (eq & Heq & H). apply res_bind_Ok in H as (inf & Hinf & H).
  apply res_bind_Ok in H as ([lgm cir] & Hcr & H). apply res_bind_Ok in H as (corr & Hcorr & H).
  apply res_bind_Ok in H as ([] & Hval & [= <-]).
  exists ir, fx, eq, inf, lgm, cir, corr. split_and!; try done.
  destruct (x_infModels doc); [done|by injection Hinf].
Qed.

(** A name with both an LGM and a CIR configuration stops the loop. *)
Lemma cr_step_twin lm cm acc n c c' :
  lm !! n = Some c -> cm !! n = Some c' -> cr_step lm cm acc n = Err (CrLgmAndCir n).
Proof. intros Hl Hc. destruct acc. unfold cr_step. by rewrite Hl, Hc. Qed.

(** ** Theorems *)

(** C16: Loading the model data succeeds only when the domestic currency is
    the first currency and occurs once: then the IR configurations follow
    the currencies, the FX configurations follow the foreign currencies
    (the currencies after the first) and the equity configurations follow
    the equities, each slot carrying its own name (lines 209-427, 429-512,
    196-202). *)
Theorem fromXML_alignment addCorrelation doc d d' :
  fromXML addCorrelation doc d = Ok d' ->
  exists r, currencies d' = domesticCurrency d' :: r /\ domesticCurrency d' ∉ r /\
  ir_ccy <$> irConfigs d' = currencies d' /\ foreignCcy <$> fxConfigs d' = r /\
  eqName <$> eqConfigs d' = equities d'.
Proof.
  intros (ir & fx & eq & inf & lgm & cir & corr & Hir & Hfx & Heq & _ & _ & _ & Hval%validate_Ok & ->)%fromXML_Ok.
  cbn.
  apply buildIrConfigs_ccys in Hir; [|apply key_map_keyed].
  apply buildFxConfigs_ccys in Hfx; [|apply key_map_keyed].
  apply buildEqConfigs_names in Heq; [|apply key_map_keyed].
  destruct Hval as [Hne Htl]. rewrite Hir in Htl. rewrite Hfx in Htl. cbn in Htl.
  destruct (proj1 (filter_neq_tail (x_domesticCcy doc) (x_currencies doc))) as (r & Hr & Hd).
  { split; [by intros Hc; rewrite Hc in Hir; destruct ir|done]. }
  exists r. split_and!; [done|done|done| |done]. by rewrite Hfx, Hr, <- Hr, Htl, Hr.
Qed.

(** C17: Each credit name gets exactly one credit configuration: an LGM one
    when it has its own LGM configuration or no CIR configuration (then the
    LGM default under its name), a CIR one when it has only a CIR
    configuration; the CIR default is never used (lines 558-585). *)
Theorem buildCrConfigs_partition names lm cm lgm cir :
  keyed crl_name lm -> keyed crc_name cm -> buildCrConfigs names lm cm = Ok (lgm, cir) ->
  crl_name <$> lgm = filter (fun n => is_Some (lm !! n) \/ cm !! n = None) names /\
  crc_name <$> cir = filter (fun n => lm !! n = None /\ is_Some (cm !! n)) names.
Proof. intros Hl Hc H. by apply (buildCr_loop names lm cm [] [] lgm cir Hl Hc) in H. Qed.

(** C26: A credit name with both an LGM and a CIR configuration makes the
    build throw (line 564, a [QL_REQUIRE] with an empty message), whatever
    the other names. *)
Theorem buildCrConfigs_lgm_and_cir names lm cm n :
  n ∈ names -> is_Some (lm !! n) -> is_Some (cm !! n) ->
  exists e, buildCrConfigs names lm cm = Err e.
Proof.
  intros Hn [c Hl] [c' Hc]. apply (res_foldl_fail _ _ n Hn). intros acc.
  eexists. by apply (cr_step_twin _ _ _ _ c c').
Qed.

(** C27: The IR configurations load exactly when every currency has its own
    configuration or there is a default one (lines 435-455). *)
Theorem buildIrConfigs_Ok_iff cs m :
  (exists l, buildIrConfigs cs m = Ok l) <->
  Forall (fun ccy => is_Some (m !! ccy) \/ is_Some (m !! "default")) cs.
Proof.
  unfold buildIrConfigs. rewrite res_mapM_is_Ok. apply Forall_iff. intros ccy.
  unfold ir_config_for. destruct (m !! ccy), (m !! "default"); naive_solver.
Qed.

(** C28: An inflation index without its own model data gets the default
    data itself, copied with its index name (lines 532-541), unlike the IR,
    FX, equity and credit defaults, whose copies take the missing name. *)
Theorem buildInfConfigs_default names mp l :
  buildInfConfigs names [] mp = Ok l ->
  Forall2 (fun name c => mp !! name = Some c \/
             (mp !! name = None /\ mp !! "default" = Some c /\ inf_kind c <> InfOther)) names l.
Proof.
  rewrite buildInfConfigs_mapM. destruct (res_mapM _ _) as [yss|] eqn:E; simpl; [|done].
  intros [= <-]. apply res_mapM_Ok in E. induction E as [|name ys names yss Hitem _ IH]; simpl; [done|].
  unfold inf_item in Hitem. destruct (mp !! name) as [c|] eqn:Em.
  - injection Hitem as <-. constructor; [by left|done].
  - destruct (mp !! "default") as [def|] eqn:Ed; simpl in Hitem; [|done].
    destruct (inf_kind def) eqn:Ek; try done; injection Hitem as <-; (constructor; [right; by rewrite Ek|done]).
Qed.

(** [operator==] holds between two data objects whose correlations have
    the same keys and close values, whose tolerances are equal as numbers,
    and which agree on every other member but the credit names and the
    inflation configurations, of which only the numbers agree. *)
Lemma cam_eqb_intro close_enough d rhs :
  Forall2 (fun e e' => e.1 = e'.1 /\ close_enough e.2 e'.2 = true) (correlations d) (correlations rhs) ->
  bootstrapTolerance d == bootstrapTolerance rhs ->
  length (infConfigs d) = length (infConfigs rhs) ->
  domesticCurrency d = domesticCurrency rhs -> currencies d = currencies rhs -> equities d = equities rhs ->
  infindices d = infindices rhs -> irConfigs d = irConfigs rhs -> fxConfigs d = fxConfigs rhs ->
  eqConfigs d = eqConfigs rhs -> crLgmConfigs d = crLgmConfigs rhs -> crCirConfigs d = crCirConfigs rhs ->
  cam_eqb close_enough d rhs = true.
Proof.
  intros Hc Htol Hinf Hdom Hcs Heqs Hinfs Hir Hfx Heq Hlgm Hcir. unfold cam_eqb, correlations_neqb.
  rewrite negb_involutive.
  assert (correlations_eqb close_enough (correlations d) (correlations rhs) = true) as ->.
  { induction Hc as [|[k v] [k' v'] c c' [Hk Hv] _ IH]; simpl in *; [done|].
    rewrite decide_True by done. by rewrite Hv, IH. }
  rewrite (proj2 (Qeq_bool_iff _ _) Htol). rewrite Hir, Hfx, Heq, Hlgm, Hcir in *.
  rewrite !bool_decide_eq_true_2 by done. done.
Qed.

(** C29: [operator==] never looks at the credit names and compares the
    inflation configurations by their number only (lines 133-180): two data
    objects that differ in these members compare equal. *)
Theorem cam_eqb_ignores_credit_names close_enough d names infs :
  (forall x, close_enough x x = true) -> length infs = length (infConfigs d) ->
  cam_eqb close_enough d {| domesticCurrency := domesticCurrency d; currencies := currencies d;
    equities := equities d; infindices := infindices d; creditNames := names;
    bootstrapTolerance := bootstrapTolerance d; irConfigs := irConfigs d; fxConfigs := fxConfigs d;
    eqConfigs := eqConfigs d; infConfigs := infs; crLgmConfigs := crLgmConfigs d;
    crCirConfigs := crCirConfigs d; correlations := correlations d |} = true.
Proof.
  intros Hce Hlen. apply cam_eqb_intro; cbn; try done.
  apply Forall_Forall2_diag, Forall_forall. intros e _. by rewrite Hce.
Qed.

End CamData.
