(* ===== verification/CrossAssetModelXml.v ===== *)
(** * Writing the cross asset model data and reading it back
      (OREData/ored/model/crossassetmodeldata.cpp, lines 53-113, 209-240
      and 587-639)

    [CrossAssetModelData::toXML] writes the members as a [CrossAssetModel]
    node; [InstantaneousCorrelations::toXML] writes one [Correlation] node
    per entry of the correlation map, the value as its text and the two
    factors (with their indices when set) as attributes.  Reading back is
    [fromXML] of [CrossAssetModelData] (Module [CamData]) on the document
    the reading calls of [fromXML] extract from the node ([parse_cam]).

    The node is [CamNode]: the texts the code writes and the child
    configurations.  The child configuration classes ([IrLgmData],
    [FxBsData], ...) are not under src/: their [toXML] is taken to write
    the node name [fromXML] looks for and their [fromXML] to read back the
    configuration written, so a child configuration stands for its own
    node.  The inflation children are written under the name of their
    class ([inf_node_name]), which [fromXML] dispatches on.  The text
    conversions [to_string], [parseReal], [parseInteger] and
    [parseCorrelationFactor] are not under src/ either and are section
    variables.

    The theorems: the reload gives back the configuration
    ([toXML_roundtrip]) and compares equal to it under [operator==]
    ([toXML_reload_equal], the use the comment at line 165 names), except
    for a configuration with inflation indices loaded without an
    [InflationIndexModels] node, whose reload throws
    ([toXML_inflation_unreadable]). *)

From S2P Require Import Prelude CrossAssetModelData.
From Stdlib Require Import QArith.
Local Open Scope nat_scope.

Module CamXmlIO.
Import CamData.

(** A [Correlation] node: its text and its attributes in order. *)
Record CorrNode : Type := { cn_value : string; cn_attrs : list (string * string) }.

(** The [CrossAssetModel] node [toXML] returns (lines 589-638). *)
Record CamNode : Type := {
  n_domesticCcy : string;
  n_currencies : list string;
  n_equities : list string;
  n_infindices : list string;
  n_creditNames : list string;
  n_bootstrapTolerance : string;
  n_irModels : list IrLgmData;
  n_fxModels : list FxBsData;
  n_eqModels : list EqBsData;
  n_infModels : option (list (string * string));   (* (node name, index) *)
  n_crLgmModels : list CrLgmData;
  n_crCirModels : list CrCirData;
  n_correlations : option (list CorrNode) }.

(** [XMLUtils::getAttribute]: the first attribute of that name, [""] when
    there is none. *)
Fixpoint getAttribute (attrs : list (string * string)) (name : string) : string :=
  match attrs with
  | [] => ""
  | (k, v) :: rest => if String.eqb k name then v else getAttribute rest name
  end.

(** [to_string(f.type) + ":" + f.name]; the asset type is held as its
    printed name. *)
Definition factor_to_string (f : CorrelationFactor) : string :=
  cf_type f +:+ ":" +:+ cf_name f.

Section Xml.

Context (real_to_string : Q -> string) (parseReal : string -> Q).
Context (size_to_string : nat -> string) (parseInteger : string -> nat).
Context (parseCorrelationFactor : string -> CorrelationFactor).
Context (inf_node_name : InfModelKind -> string).

(** The anonymous [fromNode] (lines 53-65). *)
Definition fromNode (node : CorrNode) (firstFactor : bool) : CorrelationFactor :=
  let factorTag := if firstFactor then "factor1" else "factor2" in
  let idxTag := if firstFactor then "index1" else "index2" in
  let factor := parseCorrelationFactor (getAttribute (cn_attrs node) factorTag) in
  let strIdx := getAttribute (cn_attrs node) idxTag in
  if decide (strIdx <> "") then
    {| cf_type := cf_type factor; cf_name := cf_name factor; cf_index := Some (parseInteger strIdx) |}
  else factor.

(** The loop of [InstantaneousCorrelations::fromXML] (lines 79-84) up to
    [cmb.addCorrelation]. *)
Definition parse_correlations (nodes : list CorrNode) : list (CorrelationFactor * CorrelationFactor * Q) :=
  (fun n => (fromNode n true, fromNode n false, parseReal (cn_value n))) <$> nodes.

(** The reading calls of [CrossAssetModelData::fromXML] (lines 216-239 and
    the child loops): the document its builders work on. *)
Definition parse_cam (n : CamNode) : CamXml := {|
  x_domesticCcy := n_domesticCcy n; x_currencies := n_currencies n; x_equities := n_equities n;
  x_infindices := n_infindices n; x_creditNames := n_creditNames n;
  x_bootstrapTolerance := parseReal (n_bootstrapTolerance n);
  x_irModels := n_irModels n; x_fxModels := n_fxModels n; x_eqModels := n_eqModels n;
  x_infModels := n_infModels n; x_crLgmModels := n_crLgmModels n; x_crCirModels := n_crCirModels n;
  x_correlations := parse_correlations <$> n_correlations n |}.

(** One [Correlation] node (lines 98-109). *)
Definition correlation_toXML (entry : CorrelationKey * Q) : CorrNode :=
  let '((f1, f2), v) := entry in
  {| cn_value := real_to_string v;
     cn_attrs := [("factor1", factor_to_string f1)] ++
                 (match cf_index f1 with Some i => [("index1", size_to_string i)] | None => [] end) ++
                 [("factor2", factor_to_string f2)] ++
                 (match cf_index f2 with Some i => [("index2", size_to_string i)] | None => [] end) |}.

(** [InstantaneousCorrelations::toXML] (lines 92-113): the map in its order. *)
Definition correlations_toXML (c : list (CorrelationKey * Q)) : list CorrNode :=
  correlation_toXML <$> c.

(** [CrossAssetModelData::toXML] (lines 587-639). *)
Definition toXML (d : CrossAssetModelData) : CamNode := {|
  n_domesticCcy := domesticCurrency d; n_currencies := currencies d; n_equities := equities d;
  n_infindices := infindices d; n_creditNames := creditNames d;
  n_bootstrapTolerance := real_to_string (bootstrapTolerance d);
  n_irModels := irConfigs d; n_fxModels := fxConfigs d; n_eqModels := eqConfigs d;
  n_infModels := Some ((fun c => (inf_node_name (inf_kind c), inf_index c)) <$> infConfigs d);
  n_crLgmModels := crLgmConfigs d; n_crCirModels := crCirConfigs d;
  n_correlations := Some (correlations_toXML (correlations d)) |}.

(** A factor whose printed form the parser reads back, with an index
    whose printed form is not empty and reads back. *)
Definition factor_reads_back (f : CorrelationFactor) : Prop :=
  parseCorrelationFactor (factor_to_string f) = {| cf_type := cf_type f; cf_name := cf_name f; cf_index := None |} /\
  forall i, cf_index f = Some i -> size_to_string i <> "" /\ parseInteger (size_to_string i) = i.

End Xml.

(** The credit configuration a name gets, LGM and CIR (lines 558-585). *)
Definition cr_lgm_for (lm : gmap string CrLgmData) (cm : gmap string CrCirData) (n : string)
    : option CrLgmData :=
  match lm !! n with
  | Some c => Some c
  | None =>
      match cm !! n with
      | Some _ => None
      | None => (fun def => {| crl_name := n; crl_params := crl_params def |}) <$> lm !! "default"
      end
  end.

Definition cr_cir_for (lm : gmap string CrLgmData) (cm : gmap string CrCirData) (n : string)
    : option CrCirData :=
  match lm !! n with
  | Some _ => None
  | None => cm !! n
  end.

(** ** Lemmas: the maps [fromXML] rebuilds from written configurations *)

Lemma foldl_insert_key_other {A} (key : A -> string) l (m : gmap string A) k :
  (forall y, y ∈ l -> key y <> k) -> foldl (fun m c => <[key c := c]> m) m l !! k = m !! k.
Proof.
  revert m. induction l as [|y l IH]; intros m Hl; simpl; [done|].
  rewrite IH; [|intros; apply Hl; by apply list_elem_of_further].
  apply lookup_insert_ne, Hl, list_elem_of_here.
Qed.

Lemma key_map_lookup_None {A} (key : A -> string) l k :
  (forall y, y ∈ l -> key y <> k) -> key_map key l !! k = None.
Proof. intros Hl. unfold key_map. rewrite foldl_insert_key_other by done. apply lookup_empty. Qed.

(** Later configurations with the same key leave an entry as it is when
    they are equal to it. *)
Lemma foldl_insert_key_same {A} (key : A -> string) l (m : gmap string A) k y :
  (forall y', y' ∈ l -> key y' = k -> y' = y) -> m !! k = Some y ->
  foldl (fun m c => <[key c := c]> m) m l !! k = Some y.
Proof.
  revert m. induction l as [|y0 l IH]; intros m Hl Hm; simpl; [done|].
  apply IH; [intros; apply Hl; [by apply list_elem_of_further|done]|].
  destruct (decide (key y0 = k)) as [<-|Hne].
  - rewrite lookup_insert_eq. f_equal. apply Hl; [apply list_elem_of_here|done].
  - by rewrite lookup_insert_ne.
Qed.

(** The entry of a key that only one configuration carries. *)
Lemma key_map_lookup_unique {A} (key : A -> string) l y :
  y ∈ l -> (forall y', y' ∈ l -> key y' = key y -> y' = y) -> key_map key l !! key y = Some y.
Proof.
  unfold key_map. generalize (∅ : gmap string A) as m.
  induction l as [|y0 l IH]; intros m Hy Huniq; simpl; [by apply elem_of_nil in Hy|].
  apply elem_of_cons in Hy as [->|Hy].
  - apply foldl_insert_key_same; [|apply lookup_insert_eq].
    intros; apply Huniq; [by apply list_elem_of_further|done].
  - apply IH; [done|]. intros; apply Huniq; [by apply list_elem_of_further|done].
Qed.

Lemma key_map_lookup_elem {A} (key : A -> string) l k y :
  key_map key l !! k = Some y -> y ∈ l /\ key y = k.
Proof.
  intros H. split; [|by apply key_map_keyed in H]. revert H. unfold key_map.
  cut (forall m : gmap string A,
         foldl (fun m c => <[key c := c]> m) m l !! k = Some y -> m !! k = Some y \/ y ∈ l).
  { intros Hg H. destruct (Hg _ H) as [He|]; [by rewrite lookup_empty in He|done]. }
  induction l as [|y0 l IH]; intros m H; simpl in H; [by left|].
  destruct (IH _ H) as [Hm|]; [|right; by apply list_elem_of_further].
  apply lookup_insert_Some in Hm as [[_ <-]|[_ ?]]; [right; apply list_elem_of_here|by left].
Qed.

(** A configuration list in which each configuration is the one [r] gives
    its key: the map [fromXML] builds from it is [r] on the keys. *)
Lemma key_map_reload {A} (key : A -> string) (r : string -> option A) l n :
  (forall n y, r n = Some y -> key y = n) ->
  (forall y, y ∈ l -> exists n, r n = Some y) ->
  (forall y, r n = Some y -> y ∈ l) ->
  key_map key l !! n = r n.
Proof.
  intros Hkey Hfrom Hin. destruct (r n) as [y|] eqn:Er.
  - rewrite <-(Hkey _ _ Er). apply key_map_lookup_unique; [by apply Hin|].
    intros y' Hy' Hk. destruct (Hfrom y' Hy') as [n' Hn'].
    rewrite (Hkey _ _ Hn'), (Hkey _ _ Er) in Hk. subst n'. congruence.
  - apply key_map_lookup_None. intros y' Hy' Hk. destruct (Hfrom y' Hy') as [n' Hn'].
    rewrite (Hkey _ _ Hn') in Hk. subst n'. congruence.
Qed.

(** ** Lemmas: each builder run again on the configurations it built *)

Lemma buildIrConfigs_reload cs m ir :
  keyed ir_ccy m -> buildIrConfigs cs m = Ok ir -> buildIrConfigs cs (key_map ir_ccy ir) = Ok ir.
Proof.
  intros Hk H. apply (res_mapM_ext_Ok _ _ _ _ H). intros c y Hc Hy. unfold ir_config_for at 1.
  rewrite (key_map_reload ir_ccy (fun c => res_ok (ir_config_for m c)) ir c).
  - by rewrite Hy.
  - intros n y' ?%res_ok_Some. by eapply ir_config_for_ccy.
  - intros y' Hy'. destruct (res_mapM_elem_inv _ _ _ _ H Hy') as (n & _ & Hn). exists n. by rewrite Hn.
  - intros y' ?%res_ok_Some. by eapply res_mapM_elem.
Qed.

(** The loops whose iterations append at most one configuration, carrying
    the name of the iteration. *)
Lemma mapM_items_reload {B} (item item' : string -> res cam_error (list B)) (key : B -> string) cs yss :
  res_mapM item cs = Ok yss ->
  (forall n ys, item n = Ok ys -> ys = [] \/ exists y, ys = [y] /\ key y = n) ->
  (forall n ys, n ∈ cs -> item n = Ok ys ->
     (forall y, ys = [y] -> key_map key (concat yss) !! n = Some y) -> item' n = Ok ys) ->
  res_mapM item' cs = Ok yss.
Proof.
  intros H Hshape Hreload. apply (res_mapM_ext_Ok _ _ _ _ H). intros c ys Hc Hys.
  apply Hreload; [done|done|]. intros y ->.
  set (r := fun n => match res_ok (item n) with Some [y] => Some y | _ => None end).
  rewrite (key_map_reload key r (concat yss) c); [by subst r; simpl; rewrite Hys| | |].
  - intros n y' Hr. subst r. simpl in Hr. destruct (item n) as [[|y0 []]|] eqn:E; try done.
    injection Hr as <-. destruct (Hshape _ _ E) as [|(y1 & [= <-] & ?)]; done.
  - intros y' (ys' & Hys' & Hy')%list_elem_of_concat.
    destruct (res_mapM_elem_inv _ _ _ _ H Hys') as (n & _ & Hn). exists n. subst r. simpl. rewrite Hn.
    destruct (Hshape _ _ Hn) as [->|(y1 & -> & _)]; [by apply elem_of_nil in Hy'|].
    apply list_elem_of_singleton in Hy' as ->. done.
  - intros y' Hr. subst r. simpl in Hr. rewrite Hys in Hr. injection Hr as <-.
    apply list_elem_of_concat. exists [y]. split; [exact (res_mapM_elem _ _ _ _ _ H Hc Hys)|apply list_elem_of_here].
Qed.

Lemma buildFxConfigs_reload dom cs m fx :
  keyed foreignCcy m -> buildFxConfigs dom cs [] m = Ok fx ->
  buildFxConfigs dom cs [] (key_map foreignCcy fx) = Ok fx.
Proof.
  intros Hk. rewrite !buildFxConfigs_mapM. destruct (res_mapM (fx_item dom m) cs) as [yss|] eqn:E; [|done].
  intros [= <-]. simpl. rewrite (mapM_items_reload (fx_item dom m) _ foreignCcy cs yss E); [done| |].
  - intros n ys. unfold fx_item. destruct (decide (n = dom)); [intros [= <-]; by left|].
    destruct (m !! n) eqn:En; [intros [= <-]; right; eexists; split; [done|]; by apply Hk|].
    destruct (m !! "default"); [intros [= <-]; right; by eexists|done].
  - intros n ys _ Hys Hmap. unfold fx_item in Hys |- *. destruct (decide (n = dom)); [done|].
    assert (exists y, ys = [y]) as [y ->] by (repeat case_match; simplify_eq; eauto).
    by rewrite (Hmap y).
Qed.

Lemma buildEqConfigs_reload names m eq :
  keyed eqName m -> buildEqConfigs names [] m = Ok eq -> buildEqConfigs names [] (key_map eqName eq) = Ok eq.
Proof.
  intros Hk. rewrite !buildEqConfigs_mapM. destruct (res_mapM (eq_item m) names) as [yss|] eqn:E; [|done].
  intros [= <-]. simpl. rewrite (mapM_items_reload (eq_item m) _ eqName names yss E); [done| |].
  - intros n ys. unfold eq_item.
    destruct (m !! n) eqn:En; [intros [= <-]; right; eexists; split; [done|]; by apply Hk|].
    destruct (m !! "default"); [intros [= <-]; right; by eexists|done].
  - intros n ys _ Hys Hmap. unfold eq_item in Hys |- *.
    assert (exists y, ys = [y]) as [y ->] by (repeat case_match; simplify_eq; eauto).
    by rewrite (Hmap y).
Qed.

Lemma inf_model_map_entries nodes k c :
  inf_model_map nodes !! k = Some c -> inf_kind c <> InfOther /\ inf_index c = k.
Proof.
  unfold inf_model_map. revert k c.
  apply (foldl_invariant (fun mp => forall k c, mp !! k = Some c -> inf_kind c <> InfOther /\ inf_index c = k)).
  - intros mp [nodeName index] _ Hmp k c. cbv beta iota.
    destruct (bool_decide _ || bool_decide _); [|destruct (decide _)];
      [intros [[<- <-]|[_ ?]]%lookup_insert_Some; [done|by apply Hmp]..|apply Hmp].
  - intros k c. by rewrite lookup_empty.
Qed.

(** The inflation children [toXML] writes are read back into the map of
    the configurations under their index. *)
Lemma inf_model_map_printed (inf_node_name : InfModelKind -> string) l :
  (inf_node_name InfDk = "LGM" \/ inf_node_name InfDk = "DodgsonKainth") ->
  inf_node_name InfJy = "JarrowYildirim" ->
  Forall (fun c => inf_kind c <> InfOther) l ->
  inf_model_map ((fun c => (inf_node_name (inf_kind c), inf_index c)) <$> l) = key_map inf_index l.
Proof.
  intros Hdk Hjy Hl. unfold inf_model_map, key_map. generalize (∅ : gmap string InflationModelData) as m.
  induction Hl as [|[kind index] l Hk _ IH]; intros m; simpl; [done|]. rewrite <-IH. f_equal.
  destruct kind; simpl in Hk |- *; [| |done].
  - by destruct Hdk as [-> | ->].
  - by rewrite Hjy.
Qed.

Lemma buildInfConfigs_reload names mp infs :
  (forall k c, mp !! k = Some c -> inf_kind c <> InfOther /\ inf_index c = k) ->
  buildInfConfigs names [] mp = Ok infs ->
  Forall (fun c => inf_kind c <> InfOther) infs /\
  buildInfConfigs names [] (key_map inf_index infs) = Ok infs.
Proof.
  intros Hmp. rewrite !buildInfConfigs_mapM. destruct (res_mapM (inf_item mp) names) as [yss|] eqn:E; [|done].
  intros [= <-]. simpl.
  (* each configuration is the entry of the map under its own index *)
  assert (Hown : forall y, y ∈ concat yss -> mp !! inf_index y = Some y).
  { intros y (ys & Hys & Hy)%list_elem_of_concat.
    destruct (res_mapM_elem_inv _ _ _ _ E Hys) as (n & _ & Hn). unfold inf_item in Hn.
    destruct (mp !! n) as [c|] eqn:Em.
    - injection Hn as <-. apply list_elem_of_singleton in Hy as ->. by rewrite (proj2 (Hmp _ _ Em)).
    - destruct (mp !! "default") as [def|] eqn:Ed; simpl in Hn; [|done].
      destruct (inf_kind def); try done; injection Hn as <-;
        apply list_elem_of_singleton in Hy as ->; by rewrite (proj2 (Hmp _ _ Ed)). }
  assert (Hlook : forall y, y ∈ concat yss -> key_map inf_index (concat yss) !! inf_index y = Some y).
  { intros y Hy. apply key_map_lookup_unique; [done|]. intros y' Hy' Hk.
    pose proof (Hown _ Hy') as H1. rewrite Hk, (Hown _ Hy) in H1. congruence. }
  assert (Hin : forall n c, n ∈ names -> inf_item mp n = Ok [c] -> c ∈ concat yss).
  { intros n c Hn Hc. apply list_elem_of_concat. exists [c].
    split; [exact (res_mapM_elem _ _ _ _ _ E Hn Hc)|apply list_elem_of_here]. }
  split.
  - apply Forall_forall. intros y Hy. apply (Hmp (inf_index y)), Hown, Hy.
  - erewrite (res_mapM_ext_Ok _ _ _ _ E); [done|]. intros n ys Hn Hys.
    pose proof (Hin n) as Hin'. unfold inf_item in Hys, Hin' |- *.
    destruct (mp !! n) as [c|] eqn:Em.
    + injection Hys as <-. rewrite <-(proj2 (Hmp _ _ Em)), Hlook; [done|]. by apply Hin'.
    + destruct (key_map inf_index (concat yss) !! n) as [c|] eqn:Ek.
      { apply key_map_lookup_elem in Ek as [Hc <-]. by rewrite Hown in Em. }
      destruct (mp !! "default") as [def|] eqn:Ed; simpl in Hys, Hin' |- *; [|done].
      assert (Hdef : def ∈ concat yss) by (apply (Hin' def Hn); destruct (inf_kind def); by simplify_eq).
      rewrite <-(proj2 (Hmp _ _ Ed)), (Hlook _ Hdef). done.
Qed.

Lemma cr_lgm_for_name lm cm n y :
  keyed crl_name lm -> cr_lgm_for lm cm n = Some y -> crl_name y = n.
Proof.
  intros Hk. unfold cr_lgm_for. destruct (lm !! n) eqn:El; [intros [= <-]; by apply Hk|].
  destruct (cm !! n); [done|]. destruct (lm !! "default"); [by intros [= <-]|done].
Qed.

Lemma cr_cir_for_name lm cm n y :
  keyed crc_name cm -> cr_cir_for lm cm n = Some y -> crc_name y = n.
Proof. intros Hk. unfold cr_cir_for. destruct (lm !! n); [done|]. apply Hk. Qed.

(** What one iteration of the credit loop appends. *)
Lemma cr_step_Ok lm cm l0 c0 n l1 c1 :
  cr_step lm cm (l0, c0) n = Ok (l1, c1) ->
  (forall y, y ∈ l1 <-> y ∈ l0 \/ cr_lgm_for lm cm n = Some y) /\
  (forall y, y ∈ c1 <-> y ∈ c0 \/ cr_cir_for lm cm n = Some y).
Proof.
  unfold cr_step, cr_lgm_for, cr_cir_for. intros H.
  destruct (lm !! n) as [c|], (cm !! n) as [c'|]; [done| | |destruct (lm !! "default") as [def|]];
    simpl in H; simplify_eq; split; intros y; rewrite ?elem_of_app, ?list_elem_of_singleton;
    split; naive_solver.
Qed.

Lemma buildCr_members names lm cm lgm cir :
  buildCrConfigs names lm cm = Ok (lgm, cir) ->
  (forall y, y ∈ lgm <-> exists n, n ∈ names /\ cr_lgm_for lm cm n = Some y) /\
  (forall y, y ∈ cir <-> exists n, n ∈ names /\ cr_cir_for lm cm n = Some y).
Proof.
  unfold buildCrConfigs.
  cut (forall l0 c0, res_foldl (cr_step lm cm) (l0, c0) names = Ok (lgm, cir) ->
    (forall y, y ∈ lgm <-> y ∈ l0 \/ exists n, n ∈ names /\ cr_lgm_for lm cm n = Some y) /\
    (forall y, y ∈ cir <-> y ∈ c0 \/ exists n, n ∈ names /\ cr_cir_for lm cm n = Some y)).
  { intros Hg H. destruct (Hg _ _ H) as [H1 H2]. split; intros y; [rewrite H1|rewrite H2];
      rewrite elem_of_nil; naive_solver. }
  induction names as [|n names IH]; intros l0 c0 H; cbn [res_foldl] in H.
  - injection H as <- <-. split; intros y; split; [by left| |by left|]; intros [|(? & ?%elem_of_nil & _)]; done.
  - destruct (cr_step lm cm (l0, c0) n) as [[l1 c1]|] eqn:Es; simpl in H; [|done].
    destruct (cr_step_Ok _ _ _ _ _ _ _ Es) as [Hl Hc]. destruct (IH _ _ H) as [IHl IHc].
    split; intros y; [rewrite IHl, Hl|rewrite IHc, Hc]; setoid_rewrite elem_of_cons; naive_solver.
Qed.

Lemma buildCrConfigs_reload names lm cm lgm cir :
  keyed crl_name lm -> keyed crc_name cm -> buildCrConfigs names lm cm = Ok (lgm, cir) ->
  buildCrConfigs names (key_map crl_name lgm) (key_map crc_name cir) = Ok (lgm, cir).
Proof.
  intros Hkl Hkc H. destruct (buildCr_members _ _ _ _ _ H) as [Hml Hmc].
  assert (Hl' : forall n, n ∈ names -> key_map crl_name lgm !! n = cr_lgm_for lm cm n).
  { intros n Hn. apply key_map_reload.
    - intros; by eapply cr_lgm_for_name.
    - intros y (n' & _ & ?)%Hml. eauto.
    - intros y Hy. apply Hml. eauto. }
  assert (Hc' : forall n, n ∈ names -> key_map crc_name cir !! n = cr_cir_for lm cm n).
  { intros n Hn. apply key_map_reload.
    - intros; by eapply cr_cir_for_name.
    - intros y (n' & _ & ?)%Hmc. eauto.
    - intros y Hy. apply Hmc. eauto. }
  unfold buildCrConfigs in *. apply (res_foldl_ext_Ok _ _ _ _ _ H). intros [l0 c0] n s1 Hn Hs.
  unfold cr_step in Hs |- *. rewrite (Hl' n Hn), (Hc' n Hn). unfold cr_lgm_for, cr_cir_for.
  destruct (lm !! n) as [c|], (cm !! n) as [c'|]; [done| | |destruct (lm !! "default") as [def|]];
    simpl in Hs |- *; done.
Qed.

Section RoundTrip.

Context (real_to_string : Q -> string) (parseReal : string -> Q).
Context (size_to_string : nat -> string) (parseInteger : string -> nat).
Context (parseCorrelationFactor : string -> CorrelationFactor).
Context (inf_node_name : InfModelKind -> string).

Local Abbreviation fromNode' := (fromNode parseInteger parseCorrelationFactor).
Local Abbreviation reads_back := (factor_reads_back size_to_string parseInteger parseCorrelationFactor).
Local Abbreviation corr_toXML := (correlation_toXML real_to_string size_to_string).

Lemma fromNode_correlation_toXML f1 f2 v :
  reads_back f1 -> reads_back f2 ->
  fromNode' (corr_toXML ((f1, f2), v)) true = f1 /\ fromNode' (corr_toXML ((f1, f2), v)) false = f2.
Proof.
  intros [Hp1 Hi1] [Hp2 Hi2]. unfold fromNode, correlation_toXML.
  destruct f1 as [t1 n1 [i1|]]; [destruct (Hi1 i1 eq_refl) as [Hn1 Hr1]|];
    (destruct f2 as [t2 n2 [i2|]]; [destruct (Hi2 i2 eq_refl) as [Hn2 Hr2]|]);
    cbn -[factor_to_string] in Hp1, Hp2 |- *; rewrite Hp1, Hp2; cbn;
    split; case_decide as Hd; try (exfalso; by apply Hd); try contradiction; congruence.
Qed.

Lemma parse_correlations_toXML c :
  Forall (fun e => reads_back e.1.1 /\ reads_back e.1.2) c ->
  parse_correlations parseReal parseInteger parseCorrelationFactor (correlations_toXML real_to_string size_to_string c) =
  (fun e => (e.1.1, e.1.2, parseReal (real_to_string e.2))) <$> c.
Proof.
  induction 1 as [|[[f1 f2] v] c [H1 H2] _ IH]; [done|].
  unfold parse_correlations, correlations_toXML in *. rewrite !fmap_cons, IH. f_equal.
  by destruct (fromNode_correlation_toXML f1 f2 v H1 H2) as [-> ->].
Qed.

Local Abbreviation parse_cam' := (parse_cam parseReal parseInteger parseCorrelationFactor).
Local Abbreviation toXML' := (toXML real_to_string size_to_string inf_node_name).

(** The data [fromXML] rebuilds from the document [toXML] writes for [d]. *)
Definition reread (addCorrelation : list (CorrelationKey * Q) -> CorrelationFactor -> CorrelationFactor -> Q ->
    list (CorrelationKey * Q)) (d : CrossAssetModelData) : CrossAssetModelData := {|
  domesticCurrency := domesticCurrency d; currencies := currencies d; equities := equities d;
  infindices := infindices d; creditNames := creditNames d;
  bootstrapTolerance := parseReal (real_to_string (bootstrapTolerance d));
  irConfigs := irConfigs d; fxConfigs := fxConfigs d; eqConfigs := eqConfigs d;
  infConfigs := infConfigs d; crLgmConfigs := crLgmConfigs d; crCirConfigs := crCirConfigs d;
  correlations := foldl (fun cmb '(f1, f2, corr) => addCorrelation cmb f1 f2 corr) []
                    ((fun e => (e.1.1, e.1.2, parseReal (real_to_string e.2))) <$> correlations d) |}.

(** Re-adding the entries of a correlation store built by
    [addCorrelation], each value changed by [g], gives the store with its
    values changed: the store keeps one entry per key, in key order. *)
Definition readds_entries (addCorrelation : list (CorrelationKey * Q) -> CorrelationFactor ->
    CorrelationFactor -> Q -> list (CorrelationKey * Q)) : Prop :=
  forall l (g : Q -> Q),
    let c := foldl (fun cmb '(f1, f2, corr) => addCorrelation cmb f1 f2 corr) [] l in
    foldl (fun cmb '(f1, f2, corr) => addCorrelation cmb f1 f2 corr) [] ((fun e => (e.1.1, e.1.2, g e.2)) <$> c) =
    (fun e => (e.1, g e.2)) <$> c.


(** The builders of [fromXML] on the written document give back the
    configurations a load built. *)
Lemma reload_builders doc d0 d addCorrelation :
  fromXML addCorrelation doc d0 = Ok d ->
  buildIrConfigs (currencies d) (key_map ir_ccy (irConfigs d)) = Ok (irConfigs d) /\
  buildFxConfigs (domesticCurrency d) (currencies d) [] (key_map foreignCcy (fxConfigs d)) = Ok (fxConfigs d) /\
  buildEqConfigs (equities d) [] (key_map eqName (eqConfigs d)) = Ok (eqConfigs d) /\
  buildCrConfigs (creditNames d) (key_map crl_name (crLgmConfigs d)) (key_map crc_name (crCirConfigs d)) =
    Ok (crLgmConfigs d, crCirConfigs d) /\
  validate (irConfigs d) (fxConfigs d) = Ok tt.
Proof.
  intros (ir & fx & eq & inf & lgm & cir & corr & Hir & Hfx & Heq & _ & Hcr & _ & Hval & ->)%fromXML_Ok.
  cbn. split_and!; [eapply buildIrConfigs_reload|eapply buildFxConfigs_reload|eapply buildEqConfigs_reload
    |eapply buildCrConfigs_reload|done]; first [apply key_map_keyed | done].
Qed.

Lemma toXML_reload addCorrelation doc d0 d d1 :
  (inf_node_name InfDk = "LGM" \/ inf_node_name InfDk = "DodgsonKainth") ->
  inf_node_name InfJy = "JarrowYildirim" ->
  fromXML addCorrelation doc d0 = Ok d ->
  is_Some (x_infModels doc) \/ x_infindices doc = [] ->
  Forall (fun e => reads_back e.1.1 /\ reads_back e.1.2) (correlations d) ->
  fromXML addCorrelation (parse_cam' (toXML' d)) d1 = Ok (reread addCorrelation d).
Proof.
  intros Hdk Hjy Hload Hnodes Hf.
  destruct (reload_builders _ _ _ _ Hload) as (Hir & Hfx & Heq & Hcr & Hval).
  assert (Hinf : buildInfConfigs (infindices d) [] (inf_model_map
      ((fun c => (inf_node_name (inf_kind c), inf_index c)) <$> infConfigs d)) = Ok (infConfigs d)).
  { apply fromXML_Ok in Hload as (ir & fx & eq & inf & lgm & cir & corr & _ & _ & _ & Hinf & _ & _ & _ & ->).
    cbn. destruct (x_infModels doc) as [nodes|].
    - destruct (buildInfConfigs_reload _ _ _ (inf_model_map_entries nodes) Hinf) as [Hk Hre].
      by rewrite inf_model_map_printed.
    - subst inf. destruct Hnodes as [[? ?]| ->]; done. }
  unfold fromXML, parse_cam, toXML. cbn [x_domesticCcy x_currencies x_equities x_infindices x_creditNames
    x_bootstrapTolerance x_irModels x_fxModels x_eqModels x_infModels x_crLgmModels x_crCirModels
    x_correlations n_domesticCcy n_currencies n_equities n_infindices n_creditNames n_bootstrapTolerance
    n_irModels n_fxModels n_eqModels n_infModels n_crLgmModels n_crCirModels n_correlations
    fxConfigs eqConfigs infConfigs clear fmap option_fmap option_map].
  rewrite Hir, Hfx, Heq. cbn [res_bind]. rewrite Hinf. cbn [res_bind]. rewrite Hcr. cbn [res_bind].
  rewrite parse_correlations_toXML by done. cbn [res_bind correlations_fromXML]. by rewrite Hval.
Qed.

(** C18: Writing a loaded model configuration with [toXML] and loading the
    result with [fromXML] gives back the same configuration (lines 587-639
    against 209-427): the names, the IR, FX, equity, inflation and credit
    configurations come back exactly, the bootstrap tolerance and each
    correlation come back as [parseReal] reads the text [to_string] wrote,
    and the correlations are re-added in the order of the map.  This holds
    when the inflation children are written under names [fromXML] reads
    as their class, the correlation factors and their indices read back,
    and the configuration was loaded from a document that has an
    [InflationIndexModels] node or no inflation index. *)
Theorem toXML_roundtrip addCorrelation doc d0 d d1 :
  (inf_node_name InfDk = "LGM" \/ inf_node_name InfDk = "DodgsonKainth") ->
  inf_node_name InfJy = "JarrowYildirim" ->
  fromXML addCorrelation doc d0 = Ok d ->
  is_Some (x_infModels doc) \/ x_infindices doc = [] ->
  Forall (fun e => reads_back e.1.1 /\ reads_back e.1.2) (correlations d) ->
  fromXML addCorrelation
    (parse_cam parseReal parseInteger parseCorrelationFactor (toXML real_to_string size_to_string inf_node_name d)) d1 =
  Ok {| domesticCurrency := domesticCurrency d; currencies := currencies d; equities := equities d;
        infindices := infindices d; creditNames := creditNames d;
        bootstrapTolerance := parseReal (real_to_string (bootstrapTolerance d));
        irConfigs := irConfigs d; fxConfigs := fxConfigs d; eqConfigs := eqConfigs d;
        infConfigs := infConfigs d; crLgmConfigs := crLgmConfigs d; crCirConfigs := crCirConfigs d;
        correlations := foldl (fun cmb '(f1, f2, corr) => addCorrelation cmb f1 f2 corr) []
                          ((fun e => (e.1.1, e.1.2, parseReal (real_to_string e.2))) <$> correlations d) |}.
Proof. apply toXML_reload. Qed.

(** C19: A configuration loaded from a document without an
    [InflationIndexModels] node but with inflation indices cannot be read
    back from its own [toXML]: [toXML] always writes the node (line 617),
    empty here, so the reload finds no model data for the first index and
    throws (line 533). *)
Theorem toXML_inflation_unreadable addCorrelation doc d0 d d1 i rest :
  fromXML addCorrelation doc d0 = Ok d -> x_infModels doc = None -> x_infindices doc = i :: rest ->
  fromXML addCorrelation
    (parse_cam parseReal parseInteger parseCorrelationFactor (toXML real_to_string size_to_string inf_node_name d)) d1 = Err (MissingInf i).
Proof.
  intros Hload Hnone Hidx.
  destruct (reload_builders _ _ _ _ Hload) as (Hir & Hfx & Heq & _ & _).
  apply fromXML_Ok in Hload as Hd.
  destruct Hd as (ir & fx & eq & inf & lgm & cir & corr & _ & _ & _ & Hinf & _ & _ & _ & Hd).
  rewrite Hnone in Hinf. subst inf.
  unfold fromXML, parse_cam, toXML. cbn [x_domesticCcy x_currencies x_equities x_infindices x_creditNames
    x_bootstrapTolerance x_irModels x_fxModels x_eqModels x_infModels x_crLgmModels x_crCirModels
    x_correlations n_domesticCcy n_currencies n_equities n_infindices n_creditNames n_bootstrapTolerance
    n_irModels n_fxModels n_eqModels n_infModels n_crLgmModels n_crCirModels n_correlations
    fxConfigs eqConfigs infConfigs clear fmap option_fmap option_map].
  rewrite Hir, Hfx, Heq. cbn [res_bind]. rewrite Hd. cbn. by rewrite Hidx.
Qed.

(** C20: [toXML] followed by [fromXML] gives a configuration equal to the
    original under [operator==] (and not different under [operator!=]),
    the test the equality operators were written for (comment at lines
    163-165): this holds when the correlation store keeps its entries by
    key, each correlation value reads back close to itself and the
    tolerance reads back equal, besides the conditions of the round trip. *)
Theorem toXML_reload_equal addCorrelation close_enough doc d0 d d1 :
  readds_entries addCorrelation ->
  (inf_node_name InfDk = "LGM" \/ inf_node_name InfDk = "DodgsonKainth") ->
  inf_node_name InfJy = "JarrowYildirim" ->
  fromXML addCorrelation doc d0 = Ok d ->
  is_Some (x_infModels doc) \/ x_infindices doc = [] ->
  Forall (fun e => reads_back e.1.1 /\ reads_back e.1.2 /\
                   close_enough e.2 (parseReal (real_to_string e.2)) = true) (correlations d) ->
  (parseReal (real_to_string (bootstrapTolerance d)) == bootstrapTolerance d)%Q ->
  exists d', fromXML addCorrelation (parse_cam' (toXML' d)) d1 = Ok d' /\
    cam_eqb close_enough d d' = true /\ cam_neqb close_enough d d' = false.
Proof.
  intros Hlaw Hdk Hjy Hload Hnodes Hf Htol.
  assert (Hc : exists l, correlations d = foldl (fun cmb '(f1, f2, corr) => addCorrelation cmb f1 f2 corr) [] l).
  { apply fromXML_Ok in Hload as (ir & fx & eq & inf & lgm & cir & corr & _ & _ & _ & _ & _ & Hcorr & _ & ->).
    destruct (x_correlations doc) as [l|]; [injection Hcorr as <-; by exists l|done]. }
  destruct Hc as [l Hc].
  assert (Heqb : cam_eqb close_enough d (reread addCorrelation d) = true).
  { apply cam_eqb_intro; cbn; try done.
    pose proof (Hlaw l (fun q => parseReal (real_to_string q))) as Hl. cbn beta in Hl.
    rewrite Hc, Hl, <- Hc. apply Forall2_fmap_r, Forall_Forall2_diag.
    by eapply Forall_impl; [apply Hf|]; intros e (_ & _ & He). }
  exists (reread addCorrelation d). split_and!.
  - apply (toXML_reload _ doc d0); try done. by eapply Forall_impl; [apply Hf|]; intros e (? & ? & _).
  - done.
  - unfold cam_neqb. by rewrite Heqb.
Qed.

End RoundTrip.

End CamXmlIO.
