(* ===== verification/IterativeBootstrap.v ===== *)
(** * Iterative bootstrap (QuantExt/qle/termstructures/iterativebootstrap.hpp)

    [IterativeBootstrap<Curve>] fits a curve to a set of bootstrap helpers
    one pillar at a time: [setup] records the helpers, [initialize] sorts
    them by pillar date, skips the expired ones, lays out the pillar dates
    and times and checks that each helper extends the curve, and
    [calculate] runs a 1-d solver for each pillar, repeating the whole pass
    until the data stop moving when the interpolation is global, with a
    single retry from scratch when a solver fails on a curve reused as the
    guess.

    The curve ([Curve]) keeps the members the bootstrap reads and writes
    ([instruments_], [dates_], [times_], [data_], [maxDate_], [moving_],
    [accuracy_]); the bootstrap's own members are [Bootstrap].  The curve's
    traits ([Traits]: initial date and value, bracket and guess, iteration
    limit, the interpolator's [requiredPoints] and [global]) and the
    numerics (time from reference, the interpolator, the two solvers) are
    not in this file of src/ and are a [Traits] and [Numerics] record the
    section takes.  The solver returns the root it writes to [data_[i]] or
    [None] when it throws; [QuantLib::Linear] is taken not to throw.  Dates
    are serial numbers ([Z]).  Reads of a vector by index return
    [OutOfRange] when out of range (undefined behaviour in C++); the
    theorems show they never happen.  Loops bounded only by their data carry
    a fuel argument ([OutOfFuel]), and the theorems show the fuel given is
    enough.  Section [TotalSolver] assumes solvers that always find a root
    and shows which errors remain. *)

From S2P Require Import Prelude.
From Stdlib Require Import QArith Qabs Lqa.
Local Open Scope nat_scope.

Module IterativeBootstrap.

Record BootstrapHelper : Type := {
  pillarDate : Z; latestRelevantDate : Z; maturityDate : Z; quoteIsValid : bool }.

Record Curve : Type := {
  instruments : list BootstrapHelper;
  dates : list Z;
  times : list Q;
  data : list Q;
  maxDate : Z;
  moving : bool;
  accuracy : Q }.

Record Bootstrap : Type := {
  n : nat;
  initialized : bool;
  validCurve : bool;
  loopRequired : bool;
  firstAliveHelper : nat;
  alive : nat;
  previousData : list Q;
  errors : list (option nat);        (* errors_[i]: the helper index of pillar i *)
  globalAccuracy : Q }.

Inductive boot_error : Type :=
  | NoHelpers                                (* line 73 *)
  | AllExpired                               (* line 86 *)
  | NotEnoughAlive (alive : nat)             (* line 91 *)
  | DuplicatePillar (i : nat)                (* line 114 *)
  | NotExtending (j : nat)                   (* line 119 *)
  | InvalidQuote (j : nat)                   (* line 163 *)
  | InterpolationFailed (i : nat)            (* line 207 *)
  | SolverFailed (iteration i : nat)         (* line 234 *)
  | NoConvergence (iteration : nat)          (* line 254 *)
  | OutOfRange (k : nat)
  | OutOfFuel.

Record Traits : Type := {
  initialDate : Curve -> Z;
  initialValue : Q;
  maxIterations : nat;
  requiredPoints : nat;
  global : bool;
  minValueAfter : nat -> list Q -> bool -> nat -> Q;
  maxValueAfter : nat -> list Q -> bool -> nat -> Q;
  guess : nat -> list Q -> bool -> nat -> Q }.

Record Numerics : Type := {
  timeFromReference : Z -> Q;
  (** the curve's interpolator on the first [i + 1] times and data *)
  interpolate : list Q -> list Q -> bool;
  (** [solver_] (Newton, [true]) or [firstSolver_] (Brent, [false]) on
      pillar [i] with accuracy, guess, min, max *)
  solve : bool -> Curve -> nat -> Q -> Q -> Q -> Q -> option Q }.

(** [BootstrapHelperSorter]: by pillar date. *)
Definition pillar_le (h1 h2 : BootstrapHelper) : Prop := (pillarDate h1 <= pillarDate h2)%Z.
#[export] Instance pillar_le_dec : RelDecision pillar_le.
Proof. intros h1 h2. unfold pillar_le. apply _. Defined.

(** [std::max(a, b)] is [(a < b) ? b : a]. *)
Definition std_max (a b : Q) : Q := if Qle_bool b a then a else b.

Section Bootstrap.

Context (tr : Traits) (num : Numerics).

(** The constructor (lines 64-67). *)
Definition make_bootstrap (globalAcc : Q) : Bootstrap := {|
  n := 0; initialized := false; validCurve := false; loopRequired := global tr;
  firstAliveHelper := 0; alive := 0; previousData := []; errors := []; globalAccuracy := globalAcc |}.

(** [setup] (lines 69-76); registering as observer is not modelled. *)
Definition setup (ts : Curve) (b : Bootstrap) : res boot_error Bootstrap :=
  let n' := length (instruments ts) in
  let! _ := ql_require (bool_decide (0 < n')) NoHelpers in
  Ok {| n := n'; initialized := initialized b; validCurve := validCurve b;
        loopRequired := loopRequired b; firstAliveHelper := firstAliveHelper b; alive := alive b;
        previousData := previousData b; errors := errors b; globalAccuracy := globalAccuracy b |}.

Definition sort_helpers (l : list BootstrapHelper) : list BootstrapHelper :=
  merge_sort pillar_le l.

(** [while (instruments_[k]->pillarDate() <= firstDate) ++k;] (lines 87-89). *)
Fixpoint skip_expired (insts : list BootstrapHelper) (firstDate : Z) (fuel k : nat) : res boot_error nat :=
  match fuel with
  | 0 => Err OutOfFuel
  | S fuel' =>
      match insts !! k with
      | None => Err (OutOfRange k)
      | Some h => if Z.leb (pillarDate h) firstDate then skip_expired insts firstDate fuel' (S k) else Ok k
      end
  end.

(** The state of the pillar loop of [initialize]. *)
Record InitState : Type := {
  is_dates : list Z; is_times : list Q; is_maxDate : Z; is_loopRequired : bool;
  is_errors : list (option nat) }.

(** One helper [j] of the pillar loop (lines 107-133), pillar [i = j - fa + 1]. *)
Definition init_step (insts : list BootstrapHelper) (fa : nat) (s : InitState) (j : nat)
    : res boot_error InitState :=
  let i := j - fa + 1 in
  let! helper := of_option (insts !! j) (OutOfRange j) in
  let dates' := <[i := pillarDate helper]> (is_dates s) in
  let times' := <[i := timeFromReference num (pillarDate helper)]> (is_times s) in
  let! _ := ql_require (bool_decide (dates' !! (i - 1) <> dates' !! i)) (DuplicatePillar i) in
  let lrd := latestRelevantDate helper in
  let! _ := ql_require (Z.ltb (is_maxDate s) lrd) (NotExtending j) in
  Ok {| is_dates := dates'; is_times := times'; is_maxDate := lrd;
        is_loopRequired := is_loopRequired s || negb (Z.eqb (pillarDate helper) lrd);
        is_errors := <[i := Some j]> (is_errors s) |}.

(** [initialize] (lines 78-145). *)
Definition initialize (ts : Curve) (b : Bootstrap) : res boot_error (Curve * Bootstrap) :=
  let insts := sort_helpers (instruments ts) in
  let firstDate := initialDate tr ts in
  let! last := of_option (insts !! (n b - 1)) (OutOfRange (n b - 1)) in
  let! _ := ql_require (Z.ltb firstDate (pillarDate last)) AllExpired in
  let! fa := skip_expired insts firstDate (S (length insts)) 0 in
  let alive' := n b - fa in
  let! _ := ql_require (Z.geb (Z.of_nat alive') (size_sub (requiredPoints tr) 1)) (NotEnoughAlive alive') in
  let s0 := {| is_dates := <[0 := firstDate]> (resize (alive' + 1) 0%Z (dates ts));
               is_times := <[0 := timeFromReference num firstDate]> (resize (alive' + 1) 0%Q (times ts));
               is_maxDate := firstDate; is_loopRequired := loopRequired b;
               is_errors := resize (alive' + 1) None (errors b) |} in
  let! s := res_foldl (init_step insts fa) s0 (seq fa alive') in
  let reset := negb (validCurve b) || negb (length (data ts) =? alive' + 1) in
  Ok ({| instruments := insts; dates := is_dates s; times := is_times s;
         data := if reset then replicate (alive' + 1) (initialValue tr) else data ts;
         maxDate := is_maxDate s; moving := moving ts; accuracy := accuracy ts |},
      {| n := n b; initialized := true; validCurve := validCurve b;
         loopRequired := is_loopRequired s; firstAliveHelper := fa; alive := alive';
         previousData := if reset then resize (alive' + 1) 0%Q (previousData b) else previousData b;
         errors := is_errors s; globalAccuracy := globalAccuracy b |}).

(** The quote check of [calculate] (lines 159-172). *)
Definition check_quotes (ts : Curve) (b : Bootstrap) : res boot_error unit :=
  res_foldl (fun _ j =>
    let! helper := of_option (instruments ts !! j) (OutOfRange j) in
    ql_require (quoteIsValid helper) (InvalidQuote j)) tt (seq (firstAliveHelper b) (n b - firstAliveHelper b)).

(** Lines 193-197. *)
Definition adjust_guess (mn mx g : Q) : Q :=
  if Qle_bool mx g then mx - (mx - mn) / 5
  else if Qle_bool g mn then mn + (mx - mn) / 5
  else g.

Definition set_data (ts : Curve) (d : list Q) : Curve := {|
  instruments := instruments ts; dates := dates ts; times := times ts; data := d;
  maxDate := maxDate ts; moving := moving ts; accuracy := accuracy ts |}.

(** One pillar [i] of one pass (lines 186-241). *)
Definition pillar_step (validData : bool) (iteration : nat) (b : Bootstrap) (ts : Curve) (i : nat)
    : res boot_error Curve :=
  let fa := firstAliveHelper b in
  let mn := minValueAfter tr i (data ts) validData fa in
  let mx := maxValueAfter tr i (data ts) validData fa in
  let g := adjust_guess mn mx (guess tr i (data ts) validData fa) in
  let! _ := if validData then Ok tt
            else if interpolate num (take (i + 1) (times ts)) (take (i + 1) (data ts)) then Ok tt
            else if global tr then Ok tt
            else Err (InterpolationFailed i) in
  match solve num validData ts i (accuracy ts) g mn mx with
  | Some x => Ok (set_data ts (<[i := x]> (data ts)))
  | None => Err (SolverFailed iteration i)
  end.

(** The largest move of a pillar value over the pass (lines 247-249). *)
Definition change (alive' : nat) (d prev : list Q) : Q :=
  let dev i := Qabs (default 0%Q (d !! i) - default 0%Q (prev !! i)) in
  foldl (fun c i => std_max c (dev i)) (dev 1) (seq 2 (alive' - 1)).

Definition set_previousData (b : Bootstrap) (p : list Q) : Bootstrap := {|
  n := n b; initialized := initialized b; validCurve := validCurve b;
  loopRequired := loopRequired b; firstAliveHelper := firstAliveHelper b; alive := alive b;
  previousData := p; errors := errors b; globalAccuracy := globalAccuracy b |}.

(** The passes (lines 183-260), from pass [iteration]. *)
Fixpoint iterate (fuel iteration : nat) (validData : bool) (ts : Curve) (b : Bootstrap)
    : res boot_error (Curve * Bootstrap) :=
  match fuel with
  | 0 => Err OutOfFuel
  | S fuel' =>
      let b1 := set_previousData b (data ts) in
      let! ts' := res_foldl (pillar_step validData iteration b1) ts (seq 1 (alive b1)) in
      if negb (loopRequired b1) then Ok (ts', b1)
      else
        let c := change (alive b1) (data ts') (previousData b1) in
        if Qle_bool c (globalAccuracy b1) || Qle_bool c (accuracy ts') then Ok (ts', b1)
        else
          let! _ := ql_require (Z.ltb (Z.of_nat iteration) (size_sub (maxIterations tr) 1))
                      (NoConvergence iteration) in
          iterate fuel' (S iteration) true ts' b1
  end.

Definition set_flags (b : Bootstrap) (init valid : bool) : Bootstrap := {|
  n := n b; initialized := init; validCurve := valid;
  loopRequired := loopRequired b; firstAliveHelper := firstAliveHelper b; alive := alive b;
  previousData := previousData b; errors := errors b; globalAccuracy := globalAccuracy b |}.

(** Enough passes: the loop stops at pass [maxIterations - 1] at the latest. *)
Definition pass_fuel : nat := S (Z.to_nat (size_sub (maxIterations tr) 1)).

(** [calculate] (lines 147-263); a solver failure on a reused curve
    invalidates it and calls [calculate] again (lines 223-233).  On that
    call [initialize] runs again and, the curve being invalid, resets the
    data, so the retry starts from the state before the failed pass. *)
Fixpoint calculate_attempts (attempts : nat) (ts : Curve) (b : Bootstrap)
    : res boot_error (Curve * Bootstrap) :=
  match attempts with
  | 0 => Err OutOfFuel
  | S attempts' =>
      let! '(ts1, b1) := if negb (initialized b) || moving ts then initialize ts b else Ok (ts, b) in
      let! _ := check_quotes ts1 b1 in
      match iterate pass_fuel 0 (validCurve b1) ts1 b1 with
      | Ok (ts2, b2) => Ok (ts2, set_flags b2 (initialized b2) true)
      | Err (SolverFailed it i) =>
          if validCurve b1 then calculate_attempts attempts' ts1 (set_flags b1 false false)
          else Err (SolverFailed it i)
      | Err e => Err e
      end
  end.

Definition calculate (ts : Curve) (b : Bootstrap) : res boot_error (Curve * Bootstrap) :=
  calculate_attempts 2 ts b.

(** The errors the C++ code raises, as opposed to [OutOfRange] (an
    out-of-range read) and [OutOfFuel] (a loop given too few steps). *)
Definition genuine (e : boot_error) : Prop :=
  match e with OutOfRange _ | OutOfFuel => False | _ => True end.

(** What [setup] establishes and every operation keeps. *)
Definition boot_inv (ts : Curve) (b : Bootstrap) : Prop :=
  n b = length (instruments ts) /\ 0 < n b.

(** The pillar loop of [initialize] after its first [m] helpers. *)
Definition init_inv (insts : list BootstrapHelper) (fa alive' : nat) (fd : Z) (m : nat) (s : InitState)
    : Prop :=
  length (is_dates s) = alive' + 1 /\ is_dates s !! 0 = Some fd /\
  (forall i, 1 <= i <= m -> exists h, insts !! (fa + i - 1) = Some h /\ is_dates s !! i = Some (pillarDate h)) /\
  (forall i, 1 <= i <= m -> is_dates s !! (i - 1) <> is_dates s !! i) /\
  is_maxDate s = match m with 0 => fd | S m' => default 0%Z (latestRelevantDate <$> insts !! (fa + m')) end.

(** ** Lemmas: sorting and skipping expired helpers *)

#[export] Instance pillar_le_total : Total pillar_le.
Proof. intros h1 h2. unfold pillar_le. lia. Qed.
#[export] Instance pillar_le_trans : Transitive pillar_le.
Proof. intros h1 h2 h3. unfold pillar_le. lia. Qed.

Lemma length_sort_helpers l : length (sort_helpers l) = length l.
Proof. apply Permutation_length, merge_sort_Permutation. Qed.

Lemma sort_helpers_sorted l i j h1 h2 :
  i < j -> sort_helpers l !! i = Some h1 -> sort_helpers l !! j = Some h2 ->
  (pillarDate h1 <= pillarDate h2)%Z.
Proof.
  intros Hij H1 H2. apply (StronglySorted_lookup_lt pillar_le (sort_helpers l) i j); try done.
  apply StronglySorted_merge_sort; apply _.
Qed.

(** The [while] loop stops inside the vector, at the first helper whose
    pillar is after the first date, when such a helper exists at [m]. *)
Lemma skip_expired_Ok insts fd fuel k m h :
  k <= m -> m < k + fuel -> insts !! m = Some h -> (fd < pillarDate h)%Z ->
  exists k', skip_expired insts fd fuel k = Ok k' /\ k <= k' <= m /\
    (exists h', insts !! k' = Some h' /\ (fd < pillarDate h')%Z) /\
    (forall j, k <= j < k' -> exists h', insts !! j = Some h' /\ (pillarDate h' <= fd)%Z).
Proof.
  revert k. induction fuel as [|fuel IH]; intros k Hk Hm Hh Hfd; [lia|]. simpl.
  destruct (insts !! k) as [hk|] eqn:Ek.
  2: { apply lookup_ge_None in Ek. apply lookup_lt_Some in Hh. lia. }
  destruct (Z.leb_spec (pillarDate hk) fd) as [Hle|Hgt].
  - assert (k <> m) by (intros ->; rewrite Ek in Hh; injection Hh as ->; lia).
    destruct (IH (S k)) as (k' & Hrun & Hb & Halive & Hexp); [lia|lia|done|done|].
    exists k'. split_and!; [done|lia|lia|done|].
    intros j Hj. destruct (decide (j = k)) as [->|]; [by exists hk|]. apply Hexp. lia.
  - exists k. split_and!; [done|lia|lia|by exists hk|lia].
Qed.

Lemma skip_expired_err insts fd fuel k e :
  skip_expired insts fd fuel k = Err e -> e = OutOfFuel \/ exists k', e = OutOfRange k'.
Proof.
  revert k. induction fuel as [|fuel IH]; intros k H; simpl in H; [injection H; by left|].
  destruct (insts !! k); [|injection H as <-; right; eauto].
  destruct (Z.leb _ _); [by eapply IH|done].
Qed.

(** ** Lemmas: the pillar loop of [initialize] *)

Lemma init_inv_start insts fa alive' fd ds ts lr es :
  init_inv insts fa alive' fd 0
    {| is_dates := <[0 := fd]> (resize (alive' + 1) 0%Z ds); is_times := ts;
       is_maxDate := fd; is_loopRequired := lr; is_errors := es |}.
Proof.
  unfold init_inv; cbn. rewrite length_insert, length_resize.
  split_and!; [done| |intros; lia|intros; lia|done].
  apply list_lookup_insert_eq. rewrite length_resize. lia.
Qed.

Lemma init_step_inv insts fa alive' fd m s s' :
  m < alive' -> init_inv insts fa alive' fd m s -> init_step insts fa s (fa + m) = Ok s' ->
  init_inv insts fa alive' fd (S m) s'.
Proof.
  intros Hm (Hlen & H0 & Hp & Hne & Hmax) H. unfold init_step in H.
  replace (fa + m - fa + 1) with (S m) in H by lia. replace (S m - 1) with m in H by lia.
  apply res_bind_Ok in H as (h & Hh%of_option_Ok & H).
  apply res_bind_Ok in H as (u & Hdup%ql_require_Ok & H).
  apply res_bind_Ok in H as (u' & _ & [= <-]). apply bool_decide_eq_true in Hdup.
  unfold init_inv; cbn. rewrite length_insert.
  split_and!; [done|by rewrite list_lookup_insert_ne| | |].
  - intros i Hi. destruct (decide (i = S m)) as [->|Hne'].
    + exists h. split; [by replace (fa + S m - 1) with (fa + m) by lia|].
      apply list_lookup_insert_eq. lia.
    + rewrite list_lookup_insert_ne by lia. apply Hp. lia.
  - intros i Hi. destruct (decide (i = S m)) as [->|Hne'].
    + by replace (S m - 1) with m by lia.
    + rewrite !list_lookup_insert_ne by lia. apply Hne. lia.
  - by rewrite Hh.
Qed.

Lemma init_loop_inv insts fa alive' fd m s0 s :
  m <= alive' -> init_inv insts fa alive' fd 0 s0 ->
  res_foldl (init_step insts fa) s0 (seq fa m) = Ok s -> init_inv insts fa alive' fd m s.
Proof.
  revert s. induction m as [|m IH]; intros s Hm H0 H; [simpl in H; by injection H as <-|].
  rewrite seq_S, res_foldl_app in H. apply res_bind_Ok in H as (s1 & H1 & H).
  simpl in H. apply res_bind_Ok in H as (s2 & H2 & [= <-]).
  eapply init_step_inv; [lia|apply IH; [lia|done|done]|done].
Qed.

Lemma init_step_err insts fa s j e :
  j < length insts -> init_step insts fa s j = Err e -> genuine e.
Proof.
  intros Hj H. unfold init_step in H. destruct (lookup_lt_is_Some_2 insts j Hj) as [h Hh].
  rewrite Hh in H. cbn [of_option res_bind] in H. unfold ql_require in H.
  destruct (bool_decide _); cbn in H; [|by injection H as <-].
  destruct (Z.ltb _ _); cbn in H; [done|by injection H as <-].
Qed.

(** ** Lemmas: [initialize] *)

(** What a successful [initialize] establishes. *)
Lemma initialize_Ok ts b ts' b' :
  boot_inv ts b -> initialize ts b = Ok (ts', b') ->
  let insts := sort_helpers (instruments ts) in
  let fd := initialDate tr ts in
  exists s, firstAliveHelper b' < n b /\ alive b' = n b - firstAliveHelper b' /\
    n b' = n b /\ instruments ts' = insts /\ validCurve b' = validCurve b /\
    initialized b' = true /\ length (data ts') = alive b' + 1 /\
    (exists h, insts !! firstAliveHelper b' = Some h /\ (fd < pillarDate h)%Z) /\
    init_inv insts (firstAliveHelper b') (alive b') fd (alive b') s /\
    dates ts' = is_dates s /\ maxDate ts' = is_maxDate s.
Proof.
  intros [Hn Hpos] H insts fd. unfold initialize in H. cbv zeta in H. fold insts fd in H.
  pose proof (length_sort_helpers (instruments ts)) as Hlen. fold insts in Hlen.
  apply res_bind_Ok in H as (last & Hlast%of_option_Ok & H).
  apply res_bind_Ok in H as (u & Hexp%ql_require_Ok & H). apply Z.ltb_lt in Hexp.
  apply res_bind_Ok in H as (fa & Hfa & H).
  destruct (skip_expired_Ok insts fd (S (length insts)) 0 (n b - 1) last)
    as (fa' & Hfa' & Hb & Halive & _); [lia|lia|done|done|].
  rewrite Hfa in Hfa'. injection Hfa' as <-.
  apply res_bind_Ok in H as (u' & _ & H).
  apply res_bind_Ok in H as (s & Hloop & [= <- <-]). cbn.
  exists s. split_and!; try done; try lia.
  - destruct (negb _ || negb _) eqn:Hr; [by rewrite length_replicate|].
    apply orb_false_iff in Hr as [_ Hr]. apply negb_false_iff, Nat.eqb_eq in Hr. done.
  - eapply init_loop_inv; [done| |done]. apply init_inv_start.
Qed.

Lemma initialize_genuine ts b e : boot_inv ts b -> initialize ts b = Err e -> genuine e.
Proof.
  intros [Hn Hpos] H. unfold initialize in H. cbv zeta in H.
  set (insts := sort_helpers (instruments ts)) in H. set (fd := initialDate tr ts) in H.
  pose proof (length_sort_helpers (instruments ts)) as Hlen. fold insts in Hlen.
  destruct (lookup_lt_is_Some_2 insts (n b - 1)) as [last Hlast]; [lia|].
  rewrite Hlast in H. cbn [of_option res_bind] in H.
  unfold ql_require in H at 1.
  destruct (Z.ltb_spec fd (pillarDate last)) as [Hexp|]; cbn [res_bind] in H; [|by injection H as <-].
  destruct (skip_expired_Ok insts fd (S (length insts)) 0 (n b - 1) last)
    as (fa & Hfa & Hb & _); [lia|lia|done|done|].
  rewrite Hfa in H. cbn [res_bind] in H.
  unfold ql_require in H at 1. destruct (Z.geb _ _); cbn [res_bind] in H; [|by injection H as <-].
  apply res_bind_Err in H as [H|(s & _ & [=])].
  eapply res_foldl_err_elem; [|exact H]. intros s' j e' Hj%elem_of_seq Hstep.
  eapply init_step_err; [|exact Hstep]. lia.
Qed.

(** ** Lemmas: [calculate] *)

Lemma initialize_inv ts b ts' b' :
  boot_inv ts b -> initialize ts b = Ok (ts', b') ->
  boot_inv ts' b' /\ validCurve b' = validCurve b /\ initialized b' = true.
Proof.
  intros Hinv H. pose proof Hinv as [Hn Hpos].
  destruct (initialize_Ok ts b ts' b' Hinv H) as (s & _ & _ & Hn' & Hinst & Hv & Hi & _).
  split_and!; [|done|done]. split; [|lia]. by rewrite Hn', Hinst, length_sort_helpers.
Qed.

Lemma check_quotes_genuine ts b e : boot_inv ts b -> check_quotes ts b = Err e -> genuine e.
Proof.
  intros [Hn _] H. unfold check_quotes in H. eapply res_foldl_err_elem; [|exact H].
  intros u j e' Hj%elem_of_seq Hq. destruct (lookup_lt_is_Some_2 (instruments ts) j) as [h Hh]; [lia|].
  cbv beta in Hq. rewrite Hh in Hq. cbn in Hq. unfold ql_require in Hq. by destruct (quoteIsValid h); [|injection Hq as <-].
Qed.

Lemma pillar_step_err vd it b ts i e : pillar_step vd it b ts i = Err e -> genuine e.
Proof.
  unfold pillar_step. destruct vd; cbn [res_bind].
  - destruct (solve _ _ _ _ _ _ _ _); [done|by intros [= <-]].
  - destruct (interpolate _ _ _), (global tr); cbn [res_bind];
      try (destruct (solve _ _ _ _ _ _ _ _); [done|by intros [= <-]]); by intros [= <-].
Qed.

Lemma pillar_step_inst vd it b ts i ts' :
  pillar_step vd it b ts i = Ok ts' -> instruments ts' = instruments ts.
Proof.
  unfold pillar_step. intros H. apply res_bind_Ok in H as (_ & _ & H).
  destruct (solve _ _ _ _ _ _ _ _); [by injection H as <-|done].
Qed.

Lemma pillar_loop_inst vd it b ts l ts' :
  res_foldl (pillar_step vd it b) ts l = Ok ts' -> instruments ts' = instruments ts.
Proof.
  intros H. apply (res_foldl_invariant (fun ts1 => instruments ts1 = instruments ts)
    (pillar_step vd it b) l) with (s := ts); [|done|done].
  intros t i t' _ <- Ht. by eapply pillar_step_inst.
Qed.

(** The passes stop by pass [maxIterations - 1]: their fuel is never exhausted. *)
Lemma iterate_genuine fuel it vd ts b e :
  (Z.of_nat it <= size_sub (maxIterations tr) 1)%Z ->
  (size_sub (maxIterations tr) 1 < Z.of_nat it + Z.of_nat fuel)%Z ->
  iterate fuel it vd ts b = Err e -> genuine e.
Proof.
  revert it vd ts b. induction fuel as [|fuel IH]; intros it vd ts b Hle Hlt H; [lia|].
  simpl in H. apply res_bind_Err in H as [H|(ts' & _ & H)].
  { eapply res_foldl_err; [|exact H]. apply pillar_step_err. }
  destruct (negb _); [done|]. destruct (_ || _); [done|].
  unfold ql_require in H. destruct (Z.ltb_spec (Z.of_nat it) (size_sub (maxIterations tr) 1)); cbn in H.
  - apply (IH (S it) true ts' (set_previousData b (data ts))); [lia|lia|exact H].
  - by injection H as <-.
Qed.

Lemma iterate_inv fuel it vd ts b ts' b' :
  boot_inv ts b -> iterate fuel it vd ts b = Ok (ts', b') ->
  boot_inv ts' b' /\ initialized b' = initialized b.
Proof.
  revert it vd ts b. induction fuel as [|fuel IH]; intros it vd ts b Hinv H; [done|].
  simpl in H. apply res_bind_Ok in H as (ts1 & Hloop%pillar_loop_inst & H).
  assert (Hinv1 : boot_inv ts1 (set_previousData b (data ts))) by (unfold boot_inv in *; cbn; by rewrite Hloop).
  destruct (negb _); [by injection H as <- <-|]. destruct (_ || _); [by injection H as <- <-|].
  apply res_bind_Ok in H as (_ & _ & H). by apply IH in H as [? ->].
Qed.

Lemma pass_fuel_enough : (size_sub (maxIterations tr) 1 < Z.of_nat 0 + Z.of_nat pass_fuel)%Z.
Proof.
  unfold pass_fuel. pose proof (size_sub_range (maxIterations tr) 1).
  rewrite Nat2Z.inj_succ, Z2Nat.id; lia.
Qed.

Lemma calculate_attempts_genuine a ts b e :
  boot_inv ts b -> 0 < a -> (a = 1 -> initialized b = false /\ validCurve b = false) ->
  calculate_attempts a ts b = Err e -> genuine e.
Proof.
  revert ts b. induction a as [|a IH]; intros ts b Hinv Ha Hlast H; [lia|]. cbn [calculate_attempts] in H.
  destruct (negb (initialized b) || moving ts) eqn:Hinit.
  - destruct (initialize ts b) as [[ts1 b1]|e1] eqn:Hi; cbn [res_bind] in H.
    2: { injection H as <-. by eapply initialize_genuine. }
    destruct (initialize_inv _ _ _ _ Hinv Hi) as (Hinv1 & Hv & _).
    destruct (check_quotes ts1 b1) as [[]|e2] eqn:Hq; cbn [res_bind] in H.
    2: { injection H as <-. by eapply check_quotes_genuine. }
    destruct (iterate _ _ _ _ _) as [[ts2 b2]|e3] eqn:Hit; [done|].
    assert (He3 : genuine e3).
    { eapply iterate_genuine; [|apply pass_fuel_enough|exact Hit]. pose proof (size_sub_range (maxIterations tr) 1). lia. }
    destruct e3; try (by injection H as <-).
    destruct (validCurve b1) eqn:Hv1; [|by injection H as <-].
    apply (IH ts1 (set_flags b1 false false)); [exact Hinv1| |done|exact H].
    destruct a; [|lia]. destruct Hlast as [_ Hvb]; [done|]. congruence.
  - cbn [res_bind] in H. destruct (check_quotes ts b) as [[]|e2] eqn:Hq; cbn [res_bind] in H.
    2: { injection H as <-. by eapply check_quotes_genuine. }
    destruct (iterate _ _ _ _ _) as [[ts2 b2]|e3] eqn:Hit; [done|].
    assert (He3 : genuine e3).
    { eapply iterate_genuine; [|apply pass_fuel_enough|exact Hit]. pose proof (size_sub_range (maxIterations tr) 1). lia. }
    destruct e3; try (by injection H as <-).
    destruct (validCurve b) eqn:Hv1; [|by injection H as <-].
    apply (IH ts (set_flags b false false)); [exact Hinv| |done|exact H].
    destruct a; [|lia]. destruct Hlast as [Hi _]; [done|]. rewrite Hi in Hinit. done.
Qed.

Lemma calculate_attempts_inv a ts b ts' b' :
  boot_inv ts b -> calculate_attempts a ts b = Ok (ts', b') ->
  boot_inv ts' b' /\ validCurve b' = true /\ initialized b' = true.
Proof.
  revert ts b. induction a as [|a IH]; intros ts b Hinv H; [done|]. cbn [calculate_attempts] in H.
  destruct (negb (initialized b) || moving ts) eqn:Hinit.
  - destruct (initialize ts b) as [[ts1 b1]|e1] eqn:Hi; cbn [res_bind] in H; [|done].
    destruct (initialize_inv _ _ _ _ Hinv Hi) as (Hinv1 & _ & Hi1).
    destruct (check_quotes ts1 b1) as [[]|e2]; cbn [res_bind] in H; [|done].
    destruct (iterate _ _ _ _ _) as [[ts2 b2]|e3] eqn:Hit.
    + injection H as <- <-. apply iterate_inv in Hit as [[Hn Hp] Hi2]; [|done].
      split_and!; [by split|done|cbn; congruence].
    + destruct e3; try done. destruct (validCurve b1); [|done]. by eapply IH; [|exact H].
  - cbn [res_bind] in H. destruct (check_quotes ts b) as [[]|e2]; cbn [res_bind] in H; [|done].
    apply orb_false_iff in Hinit as [Hi%negb_false_iff _].
    destruct (iterate _ _ _ _ _) as [[ts2 b2]|e3] eqn:Hit.
    + injection H as <- <-. apply iterate_inv in Hit as [[Hn Hp] Hi2]; [|done].
      split_and!; [by split|done|cbn; congruence].
    + destruct e3; try done. destruct (validCurve b); [|done]. by eapply IH; [|exact H].
Qed.

Lemma Qle_bool_false x y : ~ (x <= y)%Q -> Qle_bool x y = false.
Proof. intros H. destruct (Qle_bool x y) eqn:E; [apply Qle_bool_iff in E; contradiction|done]. Qed.

(** ** Theorems *)

(** C11: [calculate] terminates and never reads out of range: from a state
    satisfying the invariant it either succeeds or throws one of the
    exceptions of the code.  The search for the first alive helper stops
    inside the vector, the passes stop by pass [maxIterations - 1], and the
    retry after a solver failure happens at most once, because the retry
    runs on an invalidated curve (lines 78-263). *)
Theorem calculate_genuine ts b e : boot_inv ts b -> calculate ts b = Err e -> genuine e.
Proof. intros Hinv. apply calculate_attempts_genuine; [done|lia|done]. Qed.

(** C14: A successful [calculate] keeps the invariant and leaves the curve
    initialized and valid, so the next call reuses it as a guess. *)
Theorem calculate_inv ts b ts' b' :
  boot_inv ts b -> calculate ts b = Ok (ts', b') ->
  boot_inv ts' b' /\ validCurve b' = true /\ initialized b' = true.
Proof. apply calculate_attempts_inv. Qed.

(** C15: After [initialize] the pillar dates start at the curve's initial
    date and strictly increase: the helpers are sorted by pillar date, the
    expired ones are skipped and equal pillars are rejected (lines 81-133). *)
Theorem initialize_dates_increasing ts b ts' b' :
  boot_inv ts b -> initialize ts b = Ok (ts', b') ->
  dates ts' !! 0 = Some (initialDate tr ts) /\ length (dates ts') = alive b' + 1 /\
  forall i, i < alive b' ->
    exists d1 d2, dates ts' !! i = Some d1 /\ dates ts' !! S i = Some d2 /\ (d1 < d2)%Z.
Proof.
  intros Hinv H.
  destruct (initialize_Ok ts b ts' b' Hinv H)
    as (s & Hfa & Halive & _ & _ & _ & _ & _ & (h0 & Hh0 & Hfd) & (Hlen & H0 & Hp & Hne & _) & -> & _).
  split_and!; [done|done|]. intros i Hi.
  destruct (Hp (S i)) as (h2 & Hh2 & Hd2); [lia|].
  destruct i as [|i].
  - exists (initialDate tr ts), (pillarDate h2). split_and!; [done|done|].
    replace (firstAliveHelper b' + 1 - 1) with (firstAliveHelper b') in Hh2 by lia. congruence.
  - destruct (Hp (S i)) as (h1 & Hh1 & Hd1); [lia|].
    exists (pillarDate h1), (pillarDate h2). split_and!; [done|done|].
    assert (Hle : (pillarDate h1 <= pillarDate h2)%Z).
    { eapply sort_helpers_sorted; [|exact Hh1|exact Hh2]. lia. }
    specialize (Hne (S (S i)) ltac:(lia)). replace (S (S i) - 1) with (S i) in Hne by lia.
    rewrite Hd1, Hd2 in Hne. assert (pillarDate h1 <> pillarDate h2) by congruence. lia.
Qed.

(** C24: The adjusted guess lies strictly inside a non-empty bracket: a guess
    at or beyond an end is moved a fifth of the bracket inside
    (lines 193-197). *)
Theorem adjust_guess_bracket mn mx g :
  (mn < mx)%Q -> (mn < adjust_guess mn mx g < mx)%Q.
Proof.
  intros Hlt. unfold adjust_guess, Qdiv. change (/ 5)%Q with (1 # 5)%Q.
  destruct (Qle_bool mx g) eqn:E1; [apply Qle_bool_iff in E1; lra|].
  destruct (Qle_bool g mn) eqn:E2; [apply Qle_bool_iff in E2; lra|].
  apply not_true_iff_false in E1, E2. rewrite Qle_bool_iff in E1, E2.
  apply Qnot_le_lt in E1, E2. lra.
Qed.

(** C23: The exit test of a pass (lines 251-252) accepts a change up to the
    larger of the global accuracy and the curve's accuracy, as the class's
    comment says: when the interpolation needs the loop and the largest move
    of the pass is within [max(globalAccuracy, accuracy)], the bootstrap
    stops after that pass. *)
Theorem iterate_stops fuel it vd ts b ts' :
  loopRequired b = true ->
  res_foldl (pillar_step vd it (set_previousData b (data ts))) ts (seq 1 (alive b)) = Ok ts' ->
  (change (alive b) (data ts') (data ts) <= std_max (globalAccuracy b) (accuracy ts'))%Q ->
  iterate (S fuel) it vd ts b = Ok (ts', set_previousData b (data ts)).
Proof.
  intros Hloop Hpass Hc. cbn [iterate].
  change (alive (set_previousData b (data ts))) with (alive b). rewrite Hpass. cbn [res_bind].
  change (loopRequired (set_previousData b (data ts))) with (loopRequired b).
  change (previousData (set_previousData b (data ts))) with (data ts).
  change (globalAccuracy (set_previousData b (data ts))) with (globalAccuracy b).
  rewrite Hloop. cbn [negb].
  unfold std_max in Hc. destruct (Qle_bool (accuracy ts') (globalAccuracy b)) eqn:E.
  - by rewrite (proj2 (Qle_bool_iff _ _) Hc).
  - by rewrite (proj2 (Qle_bool_iff _ _) Hc), orb_true_r.
Qed.

(** C25: [maxIterations = Traits::maxIterations() - 1] is a [Size]: with
    [Traits::maxIterations() = 0] it wraps to [2^64 - 1], and a pass that
    does not converge is followed by the next pass instead of failing the
    convergence check [iteration < maxIterations] (line 254), for every
    pass below [2^64 - 1]. *)
Theorem max_iterations_wraps fuel it vd ts b ts' :
  maxIterations tr = 0 -> (Z.of_nat it < 2 ^ 64 - 1)%Z -> loopRequired b = true ->
  res_foldl (pillar_step vd it (set_previousData b (data ts))) ts (seq 1 (alive b)) = Ok ts' ->
  (std_max (globalAccuracy b) (accuracy ts') < change (alive b) (data ts') (data ts))%Q ->
  iterate (S fuel) it vd ts b = iterate fuel (S it) true ts' (set_previousData b (data ts)).
Proof.
  intros H0 Hit Hloop Hpass Hc. cbn [iterate].
  change (alive (set_previousData b (data ts))) with (alive b). rewrite Hpass. cbn [res_bind].
  change (loopRequired (set_previousData b (data ts))) with (loopRequired b).
  change (previousData (set_previousData b (data ts))) with (data ts).
  change (globalAccuracy (set_previousData b (data ts))) with (globalAccuracy b).
  rewrite Hloop. cbn [negb].
  unfold std_max in Hc. destruct (Qle_bool (accuracy ts') (globalAccuracy b)) eqn:E.
  - apply Qle_bool_iff in E.
    rewrite (Qle_bool_false _ _) by (intros Hle; apply (Qlt_not_le _ _ Hc); done).
    rewrite (Qle_bool_false _ _) by (intros Hle; apply (Qlt_not_le _ _ Hc); eapply Qle_trans; eauto).
    rewrite H0. assert (Hs : size_sub 0 1 = (2 ^ 64 - 1)%Z) by reflexivity. rewrite Hs.
    rewrite (proj2 (ql_require_Ok _ _ tt)) by (apply Z.ltb_lt; lia). done.
  - assert (Hlt : (globalAccuracy b < accuracy ts')%Q).
    { apply Qnot_le_lt. intros Hle. apply Qle_bool_iff in Hle. congruence. }
    rewrite (Qle_bool_false _ _) by (intros Hle; apply (Qlt_not_le _ _ Hc); apply Qlt_le_weak;
      eapply Qle_lt_trans; eauto).
    rewrite (Qle_bool_false _ _) by (intros Hle; apply (Qlt_not_le _ _ Hc); done).
    rewrite H0. assert (Hs : size_sub 0 1 = (2 ^ 64 - 1)%Z) by reflexivity. rewrite Hs.
    rewrite (proj2 (ql_require_Ok _ _ tt)) by (apply Z.ltb_lt; lia). done.
Qed.

(** On an invalid curve [initialize] resets the data to the initial value
    and leaves the curve invalid (lines 136-142). *)
Lemma initialize_reset ts b ts' b' :
  validCurve b = false -> initialize ts b = Ok (ts', b') ->
  data ts' = replicate (alive b' + 1) (initialValue tr) /\ validCurve b' = false.
Proof. intros Hv H. unfold initialize in H. res_inv. cbn. by rewrite Hv. Qed.

(** C13: A solver failure on a curve reused as the guess invalidates it and
    calls [calculate] again (lines 223-233): the retry initializes afresh,
    starting every pillar from the traits' initial value (lines 136-142),
    and runs the passes with the first solver; what it returns is what
    [calculate] returns, its solver failure included. *)
Theorem calculate_retry_fresh ts b ts1 b1 it i ts2 b2 :
  (if negb (initialized b) || moving ts then initialize ts b else Ok (ts, b)) = Ok (ts1, b1) ->
  check_quotes ts1 b1 = Ok tt -> validCurve b1 = true ->
  iterate pass_fuel 0 true ts1 b1 = Err (SolverFailed it i) ->
  initialize ts1 (set_flags b1 false false) = Ok (ts2, b2) ->
  data ts2 = replicate (alive b2 + 1) (initialValue tr) /\
  calculate ts b =
    (let! _ := check_quotes ts2 b2 in
     match iterate pass_fuel 0 false ts2 b2 with
     | Ok (ts3, b3) => Ok (ts3, set_flags b3 (initialized b3) true)
     | Err e => Err e
     end).
Proof.
  intros Hinit Hq Hv Hit Hre. destruct (initialize_reset ts1 (set_flags b1 false false) ts2 b2 eq_refl Hre) as [Hd Hv2].
  split; [done|]. unfold calculate. cbn [calculate_attempts]. rewrite Hinit. cbn [res_bind].
  rewrite Hq. cbn [res_bind]. rewrite Hv, Hit. cbn [calculate_attempts initialized set_flags negb orb].
  rewrite Hre. cbn [res_bind]. rewrite Hv2.
  destruct (check_quotes ts2 b2); cbn [res_bind]; [|done].
  by destruct (iterate pass_fuel 0 false ts2 b2) as [[]|[]].
Qed.

(** ** A solver that always finds a root *)

Section TotalSolver.

(** The 1-d solvers return a root on every call and the interpolation of
    the first pillars never fails. *)
Hypothesis solve_total : forall vd c i acc g mn mx, is_Some (solve num vd c i acc g mn mx).
Hypothesis interpolate_total : forall t d, interpolate num t d = true.

Lemma pillar_step_total vd it b ts i : exists ts', pillar_step vd it b ts i = Ok ts'.
Proof.
  unfold pillar_step. rewrite interpolate_total. destruct vd; cbn [res_bind];
  match goal with |- context [solve num ?a ?b ?c ?d ?e ?f ?g] => destruct (solve_total a b c d e f g) as [x ->] end;
  eauto.
Qed.

(** The passes then throw only [NoConvergence], and only when the
    convergence loop is required. *)
Lemma iterate_total fuel it vd ts b e :
  (Z.of_nat it <= size_sub (maxIterations tr) 1)%Z ->
  (size_sub (maxIterations tr) 1 < Z.of_nat it + Z.of_nat fuel)%Z ->
  iterate fuel it vd ts b = Err e -> (exists it', e = NoConvergence it') /\ loopRequired b = true.
Proof.
  revert it vd ts b. induction fuel as [|fuel IH]; intros it vd ts b Hle Hlt H; [lia|].
  cbn [iterate] in H. apply res_bind_Err in H as [H|(ts' & _ & H)].
  { destruct (res_foldl_total _ (seq 1 (alive (set_previousData b (data ts))))
      (pillar_step_total vd it (set_previousData b (data ts))) ts) as [? Hok]. congruence. }
  change (loopRequired (set_previousData b (data ts))) with (loopRequired b) in H.
  destruct (loopRequired b); cbn [negb] in H; [|done]. destruct (_ || _); [done|].
  unfold ql_require in H. destruct (Z.ltb_spec (Z.of_nat it) (size_sub (maxIterations tr) 1)); cbn in H.
  - apply (IH (S it) true ts' (set_previousData b (data ts))) in H as [? _]; [done|lia|lia].
  - injection H as <-. eauto.
Qed.

(** C12: With solvers that always find a root and an interpolation that
    never fails, a [calculate] whose initialization and quote check pass
    returns a curve, or throws the non-convergence error of the loop (line
    254) when the convergence loop is required: no pillar throws, and the
    retry after a solver failure (lines 223-233) never happens. *)
Theorem calculate_total_solver ts b ts1 b1 :
  (if negb (initialized b) || moving ts then initialize ts b else Ok (ts, b)) = Ok (ts1, b1) ->
  check_quotes ts1 b1 = Ok tt ->
  (exists r, calculate ts b = Ok r) \/
  ((exists it, calculate ts b = Err (NoConvergence it)) /\ loopRequired b1 = true).
Proof.
  intros Hinit Hq. unfold calculate. cbn [calculate_attempts]. rewrite Hinit. cbn [res_bind]. rewrite Hq.
  cbn [res_bind]. destruct (iterate pass_fuel 0 (validCurve b1) ts1 b1) as [[ts2 b2]|e] eqn:Hit;
    [left; eexists; reflexivity|].
  pose proof (size_sub_range (maxIterations tr) 1).
  destruct (iterate_total pass_fuel 0 (validCurve b1) ts1 b1 e ltac:(lia) pass_fuel_enough Hit) as [[it ->] Hl].
  right; split; [eexists; reflexivity|done].
Qed.

End TotalSolver.

End Bootstrap.

End IterativeBootstrap.
