(* ===== verification/NormalSabr.v ===== *)
(** * Normal SABR (QuantExt/qle/models/normalsabr.cpp)

    [normalSabrVolatility] is Hagan's normal (Bachelier) SABR implied
    volatility with the parameters first clamped ([alpha >= 1e-5],
    [rho] within [1e-5] of the open interval (-1, 1)) and the result
    floored at [1e-5]; [normalSabrAlphaFromAtmVol] inverts its at-the-money
    value.  [deltaR], [gfct] and [R] are helpers of the free-boundary SABR
    expansion; [G] has no [return] statement and
    [normalFreeBoundarySabrVolatility] is declared but not defined, so
    neither is modelled.

    Doubles are real numbers: rounding and overflow are not modelled.  A
    square root of a negative number or a logarithm of a non-positive one,
    which yield NaN or an infinity in C++, is [None]; the [QL_REQUIRE] on
    [std::isfinite(vol)] is then the error [InvalidVol].  The theorems show
    these cases never arise.  [close_enough] is QuantLib's comparison with
    42 ulps (ql/math/comparison.hpp, not under src/). *)

From S2P Require Import Prelude.
From Stdlib Require Import Reals Lra.
Local Open Scope R_scope.

Module NormalSabr.

(** [QL_EPSILON], the machine epsilon of a double. *)
Definition QL_EPSILON : R := / (2 ^ 52).

(** [close_enough(x, y)] with [n = 42]. *)
Definition close_enough (x y : R) : bool :=
  if Req_dec_T x y then true
  else
    let diff := Rabs (x - y) in
    let tolerance := 42 * QL_EPSILON in
    if Req_dec_T x 0 then (if Rlt_dec diff (tolerance * tolerance) then true else false)
    else if Req_dec_T y 0 then (if Rlt_dec diff (tolerance * tolerance) then true else false)
    else if Rle_dec diff (tolerance * Rabs x) then true
    else if Rle_dec diff (tolerance * Rabs y) then true else false.

(** [std::max(a, b)] is [(a < b) ? b : a]. *)
Definition std_max (a b : R) : R := if Rlt_dec a b then b else a.

(** [std::sqrt] and [std::log] with their NaN/infinite results as [None]. *)
Definition fsqrt (x : R) : option R := if Rlt_dec x 0 then None else Some (sqrt x).
Definition flog (x : R) : option R := if Rle_dec x 0 then None else Some (ln x).

Inductive sabr_error : Type := InvalidVol.

Definition floor_vol : R := / 100000.

(** [normalSabrVolatility] (lines 26-46). *)
Definition normalSabrVolatility (strike forward expiryTime alpha nu rho : R) : res sabr_error R :=
  let alpha := std_max alpha floor_vol in
  let rho := if Rlt_dec rho (-1 + floor_vol) then -1 + floor_vol
             else if Rlt_dec (1 - floor_vol) rho then 1 - floor_vol
             else rho in
  let zeta := nu / alpha * (forward - strike) in
  match fsqrt (1 - 2 * rho * zeta + zeta * zeta) with
  | None => Err InvalidVol
  | Some sq =>
      match flog ((sq - rho + zeta) / (1 - rho)) with
      | None => Err InvalidVol
      | Some x =>
          let f := if close_enough x 0 then 1 else zeta / x in
          let vol := alpha * f * (1 + expiryTime * (2 - 3 * rho * rho) * nu * nu / 24) in
          Ok (std_max vol floor_vol)
      end
  end.

(** [normalSabrAlphaFromAtmVol] (lines 48-50). *)
Definition normalSabrAlphaFromAtmVol (forward expiryTime atmVol nu rho : R) : R :=
  std_max (atmVol / (1 + expiryTime * (2 - 3 * rho * rho) * nu * nu / 24)) floor_vol.

(** [deltaR] (line 54), as written. *)
Definition deltaR (t s : R) : R := exp (t / 8) - (3072 + t * (384 * t * (24 + t))) / 3072.

(** What [deltaR] stands for in the expansion: [exp(t/8)] minus its
    third-order Taylor polynomial [(3072 + t (384 + t (24 + t))) / 3072]. *)
Definition deltaR_taylor (t : R) : R := exp (t / 8) - (3072 + t * (384 + t * (24 + t))) / 3072.

(** [gfct] (line 56). *)
Definition gfct (s : R) : R := s / tanh s - 1.

(** [R] (lines 58-69). *)
Definition R_fct (t s : R) : R :=
  let s2 := s * s in
  let s4 := s2 * s2 in
  let s6 := s2 * s4 in
  let t2 := t * t in
  let t3 := t2 * t in
  let g := gfct s in
  let g2 := g * g in
  let g3 := g2 * g in
  1 + 3 * t * g / (8 * s2) - (5 * t2 * (-8 * s2 + 3 * g2 + 24 * g)) / (128 * s4) +
  (35 * t3 * (-40 * s2 + 3 * g3 + 24 * g2 + 120 * g)) / (1024 * s6).

(** The correction factor of the at-the-money volatility. *)
Definition atm_factor (expiryTime nu rho : R) : R := 1 + expiryTime * (2 - 3 * rho * rho) * nu * nu / 24.

(** ** Lemmas *)

Lemma std_max_l a b : b <= a -> std_max a b = a.
Proof. unfold std_max. destruct (Rlt_dec a b); lra. Qed.

Lemma std_max_r a b : a < b -> std_max a b = b.
Proof. unfold std_max. destruct (Rlt_dec a b); lra. Qed.

Lemma std_max_ge a b : b <= std_max a b.
Proof. unfold std_max. destruct (Rlt_dec a b); lra. Qed.

Lemma floor_vol_pos : 0 < floor_vol.
Proof. unfold floor_vol. apply Rinv_0_lt_compat. lra. Qed.

Lemma floor_vol_small : floor_vol < / 2.
Proof. unfold floor_vol. apply Rinv_lt_contravar; lra. Qed.

(** The clamped correlation lies strictly inside (-1, 1). *)
Lemma clamp_rho_range rho :
  let r := if Rlt_dec rho (-1 + floor_vol) then -1 + floor_vol
           else if Rlt_dec (1 - floor_vol) rho then 1 - floor_vol else rho in
  -1 < r < 1.
Proof.
  pose proof floor_vol_pos. pose proof floor_vol_small.
  cbv zeta. destruct (Rlt_dec rho (-1 + floor_vol)); [lra|].
  destruct (Rlt_dec (1 - floor_vol) rho); lra.
Qed.

(** The square root's argument is positive and the logarithm's argument is
    positive when [|rho| < 1]. *)
Lemma sabr_log_arg_pos rho zeta :
  -1 < rho < 1 ->
  0 < 1 - 2 * rho * zeta + zeta * zeta /\
  0 < (sqrt (1 - 2 * rho * zeta + zeta * zeta) - rho + zeta) / (1 - rho).
Proof.
  intros Hr. assert (Hsq : 1 - 2 * rho * zeta + zeta * zeta = Rsqr (zeta - rho) + (1 - rho * rho))
    by (unfold Rsqr; ring).
  assert (Hpos : 0 < 1 - rho * rho) by nra.
  split; [rewrite Hsq; pose proof (Rle_0_sqr (zeta - rho)); lra|].
  apply Rdiv_lt_0_compat; [|lra].
  assert (Hlt : Rabs (zeta - rho) < sqrt (1 - 2 * rho * zeta + zeta * zeta)).
  { rewrite <- sqrt_Rsqr_abs. apply sqrt_lt_1; [apply Rle_0_sqr| |]; rewrite Hsq;
      pose proof (Rle_0_sqr (zeta - rho)); lra. }
  pose proof (Rle_abs (rho - zeta)) as Hab. rewrite Rabs_minus_sym in Hab. lra.
Qed.

Lemma close_enough_refl x : close_enough x x = true.
Proof. unfold close_enough. by destruct (Req_dec_T x x). Qed.

(** ** Theorems *)

(** C21: [normalSabrVolatility] always returns a volatility of at least
    [1e-5]: after the clamping of [rho] the square root and the logarithm
    are taken of positive numbers, so the [QL_REQUIRE] on a finite result
    never fires (in exact arithmetic; overflow is not modelled). *)
Theorem normalSabrVolatility_total strike forward expiryTime alpha nu rho :
  exists v, normalSabrVolatility strike forward expiryTime alpha nu rho = Ok v /\ floor_vol <= v.
Proof.
  unfold normalSabrVolatility.
  pose proof (clamp_rho_range rho) as Hr. cbv zeta in Hr |- *.
  set (r := if Rlt_dec rho (-1 + floor_vol) then _ else _) in *.
  set (zeta := nu / std_max alpha floor_vol * (forward - strike)).
  destruct (sabr_log_arg_pos r zeta Hr) as [Hsq Hlog].
  unfold fsqrt. destruct (Rlt_dec _ 0); [lra|].
  unfold flog. destruct (Rle_dec _ 0); [lra|].
  eexists. split; [reflexivity|]. apply std_max_ge.
Qed.

(** C22: At the money, the volatility of the alpha that
    [normalSabrAlphaFromAtmVol] returns is the at-the-money volatility
    given, when [rho] needs no clamping, the correction factor is positive
    and the resulting alpha is not floored. *)
Theorem atm_roundtrip forward expiryTime atmVol nu rho :
  -1 + floor_vol <= rho <= 1 - floor_vol -> 0 < atm_factor expiryTime nu rho ->
  floor_vol <= atmVol / atm_factor expiryTime nu rho -> floor_vol <= atmVol ->
  normalSabrVolatility forward forward expiryTime
    (normalSabrAlphaFromAtmVol forward expiryTime atmVol nu rho) nu rho = Ok atmVol.
Proof.
  intros Hr Hc Ha Hv. unfold normalSabrVolatility, normalSabrAlphaFromAtmVol.
  fold (atm_factor expiryTime nu rho). rewrite (std_max_l _ floor_vol Ha), (std_max_l _ floor_vol Ha).
  destruct (Rlt_dec rho (-1 + floor_vol)); [lra|]. destruct (Rlt_dec (1 - floor_vol) rho); [lra|].
  replace (nu / (atmVol / atm_factor expiryTime nu rho) * (forward - forward)) with 0 by ring.
  replace (1 - 2 * rho * 0 + 0 * 0) with 1 by ring.
  unfold fsqrt. destruct (Rlt_dec 1 0); [lra|]. rewrite sqrt_1.
  pose proof floor_vol_pos. pose proof floor_vol_small.
  replace ((1 - rho + 0) / (1 - rho)) with 1 by (field; lra).
  unfold flog. destruct (Rle_dec 1 0); [lra|]. rewrite ln_1, close_enough_refl.
  fold (atm_factor expiryTime nu rho).
  replace (atmVol / atm_factor expiryTime nu rho * 1 * atm_factor expiryTime nu rho) with atmVol by (field; lra).
  by rewrite std_max_l.
Qed.

(** C30: When the at-the-money correction factor is negative (long expiry,
    large [nu], [|rho| > sqrt(2/3)]), the round trip fails: whatever
    at-the-money volatility is given, the model returns the floor [1e-5]. *)
Theorem atm_negative_factor_floor forward expiryTime atmVol nu rho :
  -1 + floor_vol <= rho <= 1 - floor_vol -> atm_factor expiryTime nu rho < 0 ->
  normalSabrVolatility forward forward expiryTime
    (normalSabrAlphaFromAtmVol forward expiryTime atmVol nu rho) nu rho = Ok floor_vol.
Proof.
  intros Hr Hc. unfold normalSabrVolatility.
  set (a := normalSabrAlphaFromAtmVol forward expiryTime atmVol nu rho).
  assert (Ha : floor_vol <= a) by apply std_max_ge.
  rewrite (std_max_l a floor_vol Ha).
  destruct (Rlt_dec rho (-1 + floor_vol)); [lra|]. destruct (Rlt_dec (1 - floor_vol) rho); [lra|].
  replace (nu / a * (forward - forward)) with 0 by ring.
  replace (1 - 2 * rho * 0 + 0 * 0) with 1 by ring.
  unfold fsqrt. destruct (Rlt_dec 1 0); [lra|]. rewrite sqrt_1.
  pose proof floor_vol_pos. pose proof floor_vol_small.
  replace ((1 - rho + 0) / (1 - rho)) with 1 by (field; lra).
  unfold flog. destruct (Rle_dec 1 0); [lra|]. rewrite ln_1, close_enough_refl.
  fold (atm_factor expiryTime nu rho). rewrite std_max_r; [done|]. nra.
Qed.

(** [deltaR] is meant to be [exp(t/8)] minus its third-order Taylor
    polynomial [(3072 + t (384 + t (24 + t))) / 3072], but line 54 writes
    [t * (384 * t * (24 + t))]: at [t = 1] the code's value is below [-1]
    while the remainder it stands for is above [-1/100]. *)
Theorem deltaR_misparenthesized s : deltaR 1 s < -1 /\ -1 / 100 < deltaR_taylor 1.
Proof.
  unfold deltaR, deltaR_taylor. split.
  - assert (exp (1 / 8) < exp 1) by (apply exp_increasing; lra). pose proof exp_le_3. lra.
  - assert (1 + 1 / 8 < exp (1 / 8)) by (apply exp_ineq1; lra). lra.
Qed.

End NormalSabr.
