(* ===== verification/SensitivityScenarioData.v ===== *)
(** * Sensitivity scenario data (OREAnalytics/orea/scenario/sensitivityscenariodata.hpp)

    [SensitivityScenarioData] holds the parametrisation of the sensitivity
    scenarios: for each risk factor class a list of names and a map from
    name to its shift data.  The class has a default constructor, a const
    inspector and a setter returning a reference for each member but the
    two inflation members, and declares [fromXML], [toXML] and
    [getIndexCurrency], whose definitions are not under src/.

    The object is modelled as its members: [Member] lists them, with their
    declared types ([member_type]), and a value of the class is a value of
    each member ([SensitivityScenarioData], a dependent function over
    [Member]).  [get] reads a member and [set] writes one, as an
    assignment through a setter's reference does.  The accessors are the
    tables [inspector_member] and [setter_member]: the member each one
    returns.  [std::map<string, T>] is [gmap string T], [Real] is [Q]. *)

From S2P Require Import Prelude.
From Stdlib Require Import QArith.
Local Open Scope nat_scope.

Module SensitivityScenarioData.

(** [enum class ShiftType] (line 48). *)
Inductive ShiftType : Type := Absolute | Relative.

(** [QuantLib::TimeUnit] and [QuantLib::Period]. *)
Inductive TimeUnit : Type := Days | Weeks | Months | Years | Hours | Minutes | Seconds | Milliseconds | Microseconds.
Record Period : Type := { period_length : Z; period_units : TimeUnit }.

(** ** The shift data structs (lines 50-101) *)

Record CurveShiftData : Type := {
  csd_shiftType : string; csd_shiftSize : Q; csd_shiftTenors : list Period;
  csd_parInstruments : list string; csd_parInstrumentSingleCurve : bool;
  csd_parInstrumentConventions : gmap string string }.

Record CapFloorVolShiftData : Type := {
  cfv_shiftType : string; cfv_shiftSize : Q; cfv_shiftExpiries : list Period;
  cfv_shiftStrikes : list Q; cfv_indexName : string }.

Record SwaptionVolShiftData : Type := {
  swv_shiftType : string; swv_shiftSize : Q; swv_shiftExpiries : list Period;
  swv_shiftTerms : list Period; swv_shiftStrikes : list Q; swv_indexName : string }.

Record VolShiftData : Type := {
  vol_shiftType : string; vol_shiftSize : Q; vol_shiftExpiries : list Period; vol_shiftStrikes : list Q }.

Record SpotShiftData : Type := { spot_shiftType : string; spot_shiftSize : Q }.

Record CdsVolShiftData : Type := {
  cds_ccy : string; cds_shiftType : string; cds_shiftSize : Q; cds_shiftExpiries : list Period }.

Record BaseCorrelationShiftData : Type := {
  bc_indexName : string; bc_shiftType : string; bc_shiftSize : Q;
  bc_shiftTerms : list Period; bc_shiftLossLevels : list Q }.

(** ** Members and accessors *)

(** The members of the class (lines 230-276), one constructor each. *)
Inductive Member : Type :=
  | parConversion_
  | discountCurrencies_
  | discountCurveShiftData_
  | indexNames_
  | indexCurveShiftData_
  | yieldCurveNames_
  | yieldCurveShiftData_
  | capFloorVolCurrencies_
  | capFloorVolShiftData_
  | swaptionVolCurrencies_
  | swaptionVolShiftData_
  | fxVolCcyPairs_
  | fxVolShiftData_
  | fxCcyPairs_
  | fxShiftData_
  | cdsVolNames_
  | cdsVolShiftData_
  | inflationIndices_
  | inflationCurveShiftData_
  | creditNames_
  | creditCcys_
  | creditCurveShiftData_
  | equityVolNames_
  | equityVolShiftData_
  | equityNames_
  | equityShiftData_
  | dividendYieldNames_
  | dividendYieldShiftData_
  | baseCorrelationNames_
  | baseCorrelationShiftData_
  | crossGammaFilter_.

#[export] Instance Member_eq_dec : EqDecision Member.
Proof. solve_decision. Defined.

(** The declared type of each member. *)
Definition member_type (m : Member) : Type :=
  match m with
  | parConversion_ => bool
  | discountCurrencies_ => list string
  | discountCurveShiftData_ => gmap string CurveShiftData
  | indexNames_ => list string
  | indexCurveShiftData_ => gmap string CurveShiftData
  | yieldCurveNames_ => list string
  | yieldCurveShiftData_ => gmap string CurveShiftData
  | capFloorVolCurrencies_ => list string
  | capFloorVolShiftData_ => gmap string CapFloorVolShiftData
  | swaptionVolCurrencies_ => list string
  | swaptionVolShiftData_ => gmap string SwaptionVolShiftData
  | fxVolCcyPairs_ => list string
  | fxVolShiftData_ => gmap string VolShiftData
  | fxCcyPairs_ => list string
  | fxShiftData_ => gmap string SpotShiftData
  | cdsVolNames_ => list string
  | cdsVolShiftData_ => gmap string CdsVolShiftData
  | inflationIndices_ => list string
  | inflationCurveShiftData_ => gmap string CurveShiftData
  | creditNames_ => list string
  | creditCcys_ => gmap string string
  | creditCurveShiftData_ => gmap string CurveShiftData
  | equityVolNames_ => list string
  | equityVolShiftData_ => gmap string VolShiftData
  | equityNames_ => list string
  | equityShiftData_ => gmap string SpotShiftData
  | dividendYieldNames_ => list string
  | dividendYieldShiftData_ => gmap string CurveShiftData
  | baseCorrelationNames_ => list string
  | baseCorrelationShiftData_ => gmap string BaseCorrelationShiftData
  | crossGammaFilter_ => list (string * string)
  end.

(** The accessors, one per name (const inspector and setter alike). *)
Inductive Accessor : Type :=
  | parConversion
  | discountCurrencies
  | discountCurveShiftData
  | indexNames
  | indexCurveShiftData
  | yieldCurveNames
  | yieldCurveShiftData
  | fxCcyPairs
  | fxShiftData
  | swaptionVolCurrencies
  | swaptionVolShiftData
  | capFloorVolCurrencies
  | capFloorVolShiftData
  | fxVolCcyPairs
  | fxVolShiftData
  | cdsVolNames
  | cdsVolShiftData
  | baseCorrelationNames
  | baseCorrelationShiftData
  | creditNames
  | creditCcys
  | creditCurveShiftData
  | equityNames
  | equityShiftData
  | dividendYieldNames
  | dividendYieldShiftData
  | equityVolNames
  | equityVolShiftData
  | crossGammaFilter.

#[export] Instance Accessor_eq_dec : EqDecision Accessor.
Proof. solve_decision. Defined.

(** The member each inspector returns (lines 108-155). *)
Definition inspector_member (a : Accessor) : Member :=
  match a with
  | parConversion => parConversion_
  | discountCurrencies => discountCurrencies_
  | discountCurveShiftData => discountCurveShiftData_
  | indexNames => indexNames_
  | indexCurveShiftData => indexCurveShiftData_
  | yieldCurveNames => yieldCurveNames_
  | yieldCurveShiftData => yieldCurveShiftData_
  | fxCcyPairs => fxCcyPairs_
  | fxShiftData => fxShiftData_
  | swaptionVolCurrencies => swaptionVolCurrencies_
  | swaptionVolShiftData => swaptionVolShiftData_
  | capFloorVolCurrencies => capFloorVolCurrencies_
  | capFloorVolShiftData => capFloorVolShiftData_
  | fxVolCcyPairs => fxVolCcyPairs_
  | fxVolShiftData => fxVolShiftData_
  | cdsVolNames => cdsVolNames_
  | cdsVolShiftData => cdsVolShiftData_
  | baseCorrelationNames => baseCorrelationNames_
  | baseCorrelationShiftData => baseCorrelationShiftData_
  | creditNames => creditNames_
  | creditCcys => creditCcys_
  | creditCurveShiftData => creditCurveShiftData_
  | equityNames => equityNames_
  | equityShiftData => equityShiftData_
  | dividendYieldNames => dividendYieldNames_
  | dividendYieldShiftData => dividendYieldShiftData_
  | equityVolNames => equityVolNames_
  | equityVolShiftData => equityVolShiftData_
  | crossGammaFilter => crossGammaFilter_
  end.

(** The member each setter returns a reference to (lines 161-208). *)
Definition setter_member (a : Accessor) : Member :=
  match a with
  | parConversion => parConversion_
  | discountCurrencies => discountCurrencies_
  | discountCurveShiftData => discountCurveShiftData_
  | indexNames => indexNames_
  | indexCurveShiftData => indexCurveShiftData_
  | yieldCurveNames => yieldCurveNames_
  | yieldCurveShiftData => yieldCurveShiftData_
  | fxCcyPairs => fxCcyPairs_
  | fxShiftData => fxShiftData_
  | swaptionVolCurrencies => swaptionVolCurrencies_
  | swaptionVolShiftData => swaptionVolShiftData_
  | capFloorVolCurrencies => capFloorVolCurrencies_
  | capFloorVolShiftData => capFloorVolShiftData_
  | fxVolCcyPairs => fxVolCcyPairs_
  | fxVolShiftData => fxVolShiftData_
  | cdsVolNames => cdsVolNames_
  | cdsVolShiftData => cdsVolShiftData_
  | baseCorrelationNames => baseCorrelationNames_
  | baseCorrelationShiftData => baseCorrelationShiftData_
  | creditNames => creditNames_
  | creditCcys => creditCcys_
  | creditCurveShiftData => creditCurveShiftData_
  | equityNames => equityNames_
  | equityShiftData => equityShiftData_
  | dividendYieldNames => dividendYieldNames_
  | dividendYieldShiftData => dividendYieldShiftData_
  | equityVolNames => equityVolNames_
  | equityVolShiftData => equityVolShiftData_
  | crossGammaFilter => crossGammaFilter_
  end.

(** A value of the class: the value of each member. *)
Definition SensitivityScenarioData : Type := forall m : Member, member_type m.

(** Reading a member. *)
Definition get (m : Member) (d : SensitivityScenarioData) : member_type m := d m.

(** Assigning a member, as [d.x() = v] does through the setter's reference. *)
Definition set (m : Member) (v : member_type m) (d : SensitivityScenarioData) : SensitivityScenarioData :=
  fun m' => match decide (m = m') with
            | left e => eq_rect m member_type v m' e
            | right _ => d m'
            end.

(** The default constructor (line 104): [parConversion_(false)], every
    container default-constructed (empty). *)
Definition default_data : SensitivityScenarioData :=
  fun m => match m return member_type m with
           | parConversion_ => false
           | discountCurveShiftData_ | indexCurveShiftData_ | yieldCurveShiftData_
           | inflationCurveShiftData_ | creditCurveShiftData_ | dividendYieldShiftData_ => ∅
           | capFloorVolShiftData_ => ∅ | swaptionVolShiftData_ => ∅
           | fxVolShiftData_ | equityVolShiftData_ => ∅
           | fxShiftData_ | equityShiftData_ => ∅
           | cdsVolShiftData_ => ∅ | baseCorrelationShiftData_ => ∅ | creditCcys_ => ∅
           | discountCurrencies_ | indexNames_ | yieldCurveNames_ | capFloorVolCurrencies_
           | swaptionVolCurrencies_ | fxVolCcyPairs_ | fxCcyPairs_ | cdsVolNames_ | inflationIndices_
           | creditNames_ | equityVolNames_ | equityNames_ | dividendYieldNames_
           | baseCorrelationNames_ => []
           | crossGammaFilter_ => []
           end.

(** A sequence of assignments through the setters, in order. *)
Definition assign_all (l : list {a : Accessor & member_type (setter_member a)}) (d : SensitivityScenarioData)
    : SensitivityScenarioData :=
  foldl (fun d av => set (setter_member (projT1 av)) (projT2 av) d) d l.

(** ** Lemmas *)

Lemma get_set_same m v d : get m (set m v d) = v.
Proof. unfold get, set. by rewrite (decide_True_pi eq_refl). Qed.

Lemma get_set_other m m' v d : m <> m' -> get m' (set m v d) = get m' d.
Proof. intros Hne. unfold get, set. by destruct (decide (m = m')). Qed.

(** No two setters return the same member. *)
Lemma setter_member_inj a a' : setter_member a = setter_member a' -> a = a'.
Proof. intros H. destruct a, a'; try reflexivity; discriminate H. Qed.

Lemma inspector_setter a : inspector_member a = setter_member a.
Proof. by destruct a. Qed.

(** ** Theorems *)

(** The const inspector and the setter of each name refer to the same
    member (lines 108-155 against 161-208), so what is assigned through a
    setter is what the inspector of the same name reads. *)
Theorem setter_inspector_roundtrip a (v : member_type (setter_member a)) d :
  get (setter_member a) (set (setter_member a) v d) = v /\ inspector_member a = setter_member a.
Proof. split; [apply get_set_same|apply inspector_setter]. Qed.

(** The accessors do not alias: assigning through one setter leaves
    what every other accessor's inspector reads unchanged. *)
Theorem setters_independent a a' (v : member_type (setter_member a)) d :
  a <> a' -> get (inspector_member a') (set (setter_member a) v d) = get (inspector_member a') d.
Proof.
  intros Hne. apply get_set_other. rewrite (inspector_setter a'). intros Heq. by apply Hne, setter_member_inj.
Qed.

(** The inflation members [inflationIndices_] and
    [inflationCurveShiftData_] (lines 256-258) have no accessor (their
    inspectors and setters are commented out, lines 137-139 and 190-192):
    whatever is assigned through the setters to a default-constructed
    object, both stay empty. *)
Theorem inflation_members_unreachable l :
  get inflationIndices_ (assign_all l default_data) = [] /\
  get inflationCurveShiftData_ (assign_all l default_data) = ∅.
Proof.
  unfold assign_all.
  apply (foldl_invariant (fun d => get inflationIndices_ d = [] /\ get inflationCurveShiftData_ d = ∅));
    [|done].
  intros d [a v] _ [H1 H2]. simpl.
  rewrite !get_set_other by (destruct a; discriminate). done.
Qed.

End SensitivityScenarioData.
