(* ===== verification/Scenarios.v ===== *)
(** * Scenarios

    Concrete graphs and engine configurations on which the theorems of the
    other files are applied, and the scenarios of spec §8 stated as
    theorems: the arithmetic graph over two broadcast constants, the
    retention of a chain's output, and the end-to-end run of one trade with
    payoff [max(x - K, 0)] on four paths. *)

From S2P Require Import Prelude Operand Graph ForwardEval Contributor PathGen XvaEngineCG CrossAssetModelData IterativeBootstrap NormalSabr.
From Stdlib Require Import QArith ZArith Reals Lra.
Import ComputationGraph XvaEngineCG CamData IterativeBootstrap.
Local Open Scope nat_scope.

(** ** The evaluator alone *)

(** Two constants 2 and 3 and the nodes [2 + 3] and [2 * 3]. *)
Definition example_graph : graph :=
  let '(c2, g1) := constant 2%Q empty_graph in
  let '(c3, g2) := constant 3%Q g1 in
  match insert [c2; c3] (opId OpAdd) g2 with
  | Ok (_, g3) => match insert [c2; c3] (opId OpMult) g3 with
                  | Ok (_, g4) => g4
                  | Err _ => g3
                  end
  | Err _ => g2
  end.

(** The constants broadcast over [n] paths. *)
Definition example_values (n : nat) : list (option RandomVariable) :=
  [Some (rv_const n (Fin 2)); Some (rv_const n (Fin 3)); None; None].

(** A chain [x -> -x -> |-x|]: node 2 is the only reader of node 1. *)
Definition chain_graph : graph :=
  let g1 := append_node [] (opId OpNone) empty_graph in
  match insert [0] (opId OpNegative) g1 with
  | Ok (_, g2) => match insert [1] (opId OpAbs) g2 with
                  | Ok (_, g3) => g3
                  | Err _ => g2
                  end
  | Err _ => g1
  end.

(** ** One trade on a one-factor model *)

(** The model layer: node 0 a random variate, node 1 a model parameter,
    node 2 a model node nobody binds. *)
Definition scenario_model_graph : graph :=
  append_node [] (opId OpNone) (append_node [] (opId OpNone) (append_node [] (opId OpNone) empty_graph)).

Definition scenario_model_graph_steps : rtc api_step empty_graph scenario_model_graph.
Proof.
  eapply rtc_l; [eapply (step_insert _ [] (opId OpNone)); reflexivity|].
  eapply rtc_l; [eapply (step_insert _ [] (opId OpNone)); reflexivity|].
  eapply rtc_l; [eapply (step_insert _ [] (opId OpNone)); reflexivity|].
  apply rtc_refl.
Qed.

(** The payoff script [NPV_0 := max(x - 100, 0)], reported at the only
    simulation date too. *)
Definition payoff_script : list gstmt :=
  [SAssign "NPV_0" (EBin (opId OpMax) (EBin (opId OpSubtract) (ENode 0) (EConst 100)) (EConst 0));
   SAssign "_AMC_NPV_0" (EVar "NPV_0")].

Definition scenario_trade : trade :=
  ScriptedInstrument (Some {| npvName := "NPV"; engine_cg := contributor_of_prog payoff_script |}).

Definition scenario_model (nPaths : nat) : cam_model := {|
  model_graph := scenario_model_graph;
  model_graph_steps := scenario_model_graph_steps;
  randomVariates := [[0]];
  modelParameters := [(1%nat, (1 # 2)%Q)];
  samples := nPaths |}.

(** The generator replays the path values [xs]; the portfolio is [n]
    copies of the trade. *)
Definition scenario_cfg_N (n : Z) (xs : list Q) : engine_config := {|
  env_N := Some n;
  input_portfolio := {[ "T" := scenario_trade ]};
  discretization := Euler;
  model := scenario_model (length xs);
  grid := [1%Z];
  make_generator := fun _ _ => replay_generator ((fun x => [[Fin x]]) <$> xs) |}.

Definition scenario_cfg (xs : list Q) : engine_config := scenario_cfg_N 1 xs.

Definition scenario_xs : list Q := [90; 100; 110; 120]%Q.

Definition dummy_result : engine_result :=
  {| er_graph := empty_graph; er_amcNpvNodes := ∅; er_tradeNodeRanges := ∅;
     er_keepNodes := []; er_values := [] |}.

Definition scenario_result : engine_result :=
  match run (scenario_cfg scenario_xs) with Ok r => r | Err _ => dummy_result end.

Definition two_trades_result : engine_result :=
  match run (scenario_cfg_N 2 scenario_xs) with Ok r => r | Err _ => dummy_result end.

Definition scenario_trades : trades_state :=
  match build_trades 1 scenario_model_graph {[ "T_1" := scenario_trade ]} with
  | Ok st => st
  | Err _ => {| ts_graph := empty_graph; amcNpvNodes := ∅; tradeNodeRanges := ∅ |}
  end.

(** Two copies of the trade, under the ids [T_1] and [T_2]. *)
Definition two_trades_state : trades_state :=
  match build_trades 1 scenario_model_graph {[ "T_1" := scenario_trade; "T_2" := scenario_trade ]} with
  | Ok st => st
  | Err _ => scenario_trades
  end.

(** The payoff of one path. *)
Definition call_payoff (x : Q) : real := rmax (rsub (Fin x) (Fin 100)) (Fin 0).

(** ** Cross asset model data *)

Definition lgm_params (scale : Q) : LgmParams := {|
  calibrationType := "Bootstrap"; reversionType := "HullWhite"; volatilityType := "Hagan";
  calibrateH := false; hParamType := "Constant"; hTimes := []; hValues := [3 # 100];
  calibrateA := true; aParamType := "Piecewise"; aTimes := [1%Q]; aValues := [1 # 100; 1 # 100];
  shiftHorizon := 0%Q; scaling := scale;
  optionExpiries := ["1Y"]; optionTerms := ["5Y"]; optionStrikes := ["ATM"] |}.

Definition bs_params : BsParams := {|
  bs_calibrationType := "Bootstrap"; calibrateSigma := true; sigmaParamType := "Piecewise";
  sigmaTimes := [1%Q]; sigmaValues := [1 # 10; 1 # 10];
  bs_optionExpiries := ["1Y"]; bs_optionStrikes := ["ATMF"] |}.

(** EUR domestic, USD foreign: EUR has its own rate model, USD takes the
    default one; the FX model of USD is the default one. *)
Definition cam_doc (ccys : list string) : CamXml := {|
  x_domesticCcy := "EUR"; x_currencies := ccys; x_equities := ["SP5"];
  x_infindices := ["EUHICPXT"]; x_creditNames := ["CPTY_A"; "CPTY_B"];
  x_bootstrapTolerance := 1 # 10000;
  x_irModels := [{| ir_ccy := "EUR"; ir_params := lgm_params 1%Q |};
                 {| ir_ccy := "default"; ir_params := lgm_params 2%Q |}];
  x_fxModels := [{| foreignCcy := "default"; domesticCcy := "EUR"; fx_params := bs_params |}];
  x_eqModels := [{| eqName := "SP5"; eq_currency := "USD"; eq_params := bs_params |}];
  x_infModels := Some [("LGM", "default"); ("Bachelier", "EUHICPXT")];
  x_crLgmModels := [{| crl_name := "default"; crl_params := lgm_params 1%Q |}];
  x_crCirModels := [{| crc_name := "CPTY_B"; crc_params := [1 # 2] |}];
  x_correlations := Some [] |}.

Definition empty_cam : CrossAssetModelData := {|
  domesticCurrency := ""; currencies := []; equities := []; infindices := []; creditNames := [];
  bootstrapTolerance := 0%Q; irConfigs := []; fxConfigs := []; eqConfigs := []; infConfigs := [];
  crLgmConfigs := []; crCirConfigs := []; correlations := [] |}.

(** The correlation builder appends each pair. *)
Definition append_correlation (c : list (CorrelationKey * Q)) (f1 f2 : CorrelationFactor) (v : Q)
    : list (CorrelationKey * Q) := c ++ [((f1, f2), v)].

Definition cam_loaded : CrossAssetModelData :=
  match fromXML append_correlation (cam_doc ["EUR"; "USD"]) empty_cam with
  | Ok d => d
  | Err _ => empty_cam
  end.

(** ** A bootstrap of three helpers, one expired *)

Definition boot_traits (maxIt : nat) : Traits := {|
  initialDate := fun _ => 0%Z; initialValue := 1%Q; maxIterations := maxIt; requiredPoints := 2;
  global := false;
  minValueAfter := fun _ _ _ _ => 0%Q; maxValueAfter := fun _ _ _ _ => 2%Q;
  guess := fun _ _ _ _ => 1%Q |}.

(** A solver that finds the root [1/2] on every pillar. *)
Definition boot_numerics : Numerics := {|
  timeFromReference := fun d => (inject_Z d / 365)%Q;
  interpolate := fun _ _ => true;
  solve := fun _ _ _ _ _ _ _ => Some (1 # 2)%Q |}.

Definition boot_helper (pillar lrd : Z) (valid : bool) : BootstrapHelper :=
  {| pillarDate := pillar; latestRelevantDate := lrd; maturityDate := lrd; quoteIsValid := valid |}.

(** Unsorted helpers; the one with pillar 730 has a later latest relevant
    date, so the convergence loop is required. *)
Definition boot_curve (valid : bool) : Curve := {|
  instruments := [boot_helper 730 740 valid; boot_helper 365 365 true; boot_helper (-10) (-10) true];
  dates := []; times := []; data := []; maxDate := 0%Z; moving := false; accuracy := (1 # 1000000)%Q |}.

Definition boot_start (valid : bool) (globalAcc : Q) : Bootstrap :=
  match setup (boot_curve valid) (make_bootstrap (boot_traits 100) globalAcc) with
  | Ok b => b
  | Err _ => make_bootstrap (boot_traits 100) globalAcc
  end.

Definition boot_init (globalAcc : Q) : Curve * Bootstrap :=
  match initialize (boot_traits 100) boot_numerics (boot_curve true) (boot_start true globalAcc) with
  | Ok p => p
  | Err _ => (boot_curve true, boot_start true globalAcc)
  end.

Definition boot_initialized : Curve * Bootstrap := boot_init 1%Q.

Definition boot_calculated : Curve * Bootstrap :=
  match calculate (boot_traits 100) boot_numerics (boot_curve true) (boot_start true (1 # 10000000000)) with
  | Ok p => p
  | Err _ => (boot_curve true, boot_start true 1)
  end.

(** The first pass from [boot_init globalAcc], under a limit of [maxIt]. *)
Definition boot_pass (maxIt : nat) (globalAcc : Q) : Curve :=
  let '(ts, b) := boot_init globalAcc in
  match res_foldl (pillar_step (boot_traits maxIt) boot_numerics false 0 (set_previousData b (data ts)))
          ts (seq 1 (alive b)) with
  | Ok ts' => ts'
  | Err _ => ts
  end.

Definition boot_first_pass : Curve := boot_pass 100 1%Q.

(** Newton ([solver_], valid data) fails on every pillar; Brent
    ([firstSolver_]) finds [1/2]. *)
Definition retry_numerics : Numerics := {|
  timeFromReference := timeFromReference boot_numerics; interpolate := fun _ _ => true;
  solve := fun vd _ _ _ _ _ _ => if vd then None else Some (1 # 2)%Q |}.

(** The re-initialization of the calculated curve after it is invalidated. *)
Definition retry_init : Curve * Bootstrap :=
  match initialize (boot_traits 100) retry_numerics boot_calculated.1 (set_flags boot_calculated.2 false false) with
  | Ok p => p
  | Err _ => boot_calculated
  end.

(** Two factors over two time steps, two paths drawn: [variate_table !! p]
    is [p.value] of the [p]-th draw, indexed by step then factor. *)
Definition variate_table : list (list (list real)) :=
  [[[Fin 1; Fin 2]; [Fin 3; Fin 4]]; [[Fin 5; Fin 6]; [Fin 7; Fin 8]]].

Definition variate_nodes : list (list nat) := [[0; 1]; [2; 3]].

(** ** Theorems *)

(** Spec §8, arithmetic: with the constants 2 and 3 bound over [n] paths,
    the evaluator (deleter on, sum and product kept) stores 5 on every path
    for the sum and 6 for the product, and releases the two constants. *)
Theorem example_add_mult_all_paths (n : nat) :
  forwardEvaluation example_graph (example_values n) true [false; false; true; true] =
  Ok [None; None; Some (rv_const n (Fin 5)); Some (rv_const n (Fin 6))].
Proof.
  let G := eval vm_compute in example_graph in change example_graph with G.
  cbn -[rv_zip rv_const]. unfold rv_zip, rv_const. by rewrite !zip_with_replicate.
Qed.

(** Spec §8, retention: only node 2 is kept and it is the only reader of
    node 1; after the evaluation node 2 holds its value, node 1 is
    released. *)
Example retention_chain :
  forwardEvaluation chain_graph [Some (rv_const 4 (Fin 7)); None; None] true [false; false; true] =
  Ok [None; None; Some (rv_const 4 (Fin 7))].
Proof. vm_compute. reflexivity. Qed.

(** Spec §8, end to end: one trade with payoff [max(x - 100, 0)] over
    four paths whose variates are [x1..x4].  The run succeeds, the trade
    copy [T_1] reports node 6 at time zero and at the simulation date, and
    that node holds the payoff of each path; everything else the payoff
    read has been released. *)
Theorem scenario_call_payoff (x1 x2 x3 x4 : Q) :
  match run (scenario_cfg [x1; x2; x3; x4]) with
  | Ok r => er_amcNpvNodes r !! "T_1" = Some [6; 6] /\
            er_values r !! 6 = Some (Some (call_payoff <$> [x1; x2; x3; x4])) /\
            er_values r !! 4 = Some None
  | Err _ => False
  end.
Proof. vm_compute. split_and!; reflexivity. Qed.

(** ** The engine's theorems applied to the scenario *)

Lemma run_outputs_reference_witness :
  run (scenario_cfg scenario_xs) = Ok scenario_result /\
  exists ref, forward_reference (er_graph scenario_result)
                (bound_values (scenario_cfg scenario_xs) (er_graph scenario_result)) = Ok ref /\
  forall id ns n, er_amcNpvNodes scenario_result !! id = Some ns -> n ∈ ns ->
    er_values scenario_result !! n = ref !! n.
Proof.
  split; [vm_compute; reflexivity|].
  apply run_outputs_reference. vm_compute. reflexivity.
Defined.

Lemma run_releases_witness :
  run (scenario_cfg scenario_xs) = Ok scenario_result /\ 4 < size (er_graph scenario_result) /\
  er_keepNodes scenario_result !! 4 <> Some true /\
  last_required (er_graph scenario_result) 4 = Some 6 /\ er_values scenario_result !! 4 = Some None.
Proof.
  split_and!; [vm_compute; reflexivity|vm_compute; lia|vm_compute; discriminate|vm_compute; reflexivity|].
  apply (run_releases (scenario_cfg scenario_xs) scenario_result) with (m := 6);
    [vm_compute; reflexivity|vm_compute; lia|vm_compute; discriminate|vm_compute; reflexivity].
Defined.

(** Two copies of the trade: the second one reuses the constants of the
    first and adds two nodes only. *)
Lemma bound_values_unbound_zero_witness :
  bound_values (scenario_cfg scenario_xs) scenario_model_graph !! 2 =
  Some (Some (rv_const 4 (Fin 0))).
Proof.
  apply (bound_values_unbound_zero (scenario_cfg scenario_xs) scenario_model_graph 2).
  - vm_compute. lia.
  - apply (bool_decide_unpack _). vm_compute. exact I.
  - apply (bool_decide_unpack _). vm_compute. exact I.
  - apply (bool_decide_unpack _). vm_compute. exact I.
Defined.

Lemma bound_values_parameter_witness :
  bound_values (scenario_cfg scenario_xs) scenario_model_graph !! 1 =
  Some (Some (rv_const 4 (Fin (1 # 2)))).
Proof.
  apply (bound_values_parameter (scenario_cfg scenario_xs) scenario_model_graph 1 (1 # 2)).
  - apply (bool_decide_unpack _). vm_compute. exact I.
  - simpl. by left.
  - vm_compute. lia.
Defined.

Lemma populate_random_variates_binds_witness :
  populate_random_variates (fun _ _ => replay_generator variate_table) variate_nodes 2
    (replicate 4 (Some (rv_const 3 (Fin 0)))) !! 2 = Some (Some [Fin 2; Fin 6; Fin 0]) /\
  exists x, populate_random_variates (fun _ _ => replay_generator variate_table) variate_nodes 2
              (replicate 4 (Some (rv_const 3 (Fin 0)))) !! 2 = Some (Some x) /\
    length x = length (rv_const 3 (Fin 0)) /\
    (forall p y, p < 2 -> p < length (rv_const 3 (Fin 0)) ->
       nth_path (replay_generator variate_table) p !! 0 ≫= (.!! 1) = Some y -> x !! p = Some y) /\
    (forall p, 2 <= p -> x !! p = rv_const 3 (Fin 0) !! p).
Proof.
  split; [vm_compute; reflexivity|].
  apply (populate_random_variates_binds (fun _ _ => replay_generator variate_table) variate_nodes 2
           (replicate 4 (Some (rv_const 3 (Fin 0)))) 2 0 1 (rv_const 3 (Fin 0))).
  - apply (bool_decide_unpack _). vm_compute. exact I.
  - reflexivity.
  - simpl. lia.
  - reflexivity.
Defined.

Lemma bound_values_sized_witness :
  bound_values (scenario_cfg scenario_xs) scenario_model_graph !! 1 = Some (Some (rv_const 4 (Fin (1 # 2)))) /\
  length (rv_const 4 (Fin (1 # 2))) = samples (model (scenario_cfg scenario_xs)).
Proof.
  split; [vm_compute; reflexivity|].
  apply (bound_values_sized (scenario_cfg scenario_xs) scenario_model_graph 1). vm_compute. reflexivity.
Defined.

Lemma build_trades_chain_witness :
  build_trades 1 scenario_model_graph {[ "T_1" := scenario_trade; "T_2" := scenario_trade ]} =
    Ok two_trades_state /\
  exists gs, length gs = S (length (portfolio_trades {[ "T_1" := scenario_trade; "T_2" := scenario_trade ]})) /\
    gs !! 0 = Some scenario_model_graph /\
    gs !! length (portfolio_trades {[ "T_1" := scenario_trade; "T_2" := scenario_trade ]}) =
      Some (ts_graph two_trades_state) /\
    forall k id t, portfolio_trades {[ "T_1" := scenario_trade; "T_2" := scenario_trade ]} !! k = Some (id, t) ->
      exists eng g g', engine_of id t = Ok eng /\ gs !! k = Some g /\ gs !! S k = Some g' /\
        build (engine_cg eng) (setPrefix (id +:+ "_") g) = Ok g' /\
        tradeNodeRanges two_trades_state !! id = Some (size g, size g').
Proof.
  assert (H : build_trades 1 scenario_model_graph {[ "T_1" := scenario_trade; "T_2" := scenario_trade ]} =
                Ok two_trades_state) by (vm_compute; reflexivity).
  split; [exact H|]. exact (build_trades_chain _ _ _ _ H).
Defined.

Lemma run_guards_witness :
  run (scenario_cfg scenario_xs) = Ok scenario_result /\ discretization (scenario_cfg scenario_xs) = Euler.
Proof.
  split; [vm_compute; reflexivity|].
  apply (run_guards (scenario_cfg scenario_xs) scenario_result). vm_compute. reflexivity.
Defined.

(** [N = 2]: the trade [T] is priced as the copies [T_1] and [T_2]. *)
Lemma duplicate_portfolio_copies_witness :
  duplicate_portfolio (Some 2%Z) {[ "T" := scenario_trade ]} =
    Ok {[ "T_1" := scenario_trade; "T_2" := scenario_trade ]} /\
  forall k t, ({[ "T_1" := scenario_trade; "T_2" := scenario_trade ]} : gmap string trade) !! k = Some t <->
    exists id i, ({[ "T" := scenario_trade ]} : gmap string trade) !! id = Some t /\ i < copy_count 2 /\
      k = copy_id id i.
Proof.
  assert (H : duplicate_portfolio (Some 2%Z) {[ "T" := scenario_trade ]} =
                Ok {[ "T_1" := scenario_trade; "T_2" := scenario_trade ]}) by (vm_compute; reflexivity).
  split; [exact H|]. exact (duplicate_portfolio_copies _ _ _ H).
Defined.

(** ** The cross asset model data theorems applied *)

(** With the foreign currency first, loading stops at [validate]. *)
Example fromXML_foreign_first :
  fromXML append_correlation (cam_doc ["USD"; "EUR"]) empty_cam = Err (CcyMismatch 0).
Proof. vm_compute. reflexivity. Qed.

Lemma fromXML_alignment_witness :
  fromXML append_correlation (cam_doc ["EUR"; "USD"]) empty_cam = Ok cam_loaded /\
  exists r, currencies cam_loaded = domesticCurrency cam_loaded :: r /\ domesticCurrency cam_loaded ∉ r /\
  ir_ccy <$> irConfigs cam_loaded = currencies cam_loaded /\ foreignCcy <$> fxConfigs cam_loaded = r /\
  eqName <$> eqConfigs cam_loaded = equities cam_loaded.
Proof.
  split; [vm_compute; reflexivity|].
  apply (fromXML_alignment append_correlation (cam_doc ["EUR"; "USD"]) empty_cam). vm_compute. reflexivity.
Defined.

Lemma buildCrConfigs_partition_witness :
  let lm := key_map crl_name (x_crLgmModels (cam_doc [])) in
  let cm := key_map crc_name (x_crCirModels (cam_doc [])) in
  crl_name <$> crLgmConfigs cam_loaded = filter (fun n => is_Some (lm !! n) \/ cm !! n = None) ["CPTY_A"; "CPTY_B"] /\
  crc_name <$> crCirConfigs cam_loaded = filter (fun n => lm !! n = None /\ is_Some (cm !! n)) ["CPTY_A"; "CPTY_B"].
Proof.
  apply (buildCrConfigs_partition ["CPTY_A"; "CPTY_B"]).
  - apply key_map_keyed.
  - apply key_map_keyed.
  - vm_compute. reflexivity.
Defined.

Lemma buildCrConfigs_lgm_and_cir_witness :
  exists e, buildCrConfigs ["CPTY_A"] {[ "CPTY_A" := {| crl_name := "CPTY_A"; crl_params := lgm_params 1%Q |} ]}
                                     {[ "CPTY_A" := {| crc_name := "CPTY_A"; crc_params := [] |} ]} = Err e.
Proof. apply (buildCrConfigs_lgm_and_cir _ _ _ "CPTY_A"); [by left|vm_compute; by eexists|vm_compute; by eexists]. Defined.

Lemma buildInfConfigs_default_witness :
  Forall2 (fun name c => inf_model_map [("LGM", "default")] !! name = Some c \/
             (inf_model_map [("LGM", "default")] !! name = None /\
              inf_model_map [("LGM", "default")] !! "default" = Some c /\ inf_kind c <> InfOther))
    ["EUHICPXT"] [{| inf_kind := InfDk; inf_index := "default" |}].
Proof. apply buildInfConfigs_default. vm_compute. reflexivity. Defined.

Lemma cam_eqb_ignores_credit_names_witness :
  cam_eqb Qeq_bool cam_loaded {| domesticCurrency := domesticCurrency cam_loaded;
    currencies := currencies cam_loaded; equities := equities cam_loaded;
    infindices := infindices cam_loaded; creditNames := [];
    bootstrapTolerance := bootstrapTolerance cam_loaded; irConfigs := irConfigs cam_loaded;
    fxConfigs := fxConfigs cam_loaded; eqConfigs := eqConfigs cam_loaded;
    infConfigs := [{| inf_kind := InfJy; inf_index := "UKRPI" |}];
    crLgmConfigs := crLgmConfigs cam_loaded; crCirConfigs := crCirConfigs cam_loaded;
    correlations := correlations cam_loaded |} = true.
Proof.
  apply cam_eqb_ignores_credit_names; [intros x; apply Qeq_bool_refl|vm_compute; reflexivity].
Defined.

(** ** The bootstrap theorems applied *)

(** An invalid quote stops [calculate] with the code's exception. *)
Lemma calculate_genuine_witness :
  calculate (boot_traits 100) boot_numerics (boot_curve false) (boot_start false 1%Q) = Err (InvalidQuote 2) /\
  genuine (InvalidQuote 2).
Proof.
  split; [vm_compute; reflexivity|].
  apply (calculate_genuine (boot_traits 100) boot_numerics (boot_curve false) (boot_start false 1%Q)).
  - split; vm_compute; [reflexivity|lia].
  - vm_compute. reflexivity.
Defined.

Lemma calculate_total_solver_witness :
  (exists r, calculate (boot_traits 100) boot_numerics (boot_curve true) (boot_start true (1 # 10000000000)) = Ok r) \/
  ((exists it, calculate (boot_traits 100) boot_numerics (boot_curve true) (boot_start true (1 # 10000000000)) =
               Err (NoConvergence it)) /\ loopRequired (boot_init (1 # 10000000000)).2 = true).
Proof.
  apply (calculate_total_solver (boot_traits 100) boot_numerics) with
    (ts1 := (boot_init (1 # 10000000000)).1) (b1 := (boot_init (1 # 10000000000)).2);
    [intros; eexists; reflexivity|reflexivity| |].
  - vm_compute. reflexivity.
  - vm_compute. reflexivity.
Defined.

(** Recalculating the valid curve with a failing Newton solver retries from
    the initial value; the retry's first pass (Brent) succeeds and its
    second pass, with Newton again, fails on the now invalid curve. *)
Lemma calculate_retry_fresh_witness :
  data retry_init.1 = replicate (alive retry_init.2 + 1) (initialValue (boot_traits 100)) /\
  calculate (boot_traits 100) retry_numerics boot_calculated.1 boot_calculated.2 =
    (let! _ := check_quotes retry_init.1 retry_init.2 in
     match iterate (boot_traits 100) retry_numerics (pass_fuel (boot_traits 100)) 0 false retry_init.1 retry_init.2 with
     | Ok (ts3, b3) => Ok (ts3, set_flags b3 (initialized b3) true)
     | Err e => Err e
     end).
Proof.
  apply (calculate_retry_fresh (boot_traits 100) retry_numerics boot_calculated.1 boot_calculated.2
           boot_calculated.1 boot_calculated.2 0 1); vm_compute; reflexivity.
Defined.

Lemma calculate_inv_witness :
  boot_inv boot_calculated.1 boot_calculated.2 /\ validCurve boot_calculated.2 = true /\
  initialized boot_calculated.2 = true.
Proof.
  apply (calculate_inv (boot_traits 100) boot_numerics (boot_curve true) (boot_start true (1 # 10000000000))).
  - split; vm_compute; [reflexivity|lia].
  - vm_compute. reflexivity.
Defined.

Lemma initialize_dates_increasing_witness :
  dates boot_initialized.1 !! 0 = Some 0%Z /\ length (dates boot_initialized.1) = alive boot_initialized.2 + 1 /\
  forall i, i < alive boot_initialized.2 ->
    exists d1 d2, dates boot_initialized.1 !! i = Some d1 /\ dates boot_initialized.1 !! S i = Some d2 /\ (d1 < d2)%Z.
Proof.
  apply (initialize_dates_increasing (boot_traits 100) boot_numerics (boot_curve true) (boot_start true 1%Q)).
  - split; vm_compute; [reflexivity|lia].
  - vm_compute. reflexivity.
Defined.

Lemma adjust_guess_bracket_witness : (0 < adjust_guess 0 2 5 < 2)%Q.
Proof. apply adjust_guess_bracket. vm_compute. reflexivity. Defined.

(** The first pass moves the data by [1/2], within a global accuracy of 1:
    the bootstrap stops after it. *)
Lemma iterate_stops_witness :
  iterate (boot_traits 100) boot_numerics 5 0 false boot_initialized.1 boot_initialized.2 =
  Ok (boot_first_pass, set_previousData boot_initialized.2 (data boot_initialized.1)).
Proof.
  apply iterate_stops.
  - vm_compute. reflexivity.
  - vm_compute. reflexivity.
  - vm_compute. discriminate.
Defined.

(** With [Traits::maxIterations() = 0] and a global accuracy of
    [1e-10], the first pass moves the data by [1/2] and the bootstrap goes
    on to the next pass instead of failing. *)
Lemma max_iterations_wraps_witness :
  iterate (boot_traits 0) boot_numerics 5 0 false (boot_init (1 # 10000000000)).1 (boot_init (1 # 10000000000)).2 =
  iterate (boot_traits 0) boot_numerics 4 1 true (boot_pass 0 (1 # 10000000000))
    (set_previousData (boot_init (1 # 10000000000)).2 (data (boot_init (1 # 10000000000)).1)).
Proof.
  apply max_iterations_wraps.
  - reflexivity.
  - vm_compute. reflexivity.
  - vm_compute. reflexivity.
  - vm_compute. reflexivity.
  - vm_compute. reflexivity.
Defined.

(** ** The normal SABR theorems applied *)

(** Expiry 24, [nu = 1], [rho = 0]: the factor is 3, an at-the-money
    volatility of 3% gives alpha 1% and back. *)
Lemma atm_roundtrip_witness :
  NormalSabr.normalSabrVolatility (3 / 100) (3 / 100) 24
    (NormalSabr.normalSabrAlphaFromAtmVol (3 / 100) 24 (3 / 100) 1 0) 1 0 = Ok (3 / 100)%R.
Proof.
  assert (Hf : NormalSabr.atm_factor 24 1 0 = 3%R) by (unfold NormalSabr.atm_factor; field).
  apply NormalSabr.atm_roundtrip; rewrite ?Hf; unfold NormalSabr.floor_vol; lra.
Defined.

(** Expiry 100, [nu = 2], [rho = 0.9]: the factor is negative and the
    at-the-money volatility comes back as the floor. *)
Lemma atm_negative_factor_floor_witness :
  NormalSabr.normalSabrVolatility (3 / 100) (3 / 100) 100
    (NormalSabr.normalSabrAlphaFromAtmVol (3 / 100) 100 (3 / 100) 2 (9 / 10)) 2 (9 / 10) =
  Ok NormalSabr.floor_vol.
Proof.
  apply NormalSabr.atm_negative_factor_floor.
  - unfold NormalSabr.floor_vol. lra.
  - unfold NormalSabr.atm_factor. lra.
Defined.
