(* ===== verification/CamScenarios.v ===== *)
(** * Scenarios: writing and reloading a model configuration

    Text conversions for the values [toXML] writes (a rational as
    [numerator/denominator], a [Size] in decimal, a factor as
    [type:name]), the EUR/USD configuration of [Scenarios] with two
    correlations, one of them on an indexed FX factor, and the theorems of
    [CrossAssetModelXml] applied to it. *)

From S2P Require Import Prelude CrossAssetModelData CrossAssetModelXml Scenarios.
From Stdlib Require Import QArith Ascii.
Import CamData CamXmlIO.
Local Open Scope nat_scope.

(** ** Text conversions *)

(** The decimal digits of a string as a number. *)
Fixpoint digits_value (s : string) (acc : nat) : nat :=
  match s with
  | EmptyString => acc
  | String c s' => digits_value s' (10 * acc + (Ascii.nat_of_ascii c - 48))
  end.

Definition parse_size (s : string) : nat := digits_value s 0.

(** The part of a string before the first [sep] and the part after it. *)
Fixpoint split_at (sep : Ascii.ascii) (s : string) : string * string :=
  match s with
  | EmptyString => (EmptyString, EmptyString)
  | String c s' =>
      if Ascii.eqb c sep then (EmptyString, s')
      else let '(a, b) := split_at sep s' in (String c a, b)
  end.

Definition q_to_string (q : Q) : string :=
  pretty (Qnum q) +:+ "/" +:+ pretty (Npos (Qden q)).

Definition parse_q (s : string) : Q :=
  let '(a, b) := split_at "/"%char s in Z.of_nat (parse_size a) # Pos.of_nat (parse_size b).

Definition parse_factor (s : string) : CorrelationFactor :=
  let '(t, n) := split_at ":"%char s in {| cf_type := t; cf_name := n; cf_index := None |}.

(** DK data is written as a [DodgsonKainth] node, JY data as a
    [JarrowYildirim] node. *)
Definition inf_class_name (k : InfModelKind) : string :=
  match k with InfDk => "DodgsonKainth" | InfJy => "JarrowYildirim" | InfOther => "Other" end.

(** ** The configuration *)

Definition ir_factor (ccy : string) : CorrelationFactor := {| cf_type := "IR"; cf_name := ccy; cf_index := None |}.
Definition fx_factor (pair : string) : CorrelationFactor := {| cf_type := "FX"; cf_name := pair; cf_index := Some 0 |}.

Definition cam_doc_corr : CamXml := {|
  x_domesticCcy := "EUR"; x_currencies := ["EUR"; "USD"]; x_equities := ["SP5"];
  x_infindices := ["EUHICPXT"]; x_creditNames := ["CPTY_A"; "CPTY_B"];
  x_bootstrapTolerance := 1 # 10000;
  x_irModels := x_irModels (cam_doc []); x_fxModels := x_fxModels (cam_doc []);
  x_eqModels := x_eqModels (cam_doc []); x_infModels := x_infModels (cam_doc []);
  x_crLgmModels := x_crLgmModels (cam_doc []); x_crCirModels := x_crCirModels (cam_doc []);
  x_correlations := Some [(ir_factor "EUR", ir_factor "USD", 1 # 2); (ir_factor "EUR", fx_factor "USDEUR", 3 # 10)] |}.

Definition cam_corr_loaded : CrossAssetModelData :=
  match fromXML append_correlation cam_doc_corr empty_cam with Ok d => d | Err _ => empty_cam end.

(** The same document without its [InflationIndexModels] node. *)
Definition cam_doc_no_inf : CamXml := {|
  x_domesticCcy := "EUR"; x_currencies := ["EUR"; "USD"]; x_equities := ["SP5"];
  x_infindices := ["EUHICPXT"]; x_creditNames := ["CPTY_A"; "CPTY_B"];
  x_bootstrapTolerance := 1 # 10000;
  x_irModels := x_irModels (cam_doc []); x_fxModels := x_fxModels (cam_doc []);
  x_eqModels := x_eqModels (cam_doc []); x_infModels := None;
  x_crLgmModels := x_crLgmModels (cam_doc []); x_crCirModels := x_crCirModels (cam_doc []);
  x_correlations := Some [] |}.

Definition cam_no_inf_loaded : CrossAssetModelData :=
  match fromXML append_correlation cam_doc_no_inf empty_cam with Ok d => d | Err _ => empty_cam end.

(** ** The theorems applied *)

(** [append_correlation] keeps the entries in the order they are added, so
    re-adding its entries rebuilds it. *)
Lemma foldl_append_correlation acc (l : list (CorrelationFactor * CorrelationFactor * Q)) :
  foldl (fun cmb '(f1, f2, corr) => append_correlation cmb f1 f2 corr) acc l = acc ++ ((fun e => (e.1, e.2)) <$> l).
Proof.
  revert acc. induction l as [|[[f1 f2] v] l IH]; intros acc; simpl; [by rewrite app_nil_r|].
  rewrite IH. unfold append_correlation. by rewrite <- app_assoc.
Qed.

Lemma append_correlation_readds : readds_entries append_correlation.
Proof.
  intros l g. cbn zeta. rewrite !foldl_append_correlation. simpl.
  rewrite <- list_fmap_compose. apply list_fmap_ext. by intros _ [[f1 f2] v] _.
Qed.

Lemma toXML_roundtrip_witness :
  fromXML append_correlation
    (parse_cam parse_q parse_size parse_factor (toXML q_to_string to_string inf_class_name cam_corr_loaded))
    empty_cam =
  Ok {| domesticCurrency := domesticCurrency cam_corr_loaded; currencies := currencies cam_corr_loaded;
        equities := equities cam_corr_loaded; infindices := infindices cam_corr_loaded;
        creditNames := creditNames cam_corr_loaded;
        bootstrapTolerance := parse_q (q_to_string (bootstrapTolerance cam_corr_loaded));
        irConfigs := irConfigs cam_corr_loaded; fxConfigs := fxConfigs cam_corr_loaded;
        eqConfigs := eqConfigs cam_corr_loaded; infConfigs := infConfigs cam_corr_loaded;
        crLgmConfigs := crLgmConfigs cam_corr_loaded; crCirConfigs := crCirConfigs cam_corr_loaded;
        correlations := foldl (fun cmb '(f1, f2, corr) => append_correlation cmb f1 f2 corr) []
          ((fun e => (e.1.1, e.1.2, parse_q (q_to_string e.2))) <$> correlations cam_corr_loaded) |}.
Proof.
  apply (toXML_roundtrip q_to_string parse_q to_string parse_size parse_factor inf_class_name
           append_correlation cam_doc_corr empty_cam cam_corr_loaded empty_cam).
  - by right.
  - reflexivity.
  - vm_compute. reflexivity.
  - left. vm_compute. by eexists.
  - replace (correlations cam_corr_loaded) with
      [((ir_factor "EUR", ir_factor "USD"), 1 # 2); ((ir_factor "EUR", fx_factor "USDEUR"), 3 # 10)]%Q
      by (vm_compute; reflexivity).
    rewrite !Forall_cons, Forall_nil. unfold factor_reads_back. split_and!;
      try done; try (vm_compute; reflexivity); intros i Hi; vm_compute in Hi; try discriminate.
    injection Hi as <-. split; vm_compute; [discriminate|reflexivity].
Defined.

Lemma toXML_inflation_unreadable_witness :
  fromXML append_correlation
    (parse_cam parse_q parse_size parse_factor (toXML q_to_string to_string inf_class_name cam_no_inf_loaded))
    empty_cam = Err (MissingInf "EUHICPXT").
Proof.
  apply (toXML_inflation_unreadable q_to_string parse_q to_string parse_size parse_factor inf_class_name
           append_correlation cam_doc_no_inf empty_cam cam_no_inf_loaded empty_cam "EUHICPXT" []).
  - vm_compute. reflexivity.
  - reflexivity.
  - reflexivity.
Defined.

Lemma toXML_reload_equal_witness :
  exists d', fromXML append_correlation
    (parse_cam parse_q parse_size parse_factor (toXML q_to_string to_string inf_class_name cam_corr_loaded))
    empty_cam = Ok d' /\ cam_eqb Qeq_bool cam_corr_loaded d' = true /\ cam_neqb Qeq_bool cam_corr_loaded d' = false.
Proof.
  apply (toXML_reload_equal q_to_string parse_q to_string parse_size parse_factor inf_class_name
           append_correlation Qeq_bool cam_doc_corr empty_cam cam_corr_loaded empty_cam).
  - apply append_correlation_readds.
  - by right.
  - reflexivity.
  - vm_compute. reflexivity.
  - left. vm_compute. by eexists.
  - replace (correlations cam_corr_loaded) with
      [((ir_factor "EUR", ir_factor "USD"), 1 # 2); ((ir_factor "EUR", fx_factor "USDEUR"), 3 # 10)]%Q
      by (vm_compute; reflexivity).
    rewrite !Forall_cons, Forall_nil. unfold factor_reads_back. split_and!;
      try done; try (vm_compute; reflexivity); intros i Hi; vm_compute in Hi; try discriminate.
    injection Hi as <-. split; vm_compute; [discriminate|reflexivity].
  - vm_compute. reflexivity.
Defined.
